(** * Droste zoom engine: projective geometry, matrix powers and the zoom loop

    A shallow embedding of [utils/math.ts] (linear solver, homographies,
    3x3 products and inverses, fractional powers of 2x2 matrices) and of the
    numeric core of [components/DrosteCanvas.tsx] (quad area, loop scale,
    export schedule, live zoom tick, grid-cell culling).

    The source computes with JavaScript [number]s.  Every function is written
    once, over an interface [JSNumber] of the operations the source uses, and
    read in two ways:

    - [IEEE]: binary64 floats ([PrimFloat]), bit for bit what an engine
      computes for [+ - * / sqrt abs] and comparisons.  [Math.pow],
      [Math.sin], [Math.acos] and [Math.log] are given only where ECMAScript
      fixes their value; elsewhere they answer [None];
    - [Ideal]: exact real arithmetic, where a law stated "within floating
      tolerance" is an equation.  An operation whose JavaScript value is not a
      finite number (division by zero, root of a negative, ...) answers
      [None].

    A function returns [Some v] when the reading determines its result.  A
    third instance, [Rational], runs the exact reading on rational numbers;
    its results are carried to [Ideal] along [Q2R]. *)

From Stdlib Require Import ZArith List Bool Lia.
From Stdlib Require Import Floats Uint63.
From Stdlib Require Import Reals Lra Psatz.
From Stdlib Require String.
From Stdlib Require QArith Qabs Qreals Qround.
Import ListNotations.

Set Implicit Arguments.
Set Warnings "-inexact-float".

(** ** The option monad of partially determined results *)

Definition ret {A} (a : A) : option A := Some a.

Definition bind {A B} (m : option A) (k : A -> option B) : option B :=
  match m with
  | Some a => k a
  | None => None
  end.

Declare Scope js_scope.
Delimit Scope js_scope with js.

Notation "x <- m ;; k" := (bind m (fun x => k))
  (at level 61, m at next level, right associativity) : js_scope.

(** ** The operations of a JavaScript [number] used by the source *)

Class JSNumber (T : Type) : Type := {
  (** the decimal literal [m * 10^e] *)
  lit : Z -> Z -> T;
  jadd : T -> T -> T;
  jsub : T -> T -> T;
  jmul : T -> T -> T;
  jneg : T -> T;
  jdiv : T -> T -> option T;
  jlt : T -> T -> bool;
  jle : T -> T -> bool;
  (** [ToBoolean]: what [x || y] and [!x] test *)
  truthy : T -> bool;
  isNaN : T -> bool;
  isFinite : T -> bool;
  Math_abs : T -> T;
  Math_max : T -> T -> T;
  Math_min : T -> T -> T;
  Math_floor : T -> T;
  Math_sqrt : T -> option T;
  Math_log : T -> option T;
  Math_pow : T -> T -> option T;
  Math_sin : T -> option T;
  Math_acos : T -> option T;
  (** the global [Infinity], where the reading has one *)
  Infinity : option T
}.

Notation "x + y" := (jadd x y) : js_scope.
Notation "x - y" := (jsub x y) : js_scope.
Notation "x * y" := (jmul x y) : js_scope.
Notation "- x" := (jneg x) : js_scope.
Notation "x / y" := (jdiv x y) : js_scope.
Notation "x <? y" := (jlt x y) (at level 70, no associativity) : js_scope.
Notation "x <=? y" := (jle x y) (at level 70, no associativity) : js_scope.
Notation "x >? y" := (jlt y x) (at level 70, no associativity) : js_scope.
Notation "x >=? y" := (jle y x) (at level 70, no associativity) : js_scope.

(** The integer literal [n]. *)
Definition int {T} `{JSNumber T} (n : Z) : T := lit n 0.

(** ** Reading 1: IEEE 754 binary64 *)

Module F.

Definition of_Z (z : Z) : float :=
  match z with
  | Z0 => PrimFloat.zero
  | Zpos _ => PrimFloat.of_uint63 (Uint63.of_Z z)
  | Zneg p => PrimFloat.opp (PrimFloat.of_uint63 (Uint63.of_Z (Zpos p)))
  end.

(** Both [m] and the power of ten are integers below [2^53] for every
    literal of the source, so one correctly rounded division gives the
    double nearest to the decimal. *)
Definition lit (m e : Z) : float :=
  if (0 <=? e)%Z then of_Z (m * 10 ^ e)
  else PrimFloat.div (of_Z m) (of_Z (10 ^ (- e))).

Definition truthy (x : float) : bool :=
  negb (PrimFloat.is_zero x || PrimFloat.is_nan x).

(** [Math.max]: NaN if an argument is NaN; [+0] is larger than [-0]. *)
Definition max (x y : float) : float :=
  if PrimFloat.is_nan x || PrimFloat.is_nan y then PrimFloat.nan
  else if PrimFloat.ltb x y then y
  else if PrimFloat.ltb y x then x
  else if PrimFloat.get_sign x then y else x.

Definition min (x y : float) : float :=
  if PrimFloat.is_nan x || PrimFloat.is_nan y then PrimFloat.nan
  else if PrimFloat.ltb x y then x
  else if PrimFloat.ltb y x then y
  else if PrimFloat.get_sign x then x else y.

(** [Math.floor]: a double with a negative exponent [e] is [m * 2^e] with
    [m < 2^53], so its floor is an integer below [2^53]. *)
Definition floor (x : float) : float :=
  match Prim2SF x with
  | S754_finite s m e =>
      if (0 <=? e)%Z then x
      else
        let q := (Zpos m / 2 ^ (- e))%Z in
        let exact := (Zpos m mod 2 ^ (- e) =? 0)%Z in
        if s then (if exact then of_Z (- q) else of_Z (- (q + 1)))
        else of_Z q
  | _ => x
  end.

(** An odd integer, as [Number::exponentiate] asks of the exponent. *)
Definition is_odd_integer (x : float) : bool :=
  PrimFloat.leb PrimFloat.one (PrimFloat.abs x) &&
  match Prim2SF x with
  | S754_finite _ m e =>
      if (0 <? e)%Z then false
      else (Zpos m mod 2 ^ (- e) =? 0)%Z && Z.odd (Zpos m / 2 ^ (- e))
  | _ => false
  end.

Definition is_integer (x : float) : bool :=
  match Prim2SF x with
  | S754_finite _ m e =>
      if (0 <=? e)%Z then true else (Zpos m mod 2 ^ (- e) =? 0)%Z
  | S754_zero _ => true
  | _ => false
  end.

(** [Number::exponentiate(base, exponent)], ECMAScript 6.1.6.1.3: the
    clauses that fix the result; [None] where the result is an
    implementation-approximated value. *)
Definition pow (b e : float) : option float :=
  if PrimFloat.is_nan e then Some PrimFloat.nan
  else if PrimFloat.is_zero e then Some PrimFloat.one
  else if PrimFloat.is_nan b then Some PrimFloat.nan
  else if PrimFloat.is_infinity b then
    if PrimFloat.get_sign b then
      if PrimFloat.ltb PrimFloat.zero e
      then Some (if is_odd_integer e then PrimFloat.neg_infinity else PrimFloat.infinity)
      else Some (if is_odd_integer e then PrimFloat.neg_zero else PrimFloat.zero)
    else
      Some (if PrimFloat.ltb PrimFloat.zero e then PrimFloat.infinity else PrimFloat.zero)
  else if PrimFloat.is_zero b then
    if PrimFloat.get_sign b then
      if PrimFloat.ltb PrimFloat.zero e
      then Some (if is_odd_integer e then PrimFloat.neg_zero else PrimFloat.zero)
      else Some (if is_odd_integer e then PrimFloat.neg_infinity else PrimFloat.infinity)
    else
      Some (if PrimFloat.ltb PrimFloat.zero e then PrimFloat.zero else PrimFloat.infinity)
  else if PrimFloat.is_infinity e then
    if PrimFloat.eqb (PrimFloat.abs b) PrimFloat.one then Some PrimFloat.nan
    else if xorb (PrimFloat.ltb PrimFloat.one (PrimFloat.abs b)) (PrimFloat.get_sign e)
         then Some PrimFloat.infinity else Some PrimFloat.zero
  else if PrimFloat.ltb b PrimFloat.zero && negb (is_integer e) then Some PrimFloat.nan
  else None.

(** [Math.sin]: NaN, the zeros and the infinities are fixed. *)
Definition sin (x : float) : option float :=
  if PrimFloat.is_nan x then Some PrimFloat.nan
  else if PrimFloat.is_zero x then Some x
  else if PrimFloat.is_infinity x then Some PrimFloat.nan
  else None.

(** [Math.acos]: NaN outside [[-1, 1]], [+0] at [1]. *)
Definition acos (x : float) : option float :=
  if PrimFloat.is_nan x then Some PrimFloat.nan
  else if PrimFloat.ltb PrimFloat.one x then Some PrimFloat.nan
  else if PrimFloat.ltb x (PrimFloat.opp PrimFloat.one) then Some PrimFloat.nan
  else if PrimFloat.eqb x PrimFloat.one then Some PrimFloat.zero
  else None.

(** [Math.log]: NaN below zero, [-Infinity] at the zeros, [+0] at [1]. *)
Definition log (x : float) : option float :=
  if PrimFloat.is_nan x then Some PrimFloat.nan
  else if PrimFloat.ltb x PrimFloat.zero then Some PrimFloat.nan
  else if PrimFloat.is_zero x then Some PrimFloat.neg_infinity
  else if PrimFloat.eqb x PrimFloat.one then Some PrimFloat.zero
  else if PrimFloat.is_infinity x then Some PrimFloat.infinity
  else None.

End F.

#[export] Instance IEEE : JSNumber float := {|
  lit := F.lit;
  jadd := PrimFloat.add;
  jsub := PrimFloat.sub;
  jmul := PrimFloat.mul;
  jneg := PrimFloat.opp;
  jdiv := fun x y => Some (PrimFloat.div x y);
  jlt := PrimFloat.ltb;
  jle := PrimFloat.leb;
  truthy := F.truthy;
  isNaN := PrimFloat.is_nan;
  isFinite := PrimFloat.is_finite;
  Math_abs := PrimFloat.abs;
  Math_max := F.max;
  Math_min := F.min;
  Math_floor := F.floor;
  Math_sqrt := fun x => Some (PrimFloat.sqrt x);
  Math_log := F.log;
  Math_pow := F.pow;
  Math_sin := F.sin;
  Math_acos := F.acos;
  Infinity := Some PrimFloat.infinity
|}.

(** ** Reading 2: exact real arithmetic *)

Module I.

Definition lit (m e : Z) : R :=
  if (0 <=? e)%Z then IZR (m * 10 ^ e)
  else (IZR m / IZR (10 ^ (- e)))%R.

Definition div (x y : R) : option R :=
  if Req_dec_T y 0 then None else Some (x / y)%R.

Definition ltb (x y : R) : bool := if Rlt_dec x y then true else false.
Definition leb (x y : R) : bool := if Rle_dec x y then true else false.

Definition truthy (x : R) : bool := if Req_dec_T x 0 then false else true.

Definition floor (x : R) : R := IZR (Int_part x).

Definition sqrt (x : R) : option R :=
  if Rle_dec 0 x then Some (R_sqrt.sqrt x) else None.

Definition log (x : R) : option R :=
  if Rlt_dec 0 x then Some (ln x) else None.

(** [b^e]: [1] for [e = 0]; [exp (e * ln b)] for a positive base; [0] for
    base [0] and a positive exponent; an integer power for a negative base
    and an integral exponent.  The other cases are infinite or NaN. *)
Definition pow (b e : R) : option R :=
  if Req_dec_T e 0 then Some 1%R
  else if Rlt_dec 0 b then Some (Rpower b e)
  else if Req_dec_T b 0 then (if Rlt_dec 0 e then Some 0%R else None)
  else if Req_dec_T e (IZR (Int_part e)) then Some (powerRZ b (Int_part e))
  else None.

Definition acos (x : R) : option R :=
  if Rle_dec (-1) x then (if Rle_dec x 1 then Some (Ratan.acos x) else None)
  else None.

End I.

#[export] Instance Ideal : JSNumber R := {|
  lit := I.lit;
  jadd := Rplus;
  jsub := Rminus;
  jmul := Rmult;
  jneg := Ropp;
  jdiv := I.div;
  jlt := I.ltb;
  jle := I.leb;
  truthy := I.truthy;
  isNaN := fun _ => false;
  isFinite := fun _ => true;
  Math_abs := Rabs;
  Math_max := Rmax;
  Math_min := Rmin;
  Math_floor := I.floor;
  Math_sqrt := I.sqrt;
  Math_log := I.log;
  Math_pow := I.pow;
  Math_sin := fun x => Some (Rtrigo_def.sin x);
  Math_acos := I.acos;
  Infinity := None
|}.

(** ** Data model ([types.ts]) *)

Record Point (T : Type) : Type := mkPoint { px : T; py : T }.

Record Quad (T : Type) : Type := mkQuad {
  p1 : Point T;  (* Top-Left *)
  p2 : Point T;  (* Top-Right *)
  p3 : Point T;  (* Bottom-Right *)
  p4 : Point T   (* Bottom-Left *)
}.

Inductive AnimationDirection : Type := IN | OUT | STOP.

(** A 2x2 matrix [{a, b, c, d}], the result type of [getMatrixPower2x2]. *)
Record Mat2 (T : Type) : Type := mkMat2 { ma : T; mb : T; mc : T; md : T }.

Fixpoint foldM {S X : Type} (f : S -> X -> option S) (l : list X) (s : S)
  : option S :=
  match l with
  | [] => Some s
  | x :: r => bind (f s x) (foldM f r)
  end.

(** [l[i] = v] on an array that already has index [i]. *)
Fixpoint set_nth {X : Type} (l : list X) (i : nat) (v : X) : list X :=
  match l, i with
  | [], _ => []
  | _ :: t, O => v :: t
  | h :: t, S i' => h :: set_nth t i' v
  end.

Section Math.

Context {T : Type} `{JSNumber T}.
Local Open Scope js_scope.

(** [m[i]] of a [number[]]; the arrays of this module are read inside
    their bounds (9 entries for a homography, [n] for the solver). *)
Definition idx (m : list T) (i : nat) : T := nth i m (int 0).

Definition A_get (A : list (list T)) (k j : nat) : T := idx (nth k A []) j.

Definition A_set (A : list (list T)) (k j : nat) (v : T) : list (list T) :=
  set_nth A k (set_nth (nth k A []) j v).

Definition identity : list T :=
  [int 1; int 0; int 0; int 0; int 1; int 0; int 0; int 0; int 1].

(** *** [solveLinearSystem] *)

(** The search of the largest [|A[k][i]|], [k = i+1 .. n-1]. *)
Definition find_pivot (A : list (list T)) (i n : nat) : T * nat :=
  fold_left
    (fun (st : T * nat) k =>
       if Math_abs (A_get A k i) >? fst st
       then (Math_abs (A_get A k i), k) else st)
    (seq (S i) (n - S i))
    (Math_abs (A_get A i i), i).

(** The exchange of columns [i .. n-1] of rows [maxRow] and [i]. *)
Definition swap_rows (A : list (list T)) (i maxRow n : nat) : list (list T) :=
  fold_left
    (fun A k =>
       let tmp := A_get A maxRow k in
       let A := A_set A maxRow k (A_get A i k) in
       A_set A i k tmp)
    (seq i (n - i)) A.

Definition swap_B (B : list T) (i maxRow : nat) : list T :=
  let tmp := idx B maxRow in
  let B := set_nth B maxRow (idx B i) in
  set_nth B i tmp.

(** Row [k] after the elimination of column [i]. *)
Definition eliminate_row (i n : nat) (st : list (list T) * list T) (k : nat)
  : option (list (list T) * list T) :=
  let (A, B) := st in
  c <- (- A_get A k i) / A_get A i i ;;
  let A :=
    fold_left
      (fun A j =>
         if Nat.eqb i j then A_set A k j (int 0)
         else A_set A k j (A_get A k j + c * A_get A i j))
      (seq i (n - i)) A in
  ret (A, set_nth B k (idx B k + c * idx B i)).

(** The forward elimination: [None] inside [Some] is the early
    [return new Array(n).fill(0)] of a pivot below [1e-10]. *)
Fixpoint eliminate (steps : list nat) (n : nat) (A : list (list T)) (B : list T)
  : option (option (list (list T) * list T)) :=
  match steps with
  | [] => ret (Some (A, B))
  | i :: steps' =>
      let (maxEl, maxRow) := find_pivot A i n in
      if maxEl <? lit 1 (-10) then ret None
      else
        let A := swap_rows A i maxRow n in
        let B := swap_B B i maxRow in
        st <- foldM (eliminate_row i n) (seq (S i) (n - S i)) (A, B) ;;
        eliminate steps' n (fst st) (snd st)
  end.

(** The back-substitution, [i = n-1 .. 0]. *)
Definition back_substitute (n : nat) (A : list (list T)) (B : list T)
  : option (list T) :=
  foldM
    (fun X i =>
       let sum :=
         fold_left (fun sum j => sum + A_get A i j * idx X j)
                   (seq (S i) (n - S i)) (int 0) in
       xi <- (idx B i - sum) / A_get A i i ;;
       ret (set_nth X i xi))
    (rev (seq 0 n)) (repeat (int 0) n).

Definition solveLinearSystem (A : list (list T)) (B : list T) : option (list T) :=
  let n := length B in
  r <- eliminate (seq 0 n) n A B ;;
  match r with
  | None => ret (repeat (int 0) n)
  | Some (A, B) => back_substitute n A B
  end.

(** *** [computeHomography] *)

Definition systems (srcWidth srcHeight : T) (dst : Quad T) : list (list T) :=
  let x0 := px (p1 dst) in let y0 := py (p1 dst) in
  let x1 := px (p2 dst) in let y1 := py (p2 dst) in
  let x2 := px (p3 dst) in let y2 := py (p3 dst) in
  let x3 := px (p4 dst) in let y3 := py (p4 dst) in
  let w := srcWidth in
  let h := srcHeight in
  let n0 := int 0 in
  let n1 := int 1 in
  [ [n0; n0; n1; n0; n0; n0; - n0 * x0; - n0 * x0; x0];
    [n0; n0; n0; n0; n0; n1; - n0 * y0; - n0 * y0; y0];
    [w; n0; n1; n0; n0; n0; - w * x1; - n0 * x1; x1];
    [n0; n0; n0; w; n0; n1; - w * y1; - n0 * y1; y1];
    [w; h; n1; n0; n0; n0; - w * x2; - h * x2; x2];
    [n0; n0; n0; w; h; n1; - w * y2; - h * y2; y2];
    [n0; h; n1; n0; n0; n0; - n0 * x3; - h * x3; x3];
    [n0; n0; n0; n0; h; n1; - n0 * y3; - h * y3; y3] ].

(** [systems.map(r => r.slice(0, 8))] and [systems.map(r => r[8])] *)
Definition systemA (srcWidth srcHeight : T) (dst : Quad T) : list (list T) :=
  map (firstn 8) (systems srcWidth srcHeight dst).

Definition systemB (srcWidth srcHeight : T) (dst : Quad T) : list T :=
  map (fun r => idx r 8) (systems srcWidth srcHeight dst).

(** The [throw] inside the [try] is the only exception: the [catch]
    answers the identity exactly when some entry of [X] is NaN or
    infinite. *)
Definition computeHomography (srcWidth srcHeight : T) (dst : Quad T)
  : option (list T) :=
  let A := systemA srcWidth srcHeight dst in
  let B := systemB srcWidth srcHeight dst in
  X <- solveLinearSystem A B ;;
  if existsb (fun val => isNaN val || negb (isFinite val)) X
  then ret identity
  else ret (X ++ [int 1]).

(** *** [multiplyMatrix], [invertMatrix] *)

Definition multiplyMatrix (a b : list T) : list T :=
  flat_map
    (fun i =>
       map (fun j =>
              fold_left
                (fun sum k => sum + idx a (i * 3 + k) * idx b (k * 3 + j))
                [0; 1; 2]%nat (int 0))
           [0; 1; 2]%nat)
    [0; 1; 2]%nat.

Definition invertMatrix (m : list T) : option (list T) :=
  let m00 := idx m 0 in let m01 := idx m 1 in let m02 := idx m 2 in
  let m10 := idx m 3 in let m11 := idx m 4 in let m12 := idx m 5 in
  let m20 := idx m 6 in let m21 := idx m 7 in let m22 := idx m 8 in
  let b01 := m22 * m11 - m12 * m21 in
  let b11 := - m22 * m10 + m12 * m20 in
  let b21 := m21 * m10 - m11 * m20 in
  let det := m00 * b01 + m01 * b11 + m02 * b21 in
  if negb (truthy det) then ret identity
  else
    i0 <- b01 / det ;;
    i1 <- (- m22 * m01 + m02 * m21) / det ;;
    i2 <- (m12 * m01 - m02 * m11) / det ;;
    i3 <- b11 / det ;;
    i4 <- (m22 * m00 - m02 * m20) / det ;;
    i5 <- (- m12 * m00 + m02 * m10) / det ;;
    i6 <- b21 / det ;;
    i7 <- (- m21 * m00 + m01 * m20) / det ;;
    i8 <- (m11 * m00 - m01 * m10) / det ;;
    ret [i0; i1; i2; i3; i4; i5; i6; i7; i8].

(** The determinant [invertMatrix] tests. *)
Definition det3 (m : list T) : T :=
  let m00 := idx m 0 in let m01 := idx m 1 in let m02 := idx m 2 in
  let m10 := idx m 3 in let m11 := idx m 4 in let m12 := idx m 5 in
  let m20 := idx m 6 in let m21 := idx m 7 in let m22 := idx m 8 in
  let b01 := m22 * m11 - m12 * m21 in
  let b11 := - m22 * m10 + m12 * m20 in
  let b21 := m21 * m10 - m11 * m20 in
  m00 * b01 + m01 * b11 + m02 * b21.

End Math.

(** ** Fractional power of a 2x2 matrix ([getMatrixPower2x2]) *)

Section MatrixPower.

Context {T : Type} `{JSNumber T}.
Local Open Scope js_scope.

(** [Math.pow(r, t)] is a pure call whose value is used only past the
    [sinTheta] guard: it is bound there, so that a value the reading does
    not determine leaves the guarded [return I] determined. *)
Definition getMatrixPower2x2 (a b c d t : T) : option (Mat2 T) :=
  let trace := a + d in
  let det := a * d - b * c in
  (* Discriminant *)
  let delta := trace * trace - int 4 * det in
  (* Identity matrix *)
  let I := mkMat2 (int 1) (int 0) (int 0) (int 1) in
  (* Matrix M *)
  let M := mkMat2 a b c d in
  (* Tolerance for float comparison *)
  let EPS := lit 1 (-9) in
  if delta <? - EPS then
    (* Complex eigenvalues (Spiral case) *)
    r <- Math_sqrt det ;;
    q <- trace / (int 2 * r) ;;
    theta <- Math_acos (Math_max (- int 1) (Math_min (int 1) q)) ;;
    sinTheta <- Math_sin theta ;;
    if Math_abs sinTheta <? EPS then ret I
    else
      rt <- Math_pow r t ;;
      s1 <- Math_sin ((int 1 - t) * theta) ;;
      c1 <- s1 / sinTheta ;;
      s2 <- Math_sin (t * theta) ;;
      c2 <- s2 / sinTheta ;;
      let f1 := rt * c1 in
      f2 <- (rt * c2) / r ;;
      ret (mkMat2 (f1 * ma I + f2 * ma M)
                  (f1 * mb I + f2 * mb M)
                  (f1 * mc I + f2 * mc M)
                  (f1 * md I + f2 * md M))
  else
    (* Real eigenvalues (Stretch/Shear case) *)
    sqrtDelta <- Math_sqrt delta ;;
    l1 <- (trace - sqrtDelta) / int 2 ;;
    l2 <- (trace + sqrtDelta) / int 2 ;;
    if Math_abs (l1 - l2) <? EPS then
      (* eigenvalues are equal (shear only) *)
      lt <- Math_pow l1 t ;;
      invL1 <- int 1 / l1 ;;
      let Ka := ma M * invL1 - int 1 in
      let Kb := mb M * invL1 in
      let Kc := mc M * invL1 in
      let Kd := md M * invL1 - int 1 in
      ret (mkMat2 (lt * (int 1 + t * Ka))
                  (lt * (int 0 + t * Kb))
                  (lt * (int 0 + t * Kc))
                  (lt * (int 1 + t * Kd)))
    else
      (* Distinct real eigenvalues *)
      l1t <- Math_pow l1 t ;;
      l2t <- Math_pow l2 t ;;
      invDiff <- int 1 / (l2 - l1) ;;
      let c1 := (l1t * l2 - l2t * l1) * invDiff in
      let c2 := (l2t - l1t) * invDiff in
      ret (mkMat2 (c1 + c2 * ma M)
                  (int 0 + c2 * mb M)
                  (int 0 + c2 * mc M)
                  (c1 + c2 * md M)).

(** The product of two 2x2 matrices, by which the composition law of the
    power is stated (the source has no such function). *)
Definition mul2 (m n : Mat2 T) : Mat2 T :=
  mkMat2 (ma m * ma n + mb m * mc n) (ma m * mb n + mb m * md n)
         (mc m * ma n + md m * mc n) (mc m * mb n + md m * md n).

End MatrixPower.

(** ** The numeric core of [DrosteCanvas.tsx] *)

Section Canvas.

Context {T : Type} `{JSNumber T}.
Local Open Scope js_scope.

Definition START_LAYER : Z := (-2)%Z.
Definition SAFE_COORDINATE_LIMIT : T := int 50000.

(** Helper to calculate polygon area *)
Definition getQuadArea (p1 p2 p3 p4 : Point T) : T :=
  lit 5 (-1) * Math_abs
    (px p1 * py p2 + px p2 * py p3 + px p3 * py p4 + py p4 * px p1 -
     (py p1 * px p2 + py p2 * px p3 + py p3 * px p4 + py p4 * px p1)).

(** Robust point transformation with clamping; the inner [None] is
    [null]. *)
Definition transformPointSafe (h : list T) (x y : T) : option (option (Point T)) :=
  let px_ := idx h 0 * x + idx h 1 * y + idx h 2 in
  let py_ := idx h 3 * x + idx h 4 * y + idx h 5 in
  let w := idx h 6 * x + idx h 7 * y + idx h 8 in
  if w <? lit 1 (-4) then ret None
  else
    rx <- px_ / w ;;
    ry <- py_ / w ;;
    ret (Some (mkPoint
                 (Math_max (- SAFE_COORDINATE_LIMIT) (Math_min SAFE_COORDINATE_LIMIT rx))
                 (Math_max (- SAFE_COORDINATE_LIMIT) (Math_min SAFE_COORDINATE_LIMIT ry)))).

(** *** [renderCanvas]: inner quad, loop scale, phase *)

(** Current Inner Quad in Image Space *)
Definition qPoints (iw ih : T) (quad : Quad T) : Quad T :=
  mkQuad (mkPoint (px (p1 quad) * iw) (py (p1 quad) * ih))
         (mkPoint (px (p2 quad) * iw) (py (p2 quad) * ih))
         (mkPoint (px (p3 quad) * iw) (py (p3 quad) * ih))
         (mkPoint (px (p4 quad) * iw) (py (p4 quad) * ih)).

(** [Math.sqrt(areaFull / Math.max(1, areaQuad))] *)
Definition scaleOf (areaFull areaQuad : T) : option T :=
  q <- areaFull / Math_max (int 1) areaQuad ;;
  Math_sqrt q.

(** The [areaQuad] of [renderCanvas]. *)
Definition areaQuadOf (iw ih : T) (quad : Quad T) : T :=
  let q := qPoints iw ih quad in
  getQuadArea (p1 q) (p2 q) (p3 q) (p4 q).

(** Calculate Loop Scale: the value stored in [loopScaleRef.current]. *)
Definition loopScale (iw ih : T) (quad : Quad T) : option T :=
  let areaFull := iw * ih in
  let areaQuad := areaQuadOf iw ih quad in
  scaleOf areaFull areaQuad.

(** The phase of a frame: the override of an export, or the one of the
    live zoom level. *)
Definition phase (scale zoomLevel : T) (phaseOverride : option T) : option T :=
  p <- match phaseOverride with
       | Some p => ret p
       | None =>
           logS <- Math_log scale ;;
           if logS >? lit 1 (-4) then
             lz <- Math_log (Math_max (int 1) zoomLevel) ;;
             lz / logS
           else ret (int 0)
       end ;;
  ret (p - Math_floor p).

Definition lerp (a b : Point T) (t : T) : Point T :=
  mkPoint (px a + (px b - px a) * t) (py a + (py b - py a) * t).

Definition screenRect (iw ih : T) : Quad T :=
  mkQuad (mkPoint (int 0) (int 0)) (mkPoint iw (int 0))
         (mkPoint iw ih) (mkPoint (int 0) ih).

Definition viewport (iw ih : T) (q : Quad T) (p : T) : Quad T :=
  let s := screenRect iw ih in
  mkQuad (lerp (p1 s) (p1 q) p) (lerp (p2 s) (p2 q) p)
         (lerp (p3 s) (p3 q) p) (lerp (p4 s) (p4 q) p).

(** Culling Rect in Local Coords (for grid cells, not whole layers) *)
Record Rect : Type := mkRect { rx : T; ry : T; rw : T; rh : T }.

Definition cullRectOf (width height iw ih : T) : option Rect :=
  sx <- width / iw ;;
  sy <- height / ih ;;
  let scaleToFit := Math_min sx sy * lit 9 (-1) in
  offsetX <- (width - iw * scaleToFit) / int 2 ;;
  offsetY <- (height - ih * scaleToFit) / int 2 ;;
  x <- (- offsetX) / scaleToFit ;;
  y <- (- offsetY) / scaleToFit ;;
  w <- width / scaleToFit ;;
  h <- height / scaleToFit ;;
  ret (mkRect x y w h).

(** The matrices fixed for a frame: [K], [H] and the chain [currentH]
    before the first layer. *)
Definition frameMatrices (iw ih : T) (quad : Quad T) (p : T)
  : option (list T * list T * list T) :=
  let q := qPoints iw ih quad in
  let vp := viewport iw ih q p in
  M <- computeHomography iw ih vp ;;
  K <- invertMatrix M ;;
  Hm <- computeHomography iw ih q ;;
  HInv <- invertMatrix Hm ;;
  let currentH :=
    fold_left (fun cur _ => multiplyMatrix cur HInv)
              (seq 0 (Z.abs_nat START_LAYER)) identity in
  ret (K, Hm, currentH).

(** *** [renderCanvas]: one layer (bounds and grid size) *)

Definition boundsOf (corners : list (option (Point T)))
  : option (T * T * T * T * nat) :=
  inf <- Infinity ;;
  ret (fold_left
         (fun st pt =>
            match pt with
            | None => st
            | Some pt =>
                let '(minX, maxX, minY, maxY, validPoints) := st in
                let minX := if px pt <? minX then px pt else minX in
                let maxX := if px pt >? maxX then px pt else maxX in
                let minY := if py pt <? minY then py pt else minY in
                let maxY := if py pt >? maxY then py pt else maxY in
                (minX, maxX, minY, maxY, S validPoints)
            end)
         corners (inf, - inf, inf, - inf, O)).

(** [None] inside [Some] is the [break] of a sub-pixel layer; otherwise
    the grid size of the layer. *)
Definition layerGrid (layerMatrix : list T) (iw ih : T) (isExportMode : bool)
  : option (option T) :=
  c0 <- transformPointSafe layerMatrix (int 0) (int 0) ;;
  c1 <- transformPointSafe layerMatrix iw (int 0) ;;
  c2 <- transformPointSafe layerMatrix iw ih ;;
  c3 <- transformPointSafe layerMatrix (int 0) ih ;;
  b <- boundsOf [c0; c1; c2; c3] ;;
  let '(minX, maxX, minY, maxY, validPoints) := b in
  let projectedWidth := maxX - minX in
  let projectedHeight := maxY - minY in
  let baseGridSize := if isExportMode then int 20 else int 10 in
  if Nat.ltb 0 validPoints &&
     ((projectedWidth <? lit 5 (-1)) || (projectedHeight <? lit 5 (-1)))
  then ret None
  else if Nat.ltb validPoints 4 then
    ret (Some (if isExportMode then int 16 else int 10))
  else
    let metric := Math_max projectedWidth projectedHeight in
    q <- metric / int 150 ;;
    let calculated := Math_floor q in
    ret (Some (Math_max (int 2) (Math_min baseGridSize calculated))).

(** *** [renderCanvas]: one grid cell *)

(** [p1?.x || 0 + p2?.x || 0 + p3?.x || 0]: [+] binds tighter than [||],
    so this is [p1?.x || (0 + p2?.x) || (0 + p3?.x) || 0], the first
    truthy operand; [0 + undefined] is NaN, which is falsy. *)
Definition orElse (v : option T) (k : T) : T :=
  match v with
  | Some v => if truthy v then v else k
  | None => k
  end.

Definition firstTruthy (f : Point T -> T) (p1 p2 p3 : option (Point T)) : T :=
  orElse (option_map f p1)
    (orElse (option_map (fun p => int 0 + f p) p2)
       (orElse (option_map (fun p => int 0 + f p) p3) (int 0))).

Definition isSome {X : Type} (o : option X) : bool :=
  match o with Some _ => true | None => false end.

(** What the body of the grid loop does with cell [(x, y)]: [continue], or
    reach the two guarded [drawPaddedTriangle] calls. *)
Inductive CellAction : Type :=
| Skipped
| Reached (first second : bool).

Definition renderCell (layerMatrix : list T) (cullRect : Rect)
           (gridSize iw ih x y : T) : option CellAction :=
  nx1 <- x / gridSize ;;
  ny1 <- y / gridSize ;;
  nx2 <- (x + int 1) / gridSize ;;
  ny2 <- (y + int 1) / gridSize ;;
  p1 <- transformPointSafe layerMatrix (nx1 * iw) (ny1 * ih) ;;
  p2 <- transformPointSafe layerMatrix (nx2 * iw) (ny1 * ih) ;;
  p3 <- transformPointSafe layerMatrix (nx1 * iw) (ny2 * ih) ;;
  p4 <- transformPointSafe layerMatrix (nx2 * iw) (ny2 * ih) ;;
  (* Simple Center Cull *)
  cx <- firstTruthy (@px T) p1 p2 p3 / int 3 ;;
  cy <- firstTruthy (@py T) p1 p2 p3 / int 3 ;;
  if (cx <? rx cullRect - int 5000) ||
     (cx >? rx cullRect + rw cullRect + int 5000) ||
     (cy <? ry cullRect - int 5000) ||
     (cy >? ry cullRect + rh cullRect + int 5000)
  then ret Skipped
  else ret (Reached (isSome p1 && isSome p2 && isSome p3)
                    (isSome p2 && isSome p4 && isSome p3)).

(** The four projected corners of cell [(x, y)], as [renderCell] computes
    them. *)
Definition cellCorners (layerMatrix : list T) (gridSize iw ih x y : T)
  : option (list (option (Point T))) :=
  nx1 <- x / gridSize ;;
  ny1 <- y / gridSize ;;
  nx2 <- (x + int 1) / gridSize ;;
  ny2 <- (y + int 1) / gridSize ;;
  p1 <- transformPointSafe layerMatrix (nx1 * iw) (ny1 * ih) ;;
  p2 <- transformPointSafe layerMatrix (nx2 * iw) (ny1 * ih) ;;
  p3 <- transformPointSafe layerMatrix (nx1 * iw) (ny2 * ih) ;;
  p4 <- transformPointSafe layerMatrix (nx2 * iw) (ny2 * ih) ;;
  ret [p1; p2; p3; p4].

(** *** [generateGif]: duration, frame count, delay and phases *)

Definition targetFPS : T := int 30.

Definition exportDuration (scale zoomSpeed : T) (constantSpeed : bool) : option T :=
  let speed := if truthy zoomSpeed then zoomSpeed else int 1 in
  duration <-
    (if constantSpeed then int 2 / speed
     else (l <- Math_log (Math_max (lit 11 (-1)) scale) ;; l / speed)) ;;
  ret (Math_max (lit 2 (-1)) (Math_min duration (int 10))).

Definition totalFrames (duration : T) : T :=
  Math_max (int 10) (Math_floor (duration * targetFPS)).

Definition delay : option T :=
  q <- int 1000 / targetFPS ;;
  ret (Math_floor q).

(** The phase handed to [renderCanvas] for frame [i]. *)
Definition framePhase (scale : T) (constantSpeed : bool)
           (desiredDirection : AnimationDirection) (total i : T) : option T :=
  t <- i / total ;;
  p <- (if constantSpeed then
          let Z := int 1 + (scale - int 1) * t in
          lZ <- Math_log Z ;;
          lS <- Math_log scale ;;
          lZ / lS
        else ret t) ;;
  match desiredDirection with
  | OUT => ret (int 1 - p)
  | _ => ret p
  end.

(** *** The animation loop: one update of [zoomLevelRef.current] *)

(** The update-and-wrap step, entered when the direction is not [STOP]. *)
Definition zoomStep (constantSpeed : bool) (direction : AnimationDirection)
           (speed dt limit zoomLevel : T) : option T :=
  if constantSpeed then
    let step := speed * dt * lit 5 (-1) in
    match direction with
    | IN =>
        let z := zoomLevel + step * (limit - int 1) in
        if z >=? limit then ret (int 1 + (z - limit)) else ret z
    | _ =>
        let z := zoomLevel - step * (limit - int 1) in
        if z <? int 1 then ret (limit - (int 1 - z)) else ret z
    end
  else
    let step := int 1 + speed * dt in
    match direction with
    | IN =>
        let z := zoomLevel * step in
        if z >=? limit then z / limit else ret z
    | _ =>
        z <- zoomLevel / step ;;
        if z <? int 1 then ret (z * limit) else ret z
    end.

(** One tick of [loop]: [dt] from the two time stamps, then the step when
    the animation runs. *)
Definition loopTick (constantSpeed : bool) (direction : AnimationDirection)
           (isExporting hasImage : bool)
           (speed time lastTime limit zoomLevel : T) : option T :=
  let lastTime := if truthy lastTime then lastTime else time in
  dt <- (time - lastTime) / int 1000 ;;
  match direction with
  | STOP => ret zoomLevel
  | _ =>
      if negb isExporting && hasImage
      then zoomStep constantSpeed direction speed dt limit zoomLevel
      else ret zoomLevel
  end.

End Canvas.

(** ** Notions used to state the properties *)

(** A tick advances the zoom by at most one loop: half of [speed * dt] is
    at most [1] in the constant-speed mode, the factor [1 + speed * dt] is
    at most the loop scale otherwise. *)
Definition smallStep (constantSpeed : bool) (speed dt limit : R) : Prop :=
  if constantSpeed then (speed * dt * (5 / 10) <= 1)%R
  else (1 + speed * dt <= limit)%R.

(** The square of side [s] at the origin, in normalized coordinates. *)
Definition squareAtOrigin {T : Type} `{JSNumber T} (s : T) : Quad T :=
  mkQuad (mkPoint (int 0) (int 0)) (mkPoint s (int 0))
         (mkPoint s s) (mkPoint (int 0) s).

(** The quad whose four corners are the point [(x, y)]. *)
Definition collapsedQuad {T : Type} (x y : T) : Quad T :=
  mkQuad (mkPoint x y) (mkPoint x y) (mkPoint x y) (mkPoint x y).

(** The rectangle [[0, w] x [0, h]] as a destination quad. *)
Definition rectQuad {T : Type} `{JSNumber T} (w h : T) : Quad T :=
  mkQuad (mkPoint (int 0) (int 0)) (mkPoint w (int 0))
         (mkPoint w h) (mkPoint (int 0) h).

(** The axis-aligned square with corners [(lo, lo)] and [(hi, hi)], in
    normalized coordinates. *)
Definition centeredSquare {T : Type} (lo hi : T) : Quad T :=
  mkQuad (mkPoint lo lo) (mkPoint hi lo) (mkPoint hi hi) (mkPoint lo hi).

(** The centered square of half the image, the quad of the export
    scenario. *)
Definition centeredHalf : Quad float := centeredSquare 0.25%float 0.75%float.

(** The centered square of a tenth of the image. *)
Definition centeredTenth : Quad float := centeredSquare 0.45%float 0.55%float.

(** The matrix of the first layer ([j = START_LAYER]) of a frame:
    [multiplyMatrix(K, currentH)] before any [break]. *)
Definition firstLayerMatrix {T : Type} `{JSNumber T} (iw ih : T) (quad : Quad T) (p : T)
  : option (list T) :=
  bind (frameMatrices iw ih quad p)
       (fun m => let '(K, _, currentH) := m in ret (multiplyMatrix K currentH)).

(** The culling rule in the words of the specification: a cell is skipped
    when the centroid of its projected corner points lies more than 5000
    units outside the viewport rectangle. *)
Definition centroidOf {T : Type} `{JSNumber T} (pts : list (Point T)) : option (Point T) :=
  let n := int (Z.of_nat (length pts)) in
  bind (jdiv (fold_left (fun s p => jadd s (px p)) pts (int 0)) n) (fun cx =>
  bind (jdiv (fold_left (fun s p => jadd s (py p)) pts (int 0)) n) (fun cy =>
  ret (mkPoint cx cy))).

Definition spec_farOutside {T : Type} `{JSNumber T} (c : Point T) (r : Rect) : bool :=
  jlt (px c) (jsub (rx r) (int 5000)) ||
  jlt (jadd (jadd (rx r) (rw r)) (int 5000)) (px c) ||
  jlt (py c) (jsub (ry r) (int 5000)) ||
  jlt (jadd (jadd (ry r) (rh r)) (int 5000)) (py c).

Definition spec_cellCulled {T : Type} `{JSNumber T} (pts : list (Point T)) (r : Rect)
  : option bool :=
  bind (centroidOf pts) (fun c => ret (spec_farOutside c r)).

(** The area of a quad in the words of the specification: the shoelace
    formula over the four corners, in their order. *)
Definition spec_quadArea {T : Type} `{JSNumber T} (q : Quad T) : T :=
  jmul (lit 5 (-1))
       (Math_abs
          (jsub (jadd (jadd (jadd (jmul (px (p1 q)) (py (p2 q)))
                                  (jmul (px (p2 q)) (py (p3 q))))
                            (jmul (px (p3 q)) (py (p4 q))))
                      (jmul (px (p4 q)) (py (p1 q))))
                (jadd (jadd (jadd (jmul (py (p1 q)) (px (p2 q)))
                                  (jmul (py (p2 q)) (px (p3 q))))
                            (jmul (py (p3 q)) (px (p4 q))))
                      (jmul (py (p4 q)) (px (p1 q)))))).

(** *** Notions for [getMatrixPower2x2] in exact arithmetic *)

(** The tolerance [EPS = 1e-9] of the source. *)
Definition EPS : R := (1 / 1000000000)%R.

(** The discriminant [delta = trace * trace - 4 * det]. *)
Definition deltaOf (a b c d : R) : R :=
  ((a + d) * (a + d) - 4 * (a * d - b * c))%R.

(** The angle [theta] of the spiral branch. *)
Definition thetaOf (a b c d : R) : R :=
  acos (Rmax (- 1) (Rmin 1 ((a + d) / (2 * sqrt (a * d - b * c))))).

(** The eigenvalues [l1 <= l2] of the real branches. *)
Definition eigen1 (a b c d : R) : R := ((a + d - sqrt (deltaOf a b c d)) / 2)%R.
Definition eigen2 (a b c d : R) : R := ((a + d + sqrt (deltaOf a b c d)) / 2)%R.

(** Where the two end points of the power are the identity and the matrix:
    the spiral branch past its guard on [sin theta], the repeated branch
    with a nonzero eigenvalue, the distinct branch. *)
Definition endpointRegime (a b c d : R) : Prop :=
  (deltaOf a b c d < - EPS /\ EPS <= Rabs (sin (thetaOf a b c d)))%R
  \/ (0 <= deltaOf a b c d /\ sqrt (deltaOf a b c d) < EPS
      /\ eigen1 a b c d <> 0)%R
  \/ (0 <= deltaOf a b c d /\ EPS <= sqrt (deltaOf a b c d))%R.

(** The matrix [x I + y M] for [M = (a, b, c, d)]. *)
Definition aff (a b c d x y : R) : Mat2 R :=
  mkMat2 (x + y * a)%R (y * b)%R (y * c)%R (x + y * d)%R.

(** The composition law at [s] and [t]: the three powers are determined and
    the product of the first two is the third. *)
Definition powerLaw (a b c d s t : R) : Prop :=
  exists Ps Pt Pst,
    getMatrixPower2x2 a b c d s = Some Ps
    /\ getMatrixPower2x2 a b c d t = Some Pt
    /\ getMatrixPower2x2 a b c d (s + t)%R = Some Pst
    /\ mul2 Ps Pt = Pst.

(** Where the composition law holds: complex eigenvalues, or positive real
    eigenvalues that are equal or that the code tells apart. *)
Definition lawRegime (a b c d : R) : Prop :=
  (deltaOf a b c d < - EPS)%R
  \/ ((0 < eigen1 a b c d)%R
      /\ (deltaOf a b c d = 0%R
          \/ (0 <= deltaOf a b c d /\ EPS <= sqrt (deltaOf a b c d))%R)).

(** A rotation by a small angle, scaled: [s (1 - u^2)] on the diagonal and
    [2 s u] off it, for [s = 10^5] and [u = 10^-10].  Its discriminant is
    [-16 (s u)^2 = -1.6e-9], below [-EPS], and its [sin theta] is
    [2 u / (1 + u^2)], about [2e-10], below [EPS]. *)
Definition guardA : R := (100000 * (1 - 1 / 100000000000000000000))%R.
Definition guardC : R := (2 / 100000)%R.

(** *** Notions for binary64 values *)

Definition SFnonfinite (f : spec_float) : bool :=
  match f with
  | S754_nan | S754_infinity _ => true
  | _ => false
  end.

(** [x] is NaN or an infinity. *)
Definition nonfinite (x : float) : Prop := SFnonfinite (Prim2SF x) = true.

(** The matrix whose four entries are NaN. *)
Definition nanMatrix : Mat2 float :=
  mkMat2 PrimFloat.nan PrimFloat.nan PrimFloat.nan PrimFloat.nan.

(** *** The rectangle system during the elimination *)

(** [rectA i] and [rectB i] are the coefficient matrix and the right-hand
    side of the system of [computeHomography w h (rectQuad w h)] before
    step [i] of the forward elimination, in exact arithmetic. *)
Definition rectA0 (w h : R) : list (list R) :=
  [ [0; 0; 1; 0; 0; 0; 0; 0];
    [0; 0; 0; 0; 0; 1; 0; 0];
    [w; 0; 1; 0; 0; 0; (- (w * w)); 0];
    [0; 0; 0; w; 0; 1; 0; 0];
    [w; h; 1; 0; 0; 0; (- (w * w)); (- (w * h))];
    [0; 0; 0; w; h; 1; (- (w * h)); (- (h * h))];
    [0; h; 1; 0; 0; 0; 0; 0];
    [0; 0; 0; 0; h; 1; 0; (- (h * h))] ]%R.

Definition rectB0 (w h : R) : list R :=
  [0; 0; w; 0; w; h; 0; h]%R.

Definition rectA1 (w h : R) : list (list R) :=
  [ [w; 0; 1; 0; 0; 0; (- (w * w)); 0];
    [0; 0; 0; 0; 0; 1; 0; 0];
    [0; 0; 1; 0; 0; 0; 0; 0];
    [0; 0; 0; w; 0; 1; 0; 0];
    [0; h; 0; 0; 0; 0; 0; (- (w * h))];
    [0; 0; 0; w; h; 1; (- (w * h)); (- (h * h))];
    [0; h; 1; 0; 0; 0; 0; 0];
    [0; 0; 0; 0; h; 1; 0; (- (h * h))] ]%R.

Definition rectB1 (w h : R) : list R :=
  [w; 0; 0; 0; 0; h; 0; h]%R.

Definition rectA2 (w h : R) : list (list R) :=
  [ [w; 0; 1; 0; 0; 0; (- (w * w)); 0];
    [0; h; 0; 0; 0; 0; 0; (- (w * h))];
    [0; 0; 1; 0; 0; 0; 0; 0];
    [0; 0; 0; w; 0; 1; 0; 0];
    [0; 0; 0; 0; 0; 1; 0; 0];
    [0; 0; 0; w; h; 1; (- (w * h)); (- (h * h))];
    [0; 0; 1; 0; 0; 0; 0; (w * h)];
    [0; 0; 0; 0; h; 1; 0; (- (h * h))] ]%R.

Definition rectB2 (w h : R) : list R :=
  [w; 0; 0; 0; 0; h; 0; h]%R.

Definition rectA3 (w h : R) : list (list R) :=
  [ [w; 0; 1; 0; 0; 0; (- (w * w)); 0];
    [0; h; 0; 0; 0; 0; 0; (- (w * h))];
    [0; 0; 1; 0; 0; 0; 0; 0];
    [0; 0; 0; w; 0; 1; 0; 0];
    [0; 0; 0; 0; 0; 1; 0; 0];
    [0; 0; 0; w; h; 1; (- (w * h)); (- (h * h))];
    [0; 0; 0; 0; 0; 0; 0; (w * h)];
    [0; 0; 0; 0; h; 1; 0; (- (h * h))] ]%R.

Definition rectB3 (w h : R) : list R :=
  [w; 0; 0; 0; 0; h; 0; h]%R.

Definition rectA4 (w h : R) : list (list R) :=
  [ [w; 0; 1; 0; 0; 0; (- (w * w)); 0];
    [0; h; 0; 0; 0; 0; 0; (- (w * h))];
    [0; 0; 1; 0; 0; 0; 0; 0];
    [0; 0; 0; w; 0; 1; 0; 0];
    [0; 0; 0; 0; 0; 1; 0; 0];
    [0; 0; 0; 0; h; 0; (- (w * h)); (- (h * h))];
    [0; 0; 0; 0; 0; 0; 0; (w * h)];
    [0; 0; 0; 0; h; 1; 0; (- (h * h))] ]%R.

Definition rectB4 (w h : R) : list R :=
  [w; 0; 0; 0; 0; h; 0; h]%R.

Definition rectA5 (w h : R) : list (list R) :=
  [ [w; 0; 1; 0; 0; 0; (- (w * w)); 0];
    [0; h; 0; 0; 0; 0; 0; (- (w * h))];
    [0; 0; 1; 0; 0; 0; 0; 0];
    [0; 0; 0; w; 0; 1; 0; 0];
    [0; 0; 0; 0; h; 0; (- (w * h)); (- (h * h))];
    [0; 0; 0; 0; 0; 1; 0; 0];
    [0; 0; 0; 0; 0; 0; 0; (w * h)];
    [0; 0; 0; 0; 0; 1; (w * h); 0] ]%R.

Definition rectB5 (w h : R) : list R :=
  [w; 0; 0; 0; h; 0; 0; 0]%R.

Definition rectA6 (w h : R) : list (list R) :=
  [ [w; 0; 1; 0; 0; 0; (- (w * w)); 0];
    [0; h; 0; 0; 0; 0; 0; (- (w * h))];
    [0; 0; 1; 0; 0; 0; 0; 0];
    [0; 0; 0; w; 0; 1; 0; 0];
    [0; 0; 0; 0; h; 0; (- (w * h)); (- (h * h))];
    [0; 0; 0; 0; 0; 1; 0; 0];
    [0; 0; 0; 0; 0; 0; 0; (w * h)];
    [0; 0; 0; 0; 0; 0; (w * h); 0] ]%R.

Definition rectB6 (w h : R) : list R :=
  [w; 0; 0; 0; h; 0; 0; 0]%R.

Definition rectA7 (w h : R) : list (list R) :=
  [ [w; 0; 1; 0; 0; 0; (- (w * w)); 0];
    [0; h; 0; 0; 0; 0; 0; (- (w * h))];
    [0; 0; 1; 0; 0; 0; 0; 0];
    [0; 0; 0; w; 0; 1; 0; 0];
    [0; 0; 0; 0; h; 0; (- (w * h)); (- (h * h))];
    [0; 0; 0; 0; 0; 1; 0; 0];
    [0; 0; 0; 0; 0; 0; (w * h); 0];
    [0; 0; 0; 0; 0; 0; 0; (w * h)] ]%R.

Definition rectB7 (w h : R) : list R :=
  [w; 0; 0; 0; h; 0; 0; 0]%R.

Definition rectA8 (w h : R) : list (list R) :=
  [ [w; 0; 1; 0; 0; 0; (- (w * w)); 0];
    [0; h; 0; 0; 0; 0; 0; (- (w * h))];
    [0; 0; 1; 0; 0; 0; 0; 0];
    [0; 0; 0; w; 0; 1; 0; 0];
    [0; 0; 0; 0; h; 0; (- (w * h)); (- (h * h))];
    [0; 0; 0; 0; 0; 1; 0; 0];
    [0; 0; 0; 0; 0; 0; (w * h); 0];
    [0; 0; 0; 0; 0; 0; 0; (w * h)] ]%R.

Definition rectB8 (w h : R) : list R :=
  [w; 0; 0; 0; h; 0; 0; 0]%R.

(** *** Notions for the elimination in exact arithmetic *)

(** [sum_{j = s}^{s + len - 1} f j] *)
Fixpoint sumFrom (s len : nat) (f : nat -> R) : R :=
  match len with
  | O => 0%R
  | S len' => (f s + sumFrom (S s) len' f)%R
  end.

(** [A] is an [n] by [n] array. *)
Definition squareOf (n : nat) (A : list (list R)) : Prop :=
  length A = n /\ forall k, (k < n)%nat -> length (nth k A []) = n.

(** [X] solves the system [A X = B] of [n] equations. *)
Definition solves (n : nat) (A : list (list R)) (B X : list R) : Prop :=
  forall k, (k < n)%nat ->
            sumFrom 0 n (fun j => A_get A k j * idx X j)%R = idx B k.

(** The state of the forward elimination before step [i]: the first [i]
    columns are zero below the diagonal and the first [i] pivots are
    nonzero. *)
Definition eliminated (n i : nat) (A : list (list R)) : Prop :=
  squareOf n A
  /\ (forall k j, (j < i)%nat -> (j < k)%nat -> (k < n)%nat -> A_get A k j = 0%R)
  /\ (forall j, (j < i)%nat -> (j < n)%nat -> A_get A j j <> 0%R).

(** The homography [m] sends the point [(u, v)] to [p], as an equation
    between homogeneous coordinates. *)
Definition projects (m : list R) (u v : R) (p : Point R) : Prop :=
  (idx m 0 * u + idx m 1 * v + idx m 2
   = px p * (idx m 6 * u + idx m 7 * v + idx m 8)
   /\ idx m 3 * u + idx m 4 * v + idx m 5
      = py p * (idx m 6 * u + idx m 7 * v + idx m 8))%R.

(** One column of the exchange of rows [i] and [r] in [solveLinearSystem]. *)
Definition swap_col (i r : nat) (A : list (list R)) (k : nat) : list (list R) :=
  let tmp := A_get A r k in
  let A := A_set A r k (A_get A i k) in
  A_set A i k tmp.

(** The multiplier [c] of row [k] at step [i]. *)
Definition coef (A : list (list R)) (i k : nat) : R :=
  (- A_get A k i / A_get A i i)%R.

(** One column of the update of row [k] at step [i]. *)
Definition elim_col (i k : nat) (c : R) (A : list (list R)) (j : nat)
  : list (list R) :=
  if Nat.eqb i j then A_set A k j (int 0)
  else A_set A k j (jadd (A_get A k j) (jmul c (A_get A i j))).

(** ** Rational arithmetic: the exact reading where it can be run

    On rational numbers the operations of the exact reading that the solver
    of the homography uses are computable.  This third instance is the
    exact reading restricted to them, with every result in lowest terms; it
    serves to evaluate the solver at a given quad ([vm_compute]), and the
    results are carried over to the real numbers by [Q2R].  Square roots,
    logarithms and the like are left undetermined. *)

Module Qn.

Import QArith_base.

Definition lit (m e : Z) : Q :=
  if (0 <=? e)%Z then inject_Z (m * 10 ^ e)
  else Qreduction.Qred (Qdiv (inject_Z m) (inject_Z (10 ^ (- e)))).

Definition add (x y : Q) : Q := Qreduction.Qred (Qplus x y).
Definition sub (x y : Q) : Q := Qreduction.Qred (Qminus x y).
Definition mul (x y : Q) : Q := Qreduction.Qred (Qmult x y).
Definition neg (x : Q) : Q := Qopp x.

Definition div (x y : Q) : option Q :=
  if Qeq_bool y (inject_Z 0) then None else Some (Qreduction.Qred (Qdiv x y)).

Definition ltb (x y : Q) : bool :=
  match Qcompare x y with Lt => true | _ => false end.

Definition leb (x y : Q) : bool :=
  match Qcompare x y with Gt => false | _ => true end.

Definition truthy (x : Q) : bool := negb (Qeq_bool x (inject_Z 0)).

Definition max (x y : Q) : Q := if ltb x y then y else x.
Definition min (x y : Q) : Q := if ltb y x then y else x.

End Qn.

#[export] Instance Rational : JSNumber QArith_base.Q := {|
  lit := Qn.lit;
  jadd := Qn.add;
  jsub := Qn.sub;
  jmul := Qn.mul;
  jneg := Qn.neg;
  jdiv := Qn.div;
  jlt := Qn.ltb;
  jle := Qn.leb;
  truthy := Qn.truthy;
  isNaN := fun _ => false;
  isFinite := fun _ => true;
  Math_abs := Qabs.Qabs;
  Math_max := Qn.max;
  Math_min := Qn.min;
  Math_floor := fun x => QArith_base.inject_Z (Qround.Qfloor x);
  Math_sqrt := fun _ => None;
  Math_log := fun _ => None;
  Math_pow := fun _ _ => None;
  Math_sin := fun _ => None;
  Math_acos := fun _ => None;
  Infinity := None
|}.

(** A point and a quad of rational numbers, as real ones. *)
Definition realPoint (p : Point QArith_base.Q) : Point R :=
  mkPoint (Q2R (px p)) (Q2R (py p)).

Definition realQuad (q : Quad QArith_base.Q) : Quad R :=
  mkQuad (realPoint (p1 q)) (realPoint (p2 q))
         (realPoint (p3 q)) (realPoint (p4 q)).

(** A trapezoid inside the image, in normalized coordinates, and its
    corners on the 4x2 image as rational numbers. *)
Definition trapezoid : Quad R :=
  mkQuad (mkPoint (1 / 4) (1 / 4))%R (mkPoint (3 / 4) (1 / 4))%R
         (mkPoint (5 / 8) (3 / 4))%R (mkPoint (3 / 8) (3 / 4))%R.

Definition trapezoidPixels : Quad QArith_base.Q :=
  mkQuad (mkPoint (QArith_base.Qmake 1 1) (QArith_base.Qmake 1 2))
         (mkPoint (QArith_base.Qmake 3 1) (QArith_base.Qmake 1 2))
         (mkPoint (QArith_base.Qmake 5 2) (QArith_base.Qmake 3 2))
         (mkPoint (QArith_base.Qmake 3 2) (QArith_base.Qmake 3 2)).

(** The quad with three corners on a line: [(0,0)], [(1,0)], [(2,0)] and
    [(0,1)]. *)
Definition flatQuad : Quad QArith_base.Q :=
  mkQuad (mkPoint (QArith_base.Qmake 0 1) (QArith_base.Qmake 0 1))
         (mkPoint (QArith_base.Qmake 1 1) (QArith_base.Qmake 0 1))
         (mkPoint (QArith_base.Qmake 2 1) (QArith_base.Qmake 0 1))
         (mkPoint (QArith_base.Qmake 0 1) (QArith_base.Qmake 1 1)).

(** ** Points under a homography, affine triangles ([utils/math.ts]) *)

(** The calls a function makes on its [CanvasRenderingContext2D], in
    order. *)
Inductive CanvasCall (T : Type) : Type :=
| Save
| BeginPath
| MoveTo (x y : T)
| LineTo (x y : T)
| ClosePath
| Clip
| Transform (a b c d e f : T)
| DrawImage (dx dy : T)
| Restore.

Arguments Save {T}.
Arguments BeginPath {T}.
Arguments ClosePath {T}.
Arguments Clip {T}.
Arguments Restore {T}.

Section Projective.

Context {T : Type} `{JSNumber T}.
Local Open Scope js_scope.

Definition transformPoint (h : list T) (x y : T) : option (Point T) :=
  let px_ := idx h 0 * x + idx h 1 * y + idx h 2 in
  let py_ := idx h 3 * x + idx h 4 * y + idx h 5 in
  let w := idx h 6 * x + idx h 7 * y + idx h 8 in
  if Math_abs w <? lit 1 (-8) then ret (mkPoint px_ py_)
  else
    rx <- px_ / w ;;
    ry <- py_ / w ;;
    ret (mkPoint rx ry).

(** The loop of [findFixedPoint], [i] iterations before its end. *)
Fixpoint iterateFixedPoint (i : nat) (h : list T) (w hg cx cy : T)
  : option (Point T) :=
  match i with
  | O => ret (mkPoint cx cy)
  | S i' =>
      next <- transformPoint h cx cy ;;
      if isNaN (px next) || isNaN (py next) then
        x <- w / int 2 ;;
        y <- hg / int 2 ;;
        ret (mkPoint x y)
      else iterateFixedPoint i' h w hg (px next) (py next)
  end.

Definition findFixedPoint (h : list T) (w hg : T) : option (Point T) :=
  cx <- w / int 2 ;;
  cy <- hg / int 2 ;;
  iterateFixedPoint 20 h w hg cx cy.

(** Robust affine mapping for 3 points: the canvas calls made.  An array
    shorter than three points makes the function throw, which is [None]. *)
Definition applyAffineTriangle (src dst : list (Point T))
  : option (list (CanvasCall T)) :=
  match src, dst with
  | s0 :: s1 :: s2 :: _, d0 :: d1 :: d2 :: _ =>
      let x0 := px s0 in let y0 := py s0 in
      let x1 := px s1 in let y1 := py s1 in
      let x2 := px s2 in let y2 := py s2 in
      let u0 := px d0 in let v0 := py d0 in
      let u1 := px d1 in let v1 := py d1 in
      let u2 := px d2 in let v2 := py d2 in
      let dx1 := x1 - x0 in let dy1 := y1 - y0 in let du1 := u1 - u0 in
      let dx2 := x2 - x0 in let dy2 := y2 - y0 in let du2 := u2 - u0 in
      let det := dx1 * dy2 - dx2 * dy1 in
      if Math_abs det <? lit 1 (-6) then ret []
      else
        a <- (du1 * dy2 - du2 * dy1) / det ;;
        c <- (dx1 * du2 - dx2 * du1) / det ;;
        let e := u0 - a * x0 - c * y0 in
        let dv1 := v1 - v0 in
        let dv2 := v2 - v0 in
        b <- (dv1 * dy2 - dv2 * dy1) / det ;;
        d <- (dx1 * dv2 - dx2 * dv1) / det ;;
        let f := v0 - b * x0 - d * y0 in
        ret [Save; BeginPath; MoveTo u0 v0; LineTo u1 v1; LineTo u2 v2;
             ClosePath; Clip; Transform a b c d e f;
             DrawImage (int 0) (int 0); Restore]
  | _, _ => None
  end.

End Projective.

(** ** Padded triangles and the chain of layer matrices ([DrosteCanvas.tsx]) *)

Section CanvasDrawing.

Context {T : Type} `{JSNumber T}.
Local Open Scope js_scope.

(** Stable Affine Triangle Drawing with Seam Healing: the canvas calls
    made. *)
Definition drawPaddedTriangle (screenPts imagePts : list (Point T)) (padding : T)
  : option (list (CanvasCall T)) :=
  match screenPts, imagePts with
  | q0 :: q1 :: q2 :: _, i0 :: i1 :: i2 :: _ =>
      (* 1. Expand SCREEN points (Destination) to cover seams *)
      cx <- (px q0 + px q1 + px q2) / int 3 ;;
      cy <- (py q0 + py q1 + py q2) / int 3 ;;
      let pad := fun p : Point T =>
        if padding <=? int 0 then p
        else
          let dx := px p - cx in
          let dy := py p - cy in
          mkPoint (cx + dx * lit 103 (-2)) (cy + dy * lit 103 (-2)) in
      let s0 := pad q0 in
      let s1 := pad q1 in
      let s2 := pad q2 in
      let x0 := px s0 in let y0 := py s0 in
      let x1 := px s1 in let y1 := py s1 in
      let x2 := px s2 in let y2 := py s2 in
      let u0 := px i0 in let v0 := py i0 in
      let u1 := px i1 in let v1 := py i1 in
      let u2 := px i2 in let v2 := py i2 in
      let du1 := u1 - u0 in
      let dv1 := v1 - v0 in
      let du2 := u2 - u0 in
      let dv2 := v2 - v0 in
      let dx1 := x1 - x0 in
      let dy1 := y1 - y0 in
      let dx2 := x2 - x0 in
      let dy2 := y2 - y0 in
      let det := du1 * dv2 - du2 * dv1 in
      if Math_abs det <? lit 1 (-6) then ret []
      else
        invDet <- int 1 / det ;;
        let a := (dx1 * dv2 - dx2 * dv1) * invDet in
        let c := (du1 * dx2 - du2 * dx1) * invDet in
        let e := x0 - a * u0 - c * v0 in
        let b := (dy1 * dv2 - dy2 * dv1) * invDet in
        let d := (du1 * dy2 - du2 * dy1) * invDet in
        let f := y0 - b * u0 - d * v0 in
        ret [Save; BeginPath; MoveTo x0 y0; LineTo x1 y1; LineTo x2 y2;
             ClosePath; Clip; Transform a b c d e f;
             DrawImage (int 0) (int 0); Restore]
  | _, _ => None
  end.

End CanvasDrawing.

Section LayerChain.

Context {T : Type} `{JSNumber T}.

(** [currentH] after [k] rounds of [currentH = multiplyMatrix(currentH, m)],
    the update of both layer loops of [renderCanvas]. *)
Definition chainAfter (m currentH : list T) (k : nat) : list T :=
  fold_left (fun cur _ => multiplyMatrix cur m) (seq 0 k) currentH.

(** [currentH] when the layer loop starts: [|START_LAYER|] rounds with
    [HInv], from the identity. *)
Definition startChain (HInv : list T) : list T :=
  chainAfter HInv identity (Z.abs_nat START_LAYER).

(** The matrix of the layer [j = START_LAYER + k], if the loop reaches
    it. *)
Definition layerMatrixOf (K Hm HInv : list T) (k : nat) : list T :=
  multiplyMatrix K (chainAfter Hm (startChain HInv) k).

End LayerChain.

(** *** Notions for points, triangles and the canvas *)

(** What [ctx.transform(a, b, c, d, e, f)] does to a point of the drawn
    image (the Canvas API's matrix [[a c e; b d f; 0 0 1]]). *)
Definition canvasApply (a b c d e f : R) (p : Point R) : Point R :=
  mkPoint (a * px p + c * py p + e)%R (b * px p + d * py p + f)%R.

(** The denominator of [transformPoint h x y], and the points at which it
    is divided by. *)
Definition denominator (h : list R) (x y : R) : R :=
  (idx h 6 * x + idx h 7 * y + idx h 8)%R.

Definition regular (h : list R) (x y : R) : Prop :=
  (1 / 100000000 <= Rabs (denominator h x y))%R.

(** The uniform scaling by [s] about the point [(fx, fy)]. *)
Definition scalingAbout (s fx fy : R) : list R :=
  [s; 0; (1 - s) * fx; 0; s; (1 - s) * fy; 0; 0; 1]%R.

(** Twice the signed area of the triangle [p0 p1 p2]. *)
Definition triangleDet (p0 p1 p2 : Point R) : R :=
  ((px p1 - px p0) * (py p2 - py p0) - (px p2 - px p0) * (py p1 - py p0))%R.

(** The centroid of three points. *)
Definition centroid3 (p0 p1 p2 : Point R) : Point R :=
  mkPoint ((px p0 + px p1 + px p2) / 3)%R ((py p0 + py p1 + py p2) / 3)%R.

(** [p] moved away from [c] by the factor [k]. *)
Definition expandAbout (c : Point R) (k : R) (p : Point R) : Point R :=
  mkPoint (px c + (px p - px c) * k)%R (py c + (py p - py c) * k)%R.

(** ** Further [Math] functions, used by the export size and the pointer *)

Class JSMath (T : Type) : Type := {
  Math_round : T -> T;
  Math_hypot : T -> T -> option T;
  Math_atan2 : T -> T -> option T;
  Math_cos : T -> option T
}.

Module FMath.

(** [Math.round]: the nearest integer, a tie going towards [+Infinity];
    [-0] for an argument in [[-0.5, -0]].  The value of the double is
    [m * 2^e], which is rounded exactly, on integers. *)
Definition round (x : float) : float :=
  match Prim2SF x with
  | S754_finite s m e =>
      if (0 <=? e)%Z then x
      else
        let d := (2 ^ (- e))%Z in
        if s then
          let n := (2 * Zpos m - d)%Z in
          if (n <=? 0)%Z then PrimFloat.neg_zero
          else F.of_Z (- ((n + 2 * d - 1) / (2 * d)))
        else F.of_Z ((2 * Zpos m + d) / (2 * d))
  | _ => x
  end.

(** [Math.hypot]: [+Infinity] if an argument is infinite, else NaN if one is
    NaN, [+0] if both are zeros. *)
Definition hypot (x y : float) : option float :=
  if PrimFloat.is_infinity x || PrimFloat.is_infinity y
  then Some PrimFloat.infinity
  else if PrimFloat.is_nan x || PrimFloat.is_nan y then Some PrimFloat.nan
  else if PrimFloat.is_zero x && PrimFloat.is_zero y then Some PrimFloat.zero
  else None.

(** [Math.atan2(y, x)]: NaN if an argument is NaN; the zero of the sign of
    [y] when [y] is a zero and [x] is [+0] or positive, and when [y] is
    finite and [x] is [+Infinity]. *)
Definition atan2 (y x : float) : option float :=
  if PrimFloat.is_nan y || PrimFloat.is_nan x then Some PrimFloat.nan
  else if PrimFloat.is_zero y then
    if PrimFloat.get_sign x then None else Some y
  else if PrimFloat.is_infinity x && negb (PrimFloat.get_sign x)
          && PrimFloat.is_finite y
  then Some (if PrimFloat.get_sign y then PrimFloat.neg_zero else PrimFloat.zero)
  else None.

(** [Math.cos]: NaN at NaN and at the infinities, [1] at the zeros. *)
Definition cos (x : float) : option float :=
  if PrimFloat.is_nan x then Some PrimFloat.nan
  else if PrimFloat.is_zero x then Some PrimFloat.one
  else if PrimFloat.is_infinity x then Some PrimFloat.nan
  else None.

End FMath.

#[export] Instance IEEEMath : JSMath float := {|
  Math_round := FMath.round;
  Math_hypot := FMath.hypot;
  Math_atan2 := FMath.atan2;
  Math_cos := FMath.cos
|}.

Module IMath.

Definition round (x : R) : R := IZR (Int_part (x + 1 / 2)).

Definition hypot (x y : R) : option R := Some (sqrt (x * x + y * y)).

(** The angle of the point [(x, y)], in [(-PI, PI]]. *)
Definition atan2 (y x : R) : option R :=
  if Rlt_dec 0 x then Some (atan (y / x))
  else if Rlt_dec x 0 then
    (if Rle_dec 0 y then Some (atan (y / x) + PI)%R
     else Some (atan (y / x) - PI)%R)
  else if Rlt_dec 0 y then Some (PI / 2)%R
  else if Rlt_dec y 0 then Some (- (PI / 2))%R
  else Some 0%R.

End IMath.

#[export] Instance IdealMath : JSMath R := {|
  Math_round := IMath.round;
  Math_hypot := IMath.hypot;
  Math_atan2 := IMath.atan2;
  Math_cos := fun x => Some (Rtrigo_def.cos x)
|}.

(** ** Export size and pointer position ([DrosteCanvas.tsx]) *)

(** The size of an image or canvas element. *)
Record Element (T : Type) : Type := mkElement { width : T; height : T }.

(** What [getMousePos] returns. *)
Record MousePos (T : Type) : Type := mkMousePos {
  nx : T; ny : T; cx : T; cy : T; scale : T
}.

Inductive Mode : Type := TRANSFORM | CORNER.

(** The drag targets ['p1'], ['p2'], ['p3'], ['p4'], ['rotate'] and
    ['move']. *)
Inductive DragTarget : Type :=
| DragP1 | DragP2 | DragP3 | DragP4 | DragRotate | DragMove.

Section Pointer.

Context {T : Type} `{JSNumber T} `{JSMath T}.
Local Open Scope js_scope.

Definition HANDLE_RADIUS : T := int 8.
Definition ROTATION_HANDLE_OFFSET : T := int 30.
Definition MAX_EXPORT_DIMENSION : T := int 500.

(** 1. Calculate Export Dimensions ([generateGif]).  [aspectRatio] is a
    pure quotient used only when the image is scaled down: it is bound
    there. *)
Definition exportSize (imageEl : Element T) : option (T * T) :=
  let iw := width imageEl in
  let ih := height imageEl in
  let exportW := iw in
  let exportH := ih in
  if (exportW >? MAX_EXPORT_DIMENSION) || (exportH >? MAX_EXPORT_DIMENSION) then
    aspectRatio <- iw / ih ;;
    if exportW >? exportH then
      q <- MAX_EXPORT_DIMENSION / aspectRatio ;;
      ret (MAX_EXPORT_DIMENSION, Math_round q)
    else
      ret (Math_round (MAX_EXPORT_DIMENSION * aspectRatio), MAX_EXPORT_DIMENSION)
  else ret (exportW, exportH).

(** Canvas Transform: [scaleToFit], [offsetX] and [offsetY], as
    [renderCanvas] and [getMousePos] compute them. *)
Definition fitTransform (canvas imageEl : Element T) : option (T * T * T) :=
  let iw := width imageEl in
  let ih := height imageEl in
  sx <- width canvas / iw ;;
  sy <- height canvas / ih ;;
  let scaleToFit := Math_min sx sy * lit 9 (-1) in
  offsetX <- (width canvas - iw * scaleToFit) / int 2 ;;
  offsetY <- (height canvas - ih * scaleToFit) / int 2 ;;
  ret (scaleToFit, offsetX, offsetY).

(** Input Handling: the inner [None] is [null]; [rectLeft] and [rectTop]
    are those of the canvas's bounding rectangle. *)
Definition getMousePos (canvas : option (Element T)) (rectLeft rectTop : T)
           (imageEl : option (Element T)) (clientX clientY : T)
  : option (option (MousePos T)) :=
  match canvas, imageEl with
  | Some canvas, Some imageEl =>
      let cx := clientX - rectLeft in
      let cy := clientY - rectTop in
      let iw := width imageEl in
      let ih := height imageEl in
      f <- fitTransform canvas imageEl ;;
      let '(scaleToFit, offsetX, offsetY) := f in
      qx <- (cx - offsetX) / scaleToFit ;;
      nx <- qx / iw ;;
      qy <- (cy - offsetY) / scaleToFit ;;
      ny <- qy / ih ;;
      ret (Some (mkMousePos nx ny cx cy scaleToFit))
  | _, _ => ret None
  end.

(** [x || 1] *)
Definition orOne (x : T) : T := if truthy x then x else int 1.

(** [handlePointerDown]: the inner [None] is a return without
    [setDragTarget]. *)
Definition handlePointerDown (direction : AnimationDirection) (mode : Mode)
           (quad : Quad T) (pos : option (MousePos T))
           (imageEl : option (Element T))
  : option (option DragTarget) :=
  match direction, pos, imageEl with
  | STOP, Some pos, Some imageEl =>
      let nx := nx pos in
      let ny := ny pos in
      let scale := scale pos in
      t0 <- (HANDLE_RADIUS * int 2) / scale ;;
      threshold <- t0 / width imageEl ;;
      let dist := fun p : Point T => Math_hypot (px p - nx) (py p - ny) in
      d1 <- dist (p1 quad) ;;
      if d1 <? threshold then ret (Some DragP1) else
      d2 <- dist (p2 quad) ;;
      if d2 <? threshold then ret (Some DragP2) else
      d3 <- dist (p3 quad) ;;
      if d3 <? threshold then ret (Some DragP3) else
      d4 <- dist (p4 quad) ;;
      if d4 <? threshold then ret (Some DragP4) else
      onRotate <-
        match mode with
        | TRANSFORM =>
            let iw := width imageEl in
            let ih := height imageEl in
            cx <- (px (p1 quad) + px (p2 quad) + px (p3 quad) + px (p4 quad)) / int 4 ;;
            cy <- (py (p1 quad) + py (p2 quad) + py (p3 quad) + py (p4 quad)) / int 4 ;;
            topMidX <- (px (p1 quad) + px (p2 quad)) / int 2 ;;
            topMidY <- (py (p1 quad) + py (p2 quad)) / int 2 ;;
            let dx := (topMidX - cx) * iw in
            let dy := (topMidY - cy) * ih in
            l <- Math_sqrt (dx * dx + dy * dy) ;;
            let len := orOne l in
            ux <- dx / len ;;
            ox0 <- ROTATION_HANDLE_OFFSET / scale ;;
            ox <- ox0 / iw ;;
            let rx := topMidX + ux * ox in
            uy <- dy / len ;;
            oy0 <- ROTATION_HANDLE_OFFSET / scale ;;
            oy <- oy0 / ih ;;
            let ry := topMidY + uy * oy in
            d <- Math_hypot (rx - nx) (ry - ny) ;;
            ret (d <? threshold)
        | CORNER => ret false
        end ;;
      if onRotate then ret (Some DragRotate) else
      let minX := Math_min (px (p1 quad)) (px (p4 quad)) in
      let maxX := Math_max (px (p2 quad)) (px (p3 quad)) in
      let minY := Math_min (py (p1 quad)) (py (p2 quad)) in
      let maxY := Math_max (py (p3 quad)) (py (p4 quad)) in
      if (nx >? minX) && (nx <? maxX) && (ny >? minY) && (ny <? maxY)
      then ret (Some DragMove)
      else ret None
  | _, _, _ => ret None
  end.

(** UI Overlay (Handles) of [renderCanvas] in the transform mode: where the
    rotation handle is drawn, in image pixels; [qPoints] is the inner quad
    in image space. *)
Definition rotationHandle (qPoints : Quad T) (scaleToFit : T)
  : option (Point T) :=
  topMidX <- (px (p1 qPoints) + px (p2 qPoints)) / int 2 ;;
  topMidY <- (py (p1 qPoints) + py (p2 qPoints)) / int 2 ;;
  cx <- (px (p1 qPoints) + px (p2 qPoints) + px (p3 qPoints) + px (p4 qPoints))
        / int 4 ;;
  cy <- (py (p1 qPoints) + py (p2 qPoints) + py (p3 qPoints) + py (p4 qPoints))
        / int 4 ;;
  let dx := topMidX - cx in
  let dy := topMidY - cy in
  l <- Math_sqrt (dx * dx + dy * dy) ;;
  let len := orOne l in
  ux <- dx / len ;;
  ox <- ROTATION_HANDLE_OFFSET / scaleToFit ;;
  let rx := topMidX + ux * ox in
  uy <- dy / len ;;
  oy <- ROTATION_HANDLE_OFFSET / scaleToFit ;;
  let ry := topMidY + uy * oy in
  ret (mkPoint rx ry).

(** *** [handlePointerMove] on the store of [Point] objects

    A [Quad] object holds references to four [Point] objects;
    [{ ...state.quad }] copies the references, so that [newQuad.p1.x += dx]
    writes into the object the state still refers to. *)

Record QuadObj : Type := mkQuadObj { o1 : nat; o2 : nat; o3 : nat; o4 : nat }.

Definition Heap : Type := list (Point T).

(** A fresh object [{ x, y }]. *)
Definition alloc (h : Heap) (p : Point T) : Heap * nat := (h ++ [p], length h).

Definition deref (h : Heap) (r : nat) : option (Point T) := nth_error h r.

(** [o.x += dx; o.y += dy] on the object [r]. *)
Definition addTo (h : Heap) (r : nat) (dx dy : T) : option Heap :=
  p <- deref h r ;;
  ret (set_nth h r (mkPoint (px p + dx) (py p + dy))).

(** The value of a [Quad] object. *)
Definition readQuad (h : Heap) (q : QuadObj) : option (Quad T) :=
  a <- deref h (o1 q) ;;
  b <- deref h (o2 q) ;;
  c <- deref h (o3 q) ;;
  d <- deref h (o4 q) ;;
  ret (mkQuad a b c d).

(** [newQuad.pK = f(newQuad.pK)] for the four corners in turn, each result
    a fresh object. *)
Definition replaceAll (h : Heap) (q : QuadObj)
           (f : Point T -> option (Point T)) : option (Heap * QuadObj) :=
  a <- deref h (o1 q) ;; a' <- f a ;;
  let '(h, r1) := alloc h a' in
  b <- deref h (o2 q) ;; b' <- f b ;;
  let '(h, r2) := alloc h b' in
  c <- deref h (o3 q) ;; c' <- f c ;;
  let '(h, r3) := alloc h c' in
  d <- deref h (o4 q) ;; d' <- f d ;;
  let '(h, r4) := alloc h d' in
  ret (h, mkQuadObj r1 r2 r3 r4).

Definition cornerOf (q : QuadObj) (target : DragTarget) : option nat :=
  match target with
  | DragP1 => Some (o1 q)
  | DragP2 => Some (o2 q)
  | DragP3 => Some (o3 q)
  | DragP4 => Some (o4 q)
  | _ => None
  end.

(** The store after the handler and the quad handed to [onQuadChange]; the
    inner [None] is a return without a call. *)
Definition handlePointerMove (h : Heap) (stateQuad : QuadObj) (mode : Mode)
           (dragTarget : option DragTarget) (hasImage : bool)
           (pos : option (MousePos T))
  : option (Heap * option QuadObj) :=
  match dragTarget, hasImage, pos with
  | Some target, true, Some pos =>
      let nx := nx pos in
      let ny := ny pos in
      let newQuad := stateQuad in
      match mode with
      | CORNER =>
          let '(h, newQuad) :=
            match target with
            | DragP1 =>
                let '(h, r) := alloc h (mkPoint nx ny) in
                (h, mkQuadObj r (o2 newQuad) (o3 newQuad) (o4 newQuad))
            | DragP2 =>
                let '(h, r) := alloc h (mkPoint nx ny) in
                (h, mkQuadObj (o1 newQuad) r (o3 newQuad) (o4 newQuad))
            | DragP3 =>
                let '(h, r) := alloc h (mkPoint nx ny) in
                (h, mkQuadObj (o1 newQuad) (o2 newQuad) r (o4 newQuad))
            | DragP4 =>
                let '(h, r) := alloc h (mkPoint nx ny) in
                (h, mkQuadObj (o1 newQuad) (o2 newQuad) (o3 newQuad) r)
            | _ => (h, newQuad)
            end in
          match target with
          | DragMove =>
              q <- readQuad h newQuad ;;
              mx <- (px (p1 q) + px (p2 q) + px (p3 q) + px (p4 q)) / int 4 ;;
              let dx := nx - mx in
              my <- (py (p1 q) + py (p2 q) + py (p3 q) + py (p4 q)) / int 4 ;;
              let dy := ny - my in
              h <- addTo h (o1 newQuad) dx dy ;;
              h <- addTo h (o2 newQuad) dx dy ;;
              h <- addTo h (o3 newQuad) dx dy ;;
              h <- addTo h (o4 newQuad) dx dy ;;
              ret (h, Some newQuad)
          | _ => ret (h, Some newQuad)
          end
      | TRANSFORM =>
          q <- readQuad h newQuad ;;
          centerX <- (px (p1 q) + px (p3 q)) / int 2 ;;
          centerY <- (py (p1 q) + py (p3 q)) / int 2 ;;
          match target with
          | DragMove =>
              let dx := nx - centerX in
              let dy := ny - centerY in
              r <- replaceAll h newQuad
                     (fun p => ret (mkPoint (px p + dx) (py p + dy))) ;;
              ret (fst r, Some (snd r))
          | DragRotate =>
              tmX <- (px (p1 q) + px (p2 q)) / int 2 ;;
              tmY <- (py (p1 q) + py (p2 q)) / int 2 ;;
              oldAngle <- Math_atan2 (tmY - centerY) (tmX - centerX) ;;
              newAngle <- Math_atan2 (ny - centerY) (nx - centerX) ;;
              let rot := newAngle - oldAngle in
              r <- replaceAll h newQuad
                     (fun p =>
                        let px_ := px p - centerX in
                        let py_ := py p - centerY in
                        c <- Math_cos rot ;;
                        s <- Math_sin rot ;;
                        ret (mkPoint (px_ * c - py_ * s + centerX)
                                     (px_ * s + py_ * c + centerY))) ;;
              ret (fst r, Some (snd r))
          | _ =>
              corner <- match cornerOf stateQuad target with
                        | Some r => deref h r
                        | None => None
                        end ;;
              d <- Math_hypot (px corner - centerX) (py corner - centerY) ;;
              let distOld := orOne d in
              distNew <- Math_hypot (nx - centerX) (ny - centerY) ;;
              scale <- distNew / distOld ;;
              r <- replaceAll h newQuad
                     (fun p =>
                        ret (mkPoint (centerX + (px p - centerX) * scale)
                                     (centerY + (py p - centerY) * scale))) ;;
              ret (fst r, Some (snd r))
          end
      end
  | _, _, _ => ret (h, None)
  end.

End Pointer.

(** ** The application state ([App.tsx]) *)

Section App.

Context {T : Type} `{JSNumber T}.

Record AppState : Type := mkAppState {
  imageSrc : option String.string;
  imageDimensions : Element T;
  quad : QuadObj;
  mode : Mode;
  depth : T;
  zoomSpeed : T;
  direction : AnimationDirection;
  desiredDirection : AnimationDirection;
  isExporting : bool;
  exportProgress : T;
  constantSpeed : bool;
  shouldRemoveBackground : bool;
  isProcessing : bool
}.

(** [INITIAL_QUAD] and its four [Point] objects, made once when the module
    is loaded. *)
Definition initialHeap : list (Point T) :=
  [ mkPoint (lit 25 (-2)) (lit 25 (-2)); mkPoint (lit 75 (-2)) (lit 25 (-2));
    mkPoint (lit 75 (-2)) (lit 75 (-2)); mkPoint (lit 25 (-2)) (lit 75 (-2)) ].

Definition INITIAL_QUAD : QuadObj := mkQuadObj 0 1 2 3.

Definition initialState : AppState :=
  mkAppState None (mkElement (int 0) (int 0)) INITIAL_QUAD TRANSFORM (int 10)
             (int 1) STOP IN false (int 0) false false false.

(** The state update of [img.onload] in [loadImage]. *)
Definition loadImage (src : String.string) (img : Element T) (prev : AppState)
  : AppState :=
  mkAppState (Some src) (mkElement (width img) (height img)) INITIAL_QUAD
             (mode prev) (depth prev) (zoomSpeed prev) STOP
             (desiredDirection prev) (isExporting prev) (exportProgress prev)
             (constantSpeed prev) (shouldRemoveBackground prev) false.

Definition setDirection (prev : AppState) (desired active : AnimationDirection)
  : AppState :=
  mkAppState (imageSrc prev) (imageDimensions prev) (quad prev) (mode prev)
             (depth prev) (zoomSpeed prev) active desired (isExporting prev)
             (exportProgress prev) (constantSpeed prev)
             (shouldRemoveBackground prev) (isProcessing prev).

Definition togglePlay (prev : AppState) : AppState :=
  setDirection prev (desiredDirection prev)
    (match direction prev with
     | STOP => desiredDirection prev
     | _ => STOP
     end).

Definition toggleDirectionPreference (prev : AppState) : AppState :=
  let newDir := match desiredDirection prev with IN => OUT | _ => IN end in
  let activeDir := match direction prev with STOP => STOP | _ => newDir end in
  setDirection prev newDir activeDir.

(** [onQuadChange]: [{ ...s, quad: q }]. *)
Definition onQuadChange (q : QuadObj) (s : AppState) : AppState :=
  mkAppState (imageSrc s) (imageDimensions s) q (mode s) (depth s) (zoomSpeed s)
             (direction s) (desiredDirection s) (isExporting s)
             (exportProgress s) (constantSpeed s) (shouldRemoveBackground s)
             (isProcessing s).

End App.

(** *** Notions for the canvas, the drags and the state *)

(** What [ctx.translate(offsetX, offsetY); ctx.scale(s, s)] does to a point
    drawn afterwards. *)
Definition toCanvas (s offsetX offsetY : R) (p : Point R) : Point R :=
  mkPoint (offsetX + s * px p)%R (offsetY + s * py p)%R.

(** The centroid of the four corners, and the middle of the diagonal
    [p1 p3]. *)
Definition centroid4 (q : Quad R) : Point R :=
  mkPoint ((px (p1 q) + px (p2 q) + px (p3 q) + px (p4 q)) / 4)%R
          ((py (p1 q) + py (p2 q) + py (p3 q) + py (p4 q)) / 4)%R.

Definition diagonalMid (q : Quad R) : Point R :=
  mkPoint ((px (p1 q) + px (p3 q)) / 2)%R ((py (p1 q) + py (p3 q)) / 2)%R.

(** The quad moved by [(dx, dy)]. *)
Definition translateQuad (dx dy : R) (q : Quad R) : Quad R :=
  mkQuad (mkPoint (px (p1 q) + dx) (py (p1 q) + dy))%R
         (mkPoint (px (p2 q) + dx) (py (p2 q) + dy))%R
         (mkPoint (px (p3 q) + dx) (py (p3 q) + dy))%R
         (mkPoint (px (p4 q) + dx) (py (p4 q) + dy))%R.

(** The square of the distance between two points. *)
Definition dist2 (a b : Point R) : R :=
  ((px a - px b) * (px a - px b) + (py a - py b) * (py a - py b))%R.

(** While playing, the direction is the preferred one; the preference is
    never [STOP]. *)
Definition directionsAgree {T : Type} (s : @AppState T) : Prop :=
  desiredDirection s <> STOP
  /\ (direction s = STOP \/ direction s = desiredDirection s).

(** The corner of a quad a drag target names. *)
Definition cornerValue (q : Quad R) (target : DragTarget) : option (Point R) :=
  match target with
  | DragP1 => Some (p1 q)
  | DragP2 => Some (p2 q)
  | DragP3 => Some (p3 q)
  | DragP4 => Some (p4 q)
  | _ => None
  end.

(** The quad with the corner [target] put at [p]. *)
Definition withCorner (q : Quad R) (target : DragTarget) (p : Point R) : Quad R :=
  match target with
  | DragP1 => mkQuad p (p2 q) (p3 q) (p4 q)
  | DragP2 => mkQuad (p1 q) p (p3 q) (p4 q)
  | DragP3 => mkQuad (p1 q) (p2 q) p (p4 q)
  | DragP4 => mkQuad (p1 q) (p2 q) (p3 q) p
  | _ => q
  end.

(** The quad with every corner moved away from [c] by the factor [k]. *)
Definition expandQuad (c : Point R) (k : R) (q : Quad R) : Quad R :=
  mkQuad (expandAbout c k (p1 q)) (expandAbout c k (p2 q))
         (expandAbout c k (p3 q)) (expandAbout c k (p4 q)).

(** The four references of a [Quad] object are four objects. *)
Definition distinctCorners (q : QuadObj) : Prop :=
  NoDup [o1 q; o2 q; o3 q; o4 q].

(** A double that is neither NaN nor an infinity. *)
Definition finite64 (x : float) : Prop :=
  match Prim2SF x with
  | S754_zero _ | S754_finite _ _ _ => True
  | _ => False
  end.

(** The bounds [boundsOf] keeps for one coordinate: still the initial
    [Infinity] and [-Infinity], or two finite numbers. *)
Definition boundsPair (lo hi : float) : Prop :=
  (lo = PrimFloat.infinity /\ hi = PrimFloat.neg_infinity)
  \/ (finite64 lo /\ finite64 hi).

(** * Properties *)

Unset Implicit Arguments.

(** ** Working with the two readings *)

Lemma I_div_some (x y : R) : (y <> 0)%R -> I.div x y = Some (x / y)%R.
Proof.
  intros Hy. unfold I.div.
  destruct (Req_dec_T y 0); [contradiction | reflexivity].
Qed.

Lemma I_sqrt_some (x : R) : (0 <= x)%R -> I.sqrt x = Some (sqrt x).
Proof.
  intros Hx. unfold I.sqrt.
  destruct (Rle_dec 0 x); [reflexivity | contradiction].
Qed.

Lemma I_ltb_true (x y : R) : (x < y)%R -> I.ltb x y = true.
Proof. intros Hxy. unfold I.ltb. destruct (Rlt_dec x y); [reflexivity | contradiction]. Qed.

Lemma I_ltb_false (x y : R) : (y <= x)%R -> I.ltb x y = false.
Proof. intros Hxy. unfold I.ltb. destruct (Rlt_dec x y); [lra | reflexivity]. Qed.

Lemma I_leb_true (x y : R) : (x <= y)%R -> I.leb x y = true.
Proof. intros Hxy. unfold I.leb. destruct (Rle_dec x y); [reflexivity | contradiction]. Qed.

Lemma I_leb_false (x y : R) : (y < x)%R -> I.leb x y = false.
Proof. intros Hxy. unfold I.leb. destruct (Rle_dec x y); [lra | reflexivity]. Qed.

(** Case analysis on the comparisons of the real reading. *)
Ltac ideal_cases :=
  repeat match goal with
         | |- context [I.leb ?x ?y] => unfold I.leb; destruct (Rle_dec x y)
         | |- context [I.ltb ?x ?y] => unfold I.ltb; destruct (Rlt_dec x y)
         end.

(** The literals of the source are read as the nearest doubles. *)
Example lit_1em10 : F.lit 1 (-10) = 1e-10%float /\ F.lit 1 (-9) = 1e-9%float
  /\ F.lit 5 (-1) = 0.5%float /\ F.lit 103 (-2) = 1.03%float
  /\ F.lit 1 (-4) = 0.0001%float /\ F.lit 9 (-1) = 0.9%float.
Proof. repeat split; reflexivity. Qed.

(** ** Binary64 facts: non-finite values, exponents in the unit interval *)

Lemma is_zero_cases (x : float) :
  PrimFloat.is_zero x = true -> x = PrimFloat.zero \/ x = PrimFloat.neg_zero.
Proof.
  unfold PrimFloat.is_zero. rewrite FloatAxioms.eqb_spec. intros Hx.
  rewrite <- (SF2Prim_Prim2SF x).
  destruct (Prim2SF x) as [s | s | | s m e]; cbn in Hx;
    try discriminate; destruct s; try discriminate;
    [right | left]; reflexivity.
Qed.

Lemma nonfinite_mul_r (x y : float) : nonfinite y -> nonfinite (x * y).
Proof.
  unfold nonfinite. rewrite FloatAxioms.mul_spec.
  destruct (Prim2SF x) as [s | s | | s m e], (Prim2SF y) as [s' | s' | | s' m' e'];
    cbn; intros Hy; try discriminate; reflexivity.
Qed.

Lemma nonfinite_mul_l (x y : float) : nonfinite x -> nonfinite (x * y).
Proof.
  unfold nonfinite. rewrite FloatAxioms.mul_spec.
  destruct (Prim2SF x) as [s | s | | s m e], (Prim2SF y) as [s' | s' | | s' m' e'];
    cbn; intros Hy; try discriminate; reflexivity.
Qed.

Lemma nonfinite_sub_one (x : float) : nonfinite x -> nonfinite (x - 1).
Proof.
  unfold nonfinite. rewrite FloatAxioms.sub_spec.
  change (Prim2SF 1) with (S754_finite false 4503599627370496 (-52)).
  destruct (Prim2SF x) as [s | s | | s m e];
    cbn; intros Hy; try discriminate; reflexivity.
Qed.

Lemma nonfinite_one_add (x : float) : nonfinite x -> nonfinite (1 + x).
Proof.
  unfold nonfinite. rewrite FloatAxioms.add_spec.
  change (Prim2SF 1) with (S754_finite false 4503599627370496 (-52)).
  destruct (Prim2SF x) as [s | s | | s m e];
    cbn; intros Hy; try discriminate; reflexivity.
Qed.

Lemma nonfinite_zero_add (x : float) : nonfinite x -> nonfinite (0 + x).
Proof.
  unfold nonfinite. rewrite FloatAxioms.add_spec.
  change (Prim2SF 0) with (S754_zero false).
  destruct (Prim2SF x) as [s | s | | s m e];
    cbn; intros Hy; try discriminate; reflexivity.
Qed.

Lemma zero_mul_nonfinite (x : float) : nonfinite x -> (0 * x)%float = PrimFloat.nan.
Proof.
  unfold nonfinite. intros Hx. apply Prim2SF_inj. rewrite FloatAxioms.mul_spec.
  change (Prim2SF 0) with (S754_zero false).
  destruct (Prim2SF x) as [s | s | | s m e];
    cbn in *; try discriminate; reflexivity.
Qed.


Lemma SFltb_leb_flip (m m' : positive) (e e' : Z) :
  SFltb (S754_finite false m e) (S754_finite false m' e') = true ->
  SFleb (S754_finite false m' e') (S754_finite false m e) = false.
Proof.
  unfold SFltb, SFleb, SFcompare.
  rewrite (Z.compare_antisym e e').
  destruct (e ?= e')%Z; cbv [CompOpp]; try discriminate; try reflexivity.
  pose proof (Pos.compare_cont_antisym m m' Eq) as Ha.
  cbv [CompOpp] in Ha. rewrite <- Ha.
  destruct (Pos.compare_cont Eq m m'); try discriminate; reflexivity.
Qed.

(** A [t] strictly between [0] and [1]. *)
Lemma unit_interval_class (t : float) :
  PrimFloat.ltb 0 t = true -> PrimFloat.ltb t 1 = true ->
  PrimFloat.is_nan t = false /\ PrimFloat.is_zero t = false
  /\ PrimFloat.leb 1 (PrimFloat.abs t) = false.
Proof.
  intros H0 H1.
  unfold PrimFloat.is_nan, PrimFloat.is_zero.
  rewrite !FloatAxioms.eqb_spec, FloatAxioms.leb_spec, FloatAxioms.abs_spec.
  rewrite FloatAxioms.ltb_spec in H0, H1.
  change (Prim2SF 0) with (S754_zero false) in *.
  change (Prim2SF PrimFloat.zero) with (S754_zero false) in *.
  change (Prim2SF 1) with (S754_finite false 4503599627370496 (-52)) in *.
  destruct (Prim2SF t) as [s | s | | s m e].
  - destruct s; discriminate H0.
  - destruct s; [discriminate H0 | discriminate H1].
  - discriminate H0.
  - destruct s; [discriminate H0|].
    split; [|split].
    + unfold SFeqb, SFcompare.
      rewrite Z.compare_refl. fold (Pos.compare m m). rewrite Pos.compare_refl.
      reflexivity.
    + reflexivity.
    + apply SFltb_leb_flip in H1. exact H1.
Qed.

Lemma pow_zero_unit (l t : float) :
  PrimFloat.is_zero l = true ->
  PrimFloat.ltb 0 t = true -> PrimFloat.ltb t 1 = true ->
  F.pow l t = Some PrimFloat.zero.
Proof.
  intros Hl H0 H1.
  destruct (unit_interval_class t H0 H1) as (Hnan & Hz & Habs).
  unfold F.pow. rewrite Hnan, Hz.
  change PrimFloat.zero with 0%float. rewrite H0.
  unfold F.is_odd_integer. change PrimFloat.one with 1%float. rewrite Habs.
  destruct (is_zero_cases l Hl) as [-> | ->]; reflexivity.
Qed.

(** ** Singular homography systems *)

(** Whenever the elimination stops on a pivot below [1e-10], the solver
    answers the zero vector, and [computeHomography] appends [1] to it: the
    zero vector is finite, so the [catch] that answers the identity is not
    reached. *)
Lemma computeHomography_singular (w h : float) (dst : Quad float) :
  eliminate (seq 0 8) 8 (systemA w h dst) (systemB w h dst) = Some None ->
  solveLinearSystem (systemA w h dst) (systemB w h dst) = Some (repeat 0%float 8)
  /\ computeHomography w h dst = Some [0; 0; 0; 0; 0; 0; 0; 0; 1]%float.
Proof.
  intros Hsing.
  assert (Hsolve : solveLinearSystem (systemA w h dst) (systemB w h dst)
                   = Some (repeat 0%float 8)).
  { unfold solveLinearSystem.
    change (length (systemB w h dst)) with 8%nat.
    rewrite Hsing. reflexivity. }
  split; [exact Hsolve|].
  unfold computeHomography. rewrite Hsolve. reflexivity.
Qed.

(** C1 at a failing input.  For the 800x600 image and the quad collapsed to
    the point [(100, 100)] the system is numerically singular (the
    elimination stops on a pivot below [1e-10]) and the solver returns the
    zero vector, as the claim says; but [computeHomography] returns
    [[0,0,0,0,0,0,0,0,1]], not the identity homography [[1,0,0,0,1,0,0,0,1]]. *)
Theorem computeHomography_collapsed_quad :
  let dst := collapsedQuad 100%float 100%float in
  eliminate (seq 0 8) 8 (systemA 800%float 600%float dst)
            (systemB 800%float 600%float dst) = Some None
  /\ solveLinearSystem (systemA 800%float 600%float dst)
                       (systemB 800%float 600%float dst)
     = Some [0; 0; 0; 0; 0; 0; 0; 0]%float
  /\ computeHomography 800%float 600%float dst
     = Some [0; 0; 0; 0; 0; 0; 0; 0; 1]%float
  /\ identity = [1; 0; 0; 0; 1; 0; 0; 0; 1]%float.
Proof. repeat split; vm_compute; reflexivity. Qed.

(** ** The rectangle mapped to itself, in exact arithmetic *)

Lemma eliminate_cons (T : Type) (N : JSNumber T) (i : nat) (steps : list nat)
      (n : nat) (A : list (list T)) (B : list T) :
  eliminate (i :: steps) n A B
  = let (maxEl, maxRow) := find_pivot A i n in
    if jlt maxEl (lit 1 (-10)) then ret None
    else bind (foldM (eliminate_row i n) (seq (S i) (n - S i))
                     (swap_rows A i maxRow n, swap_B B i maxRow))
              (fun st => eliminate steps n (fst st) (snd st)).
Proof. reflexivity. Qed.

Section Rect.

Local Open Scope R_scope.

Variables w h : R.
Hypothesis Hw0 : 0 < w.
Hypothesis Hh0 : 0 < h.

Let Hwh0 : 0 < w * h := Rmult_lt_0_compat w h Hw0 Hh0.

(** The entries read by the pivot search are [0], [1], [w], [h] or
    [w * h]. *)
Ltac abs_norm :=
  rewrite ?Rabs_R0, ?Rabs_R1, ?(Rabs_pos_eq w), ?(Rabs_pos_eq h),
    ?(Rabs_pos_eq (w * h)) by lra.

Ltac fold_step :=
  match goal with
  | |- context [fold_left ?f (?x :: ?l) ?a] =>
      change (fold_left f (x :: l) a) with (fold_left f l (f a x)); cbv beta
  end.

Ltac resolve_cmp :=
  match goal with
  | |- context [I.ltb ?x ?y] =>
      first [ rewrite (@I_ltb_true x y) by lra
            | rewrite (@I_ltb_false x y) by lra ]
  end.

(** One comparison of the search at a time. *)
Ltac pivot_search :=
  cbv [A_get idx nth Math_abs Ideal]; abs_norm;
  repeat (fold_step; cbv [A_get idx nth Math_abs Ideal jlt fst snd];
          abs_norm; resolve_cmp; cbv iota);
  reflexivity.

Ltac row_eq :=
  first [ reflexivity
        | apply (f_equal2 (@cons R));
          [ first [reflexivity | field; lra] | row_eq ] ].

Ltac rows_eq :=
  first [ reflexivity
        | apply (f_equal2 (@cons (list R))); [ row_eq | rows_eq ] ].

Ltac foldM_step :=
  match goal with
  | |- context [foldM ?f (?x :: ?l) ?s] =>
      change (foldM f (x :: l) s) with (bind (f s x) (foldM f l)); cbv beta
  end.

(** One row of the elimination at a time: the division by the pivot is
    defined, and the new entries are compared with the next matrix by
    [field]. *)
Ltac eliminate_rows i :=
  set (F := eliminate_row i 8);
  repeat (foldM_step; unfold F at 1;
          cbv [eliminate_row A_get idx nth jneg jdiv Ideal];
          rewrite I_div_some by lra;
          cbv [bind ret A_get A_set set_nth idx nth fold_left seq Nat.sub Nat.eqb
               jadd jmul int lit Ideal I.lit Z.leb Z.compare Z.mul Z.pow Z.pow_pos
               Pos.iter Pos.mul]);
  cbv [foldM];
  apply f_equal; apply f_equal2; [rows_eq | row_eq].

Lemma rect_systems :
  systemA w h (rectQuad w h) = rectA0 w h
  /\ systemB w h (rectQuad w h) = rectB0 w h.
Proof.
  unfold systemA, systemB, systems, rectQuad, rectA0, rectB0.
  cbv [map firstn idx nth px py p1 p2 p3 p4 int lit Ideal I.lit jmul jneg
       Z.leb Z.compare Z.mul Z.pow Z.pow_pos Pos.iter Pos.mul].
  split.
  - repeat (apply (f_equal2 (@cons (list R)));
            [repeat (apply (f_equal2 (@cons R)); [ring|]); reflexivity|]).
    reflexivity.
  - repeat (apply (f_equal2 (@cons R)); [ring|]). reflexivity.
Qed.

Lemma rect_pivot0 : find_pivot (rectA0 w h) 0 8 = (w, 2%nat).
Proof.
  unfold find_pivot, rectA0. cbv [seq Nat.sub].
  pivot_search.
Qed.

Lemma rect_rows0 :
  foldM (eliminate_row 0 8) [1; 2; 3; 4; 5; 6; 7]%nat
        (swap_rows (rectA0 w h) 0 2 8, swap_B (rectB0 w h) 0 2)
  = Some (rectA1 w h, rectB1 w h).
Proof.
  unfold rectA0, rectB0, rectA1, rectB1.
  cbv [swap_rows swap_B A_get A_set set_nth idx nth fold_left seq Nat.sub].
  eliminate_rows 0%nat.
Qed.

Lemma rect_step0 :
  1 / 10000000000 <= w ->
  eliminate [0; 1; 2; 3; 4; 5; 6; 7]%nat 8 (rectA0 w h) (rectB0 w h)
  = eliminate [1; 2; 3; 4; 5; 6; 7]%nat 8 (rectA1 w h) (rectB1 w h).
Proof.
  intros Hpivot.
  rewrite eliminate_cons, rect_pivot0.
  rewrite I_ltb_false by (cbv [lit Ideal I.lit]; cbn; exact Hpivot).
  cbv [seq Nat.sub]. rewrite rect_rows0. reflexivity.
Qed.

Lemma rect_pivot1 : find_pivot (rectA1 w h) 1 8 = (h, 4%nat).
Proof.
  unfold find_pivot, rectA1. cbv [seq Nat.sub].
  pivot_search.
Qed.

Lemma rect_rows1 :
  foldM (eliminate_row 1 8) [2; 3; 4; 5; 6; 7]%nat
        (swap_rows (rectA1 w h) 1 4 8, swap_B (rectB1 w h) 1 4)
  = Some (rectA2 w h, rectB2 w h).
Proof.
  unfold rectA1, rectB1, rectA2, rectB2.
  cbv [swap_rows swap_B A_get A_set set_nth idx nth fold_left seq Nat.sub].
  eliminate_rows 1%nat.
Qed.

Lemma rect_step1 :
  1 / 10000000000 <= h ->
  eliminate [1; 2; 3; 4; 5; 6; 7]%nat 8 (rectA1 w h) (rectB1 w h)
  = eliminate [2; 3; 4; 5; 6; 7]%nat 8 (rectA2 w h) (rectB2 w h).
Proof.
  intros Hpivot.
  rewrite eliminate_cons, rect_pivot1.
  rewrite I_ltb_false by (cbv [lit Ideal I.lit]; cbn; exact Hpivot).
  cbv [seq Nat.sub]. rewrite rect_rows1. reflexivity.
Qed.

Lemma rect_pivot2 : find_pivot (rectA2 w h) 2 8 = (1, 2%nat).
Proof.
  unfold find_pivot, rectA2. cbv [seq Nat.sub].
  pivot_search.
Qed.

Lemma rect_rows2 :
  foldM (eliminate_row 2 8) [3; 4; 5; 6; 7]%nat
        (swap_rows (rectA2 w h) 2 2 8, swap_B (rectB2 w h) 2 2)
  = Some (rectA3 w h, rectB3 w h).
Proof.
  unfold rectA2, rectB2, rectA3, rectB3.
  cbv [swap_rows swap_B A_get A_set set_nth idx nth fold_left seq Nat.sub].
  eliminate_rows 2%nat.
Qed.

Lemma rect_step2 :
  1 / 10000000000 <= 1 ->
  eliminate [2; 3; 4; 5; 6; 7]%nat 8 (rectA2 w h) (rectB2 w h)
  = eliminate [3; 4; 5; 6; 7]%nat 8 (rectA3 w h) (rectB3 w h).
Proof.
  intros Hpivot.
  rewrite eliminate_cons, rect_pivot2.
  rewrite I_ltb_false by (cbv [lit Ideal I.lit]; cbn; exact Hpivot).
  cbv [seq Nat.sub]. rewrite rect_rows2. reflexivity.
Qed.

Lemma rect_pivot3 : find_pivot (rectA3 w h) 3 8 = (w, 3%nat).
Proof.
  unfold find_pivot, rectA3. cbv [seq Nat.sub].
  pivot_search.
Qed.

Lemma rect_rows3 :
  foldM (eliminate_row 3 8) [4; 5; 6; 7]%nat
        (swap_rows (rectA3 w h) 3 3 8, swap_B (rectB3 w h) 3 3)
  = Some (rectA4 w h, rectB4 w h).
Proof.
  unfold rectA3, rectB3, rectA4, rectB4.
  cbv [swap_rows swap_B A_get A_set set_nth idx nth fold_left seq Nat.sub].
  eliminate_rows 3%nat.
Qed.

Lemma rect_step3 :
  1 / 10000000000 <= w ->
  eliminate [3; 4; 5; 6; 7]%nat 8 (rectA3 w h) (rectB3 w h)
  = eliminate [4; 5; 6; 7]%nat 8 (rectA4 w h) (rectB4 w h).
Proof.
  intros Hpivot.
  rewrite eliminate_cons, rect_pivot3.
  rewrite I_ltb_false by (cbv [lit Ideal I.lit]; cbn; exact Hpivot).
  cbv [seq Nat.sub]. rewrite rect_rows3. reflexivity.
Qed.

Lemma rect_pivot4 : find_pivot (rectA4 w h) 4 8 = (h, 5%nat).
Proof.
  unfold find_pivot, rectA4. cbv [seq Nat.sub].
  pivot_search.
Qed.

Lemma rect_rows4 :
  foldM (eliminate_row 4 8) [5; 6; 7]%nat
        (swap_rows (rectA4 w h) 4 5 8, swap_B (rectB4 w h) 4 5)
  = Some (rectA5 w h, rectB5 w h).
Proof.
  unfold rectA4, rectB4, rectA5, rectB5.
  cbv [swap_rows swap_B A_get A_set set_nth idx nth fold_left seq Nat.sub].
  eliminate_rows 4%nat.
Qed.

Lemma rect_step4 :
  1 / 10000000000 <= h ->
  eliminate [4; 5; 6; 7]%nat 8 (rectA4 w h) (rectB4 w h)
  = eliminate [5; 6; 7]%nat 8 (rectA5 w h) (rectB5 w h).
Proof.
  intros Hpivot.
  rewrite eliminate_cons, rect_pivot4.
  rewrite I_ltb_false by (cbv [lit Ideal I.lit]; cbn; exact Hpivot).
  cbv [seq Nat.sub]. rewrite rect_rows4. reflexivity.
Qed.

Lemma rect_pivot5 : find_pivot (rectA5 w h) 5 8 = (1, 5%nat).
Proof.
  unfold find_pivot, rectA5. cbv [seq Nat.sub].
  pivot_search.
Qed.

Lemma rect_rows5 :
  foldM (eliminate_row 5 8) [6; 7]%nat
        (swap_rows (rectA5 w h) 5 5 8, swap_B (rectB5 w h) 5 5)
  = Some (rectA6 w h, rectB6 w h).
Proof.
  unfold rectA5, rectB5, rectA6, rectB6.
  cbv [swap_rows swap_B A_get A_set set_nth idx nth fold_left seq Nat.sub].
  eliminate_rows 5%nat.
Qed.

Lemma rect_step5 :
  1 / 10000000000 <= 1 ->
  eliminate [5; 6; 7]%nat 8 (rectA5 w h) (rectB5 w h)
  = eliminate [6; 7]%nat 8 (rectA6 w h) (rectB6 w h).
Proof.
  intros Hpivot.
  rewrite eliminate_cons, rect_pivot5.
  rewrite I_ltb_false by (cbv [lit Ideal I.lit]; cbn; exact Hpivot).
  cbv [seq Nat.sub]. rewrite rect_rows5. reflexivity.
Qed.

Lemma rect_pivot6 : find_pivot (rectA6 w h) 6 8 = ((w * h), 7%nat).
Proof.
  unfold find_pivot, rectA6. cbv [seq Nat.sub].
  pivot_search.
Qed.

Lemma rect_rows6 :
  foldM (eliminate_row 6 8) [7]%nat
        (swap_rows (rectA6 w h) 6 7 8, swap_B (rectB6 w h) 6 7)
  = Some (rectA7 w h, rectB7 w h).
Proof.
  unfold rectA6, rectB6, rectA7, rectB7.
  cbv [swap_rows swap_B A_get A_set set_nth idx nth fold_left seq Nat.sub].
  eliminate_rows 6%nat.
Qed.

Lemma rect_step6 :
  1 / 10000000000 <= (w * h) ->
  eliminate [6; 7]%nat 8 (rectA6 w h) (rectB6 w h)
  = eliminate [7]%nat 8 (rectA7 w h) (rectB7 w h).
Proof.
  intros Hpivot.
  rewrite eliminate_cons, rect_pivot6.
  rewrite I_ltb_false by (cbv [lit Ideal I.lit]; cbn; exact Hpivot).
  cbv [seq Nat.sub]. rewrite rect_rows6. reflexivity.
Qed.

Lemma rect_pivot7 : find_pivot (rectA7 w h) 7 8 = ((w * h), 7%nat).
Proof.
  unfold find_pivot, rectA7. cbv [seq Nat.sub].
  pivot_search.
Qed.

Lemma rect_rows7 :
  foldM (eliminate_row 7 8) []%nat
        (swap_rows (rectA7 w h) 7 7 8, swap_B (rectB7 w h) 7 7)
  = Some (rectA8 w h, rectB8 w h).
Proof.
  unfold rectA7, rectB7, rectA8, rectB8.
  cbv [swap_rows swap_B A_get A_set set_nth idx nth fold_left seq Nat.sub].
  eliminate_rows 7%nat.
Qed.

Lemma rect_step7 :
  1 / 10000000000 <= (w * h) ->
  eliminate [7]%nat 8 (rectA7 w h) (rectB7 w h)
  = eliminate []%nat 8 (rectA8 w h) (rectB8 w h).
Proof.
  intros Hpivot.
  rewrite eliminate_cons, rect_pivot7.
  rewrite I_ltb_false by (cbv [lit Ideal I.lit]; cbn; exact Hpivot).
  cbv [seq Nat.sub]. rewrite rect_rows7. reflexivity.
Qed.

Lemma rect_back_substitute :
  back_substitute 8 (rectA8 w h) (rectB8 w h) = Some [1; 0; 0; 0; 1; 0; 0; 0].
Proof.
  unfold back_substitute, rectA8, rectB8.
  cbv [seq rev app repeat int lit Ideal I.lit Z.leb Z.compare Z.mul Z.pow
       Z.pow_pos Pos.iter Pos.mul].
  match goal with |- context [foldM ?f _ _] => set (F := f) end.
  repeat (foldM_step; unfold F at 1;
          cbv [A_get idx nth fold_left seq Nat.sub jadd jsub jmul jdiv Ideal];
          rewrite I_div_some by lra;
          cbv [bind ret set_nth]).
  cbv [foldM]. apply f_equal. row_eq.
Qed.

Lemma rect_solution :
  1 / 10000000000 <= w -> 1 / 10000000000 <= h -> 1 / 10000000000 <= w * h ->
  solveLinearSystem (rectA0 w h) (rectB0 w h) = Some [1; 0; 0; 0; 1; 0; 0; 0].
Proof.
  intros Hw Hh Hwh. unfold solveLinearSystem.
  change (length (rectB0 w h)) with 8%nat.
  change (seq 0 8) with [0; 1; 2; 3; 4; 5; 6; 7]%nat.
  rewrite rect_step0, rect_step1, rect_step2, rect_step3, rect_step4,
    rect_step5, rect_step6, rect_step7 by lra.
  cbn [eliminate bind ret]. apply rect_back_substitute.
Qed.

(** Below the tolerance the first pivot search already gives up. *)
Lemma rect_below_tolerance :
  w < 1 / 10000000000 ->
  computeHomography w h (rectQuad w h) = Some [0; 0; 0; 0; 0; 0; 0; 0; 1].
Proof.
  intros Hw. unfold computeHomography, solveLinearSystem.
  destruct rect_systems as [-> ->].
  change (length (rectB0 w h)) with 8%nat.
  change (seq 0 8) with [0; 1; 2; 3; 4; 5; 6; 7]%nat.
  rewrite eliminate_cons, rect_pivot0.
  rewrite I_ltb_true by (cbv [lit Ideal I.lit]; cbn; exact Hw).
  cbv [bind ret repeat existsb isNaN isFinite Ideal negb orb app int lit I.lit
       Z.leb Z.compare Z.mul Z.pow Z.pow_pos Pos.iter Pos.mul].
  reflexivity.
Qed.

End Rect.

(** Above the tolerance the elimination runs to its end.  In exact
    arithmetic, for every rectangle whose width, height and area are at
    least the pivot tolerance [1e-10], the homography of the rectangle
    mapped to itself is the identity matrix. *)
Lemma computeHomography_rect_identity (w h : R) :
  (1 / 10000000000 <= w)%R -> (1 / 10000000000 <= h)%R ->
  (1 / 10000000000 <= w * h)%R ->
  computeHomography w h (rectQuad w h) = Some identity.
Proof.
  intros Hw Hh Hwh.
  assert (Hw0 : (0 < w)%R) by lra.
  assert (Hh0 : (0 < h)%R) by lra.
  unfold computeHomography.
  destruct (rect_systems w h) as [-> ->].
  rewrite (rect_solution w h Hw0 Hh0 Hw Hh Hwh).
  reflexivity.
Qed.

Lemma computeHomography_rect_identity_witness :
  computeHomography 800%R 600%R (rectQuad 800%R 600%R) = Some identity.
Proof.
  apply (computeHomography_rect_identity 800%R 600%R); lra.
Defined.

(** C3 at a failing input.  The rectangle of width [1e-11] and height [1]
    mapped to itself is not degenerate, but its first pivot is
    [1e-11 < 1e-10]: the elimination gives up, the solver returns the zero
    vector, which is finite, so the [throw] that the [catch] would answer
    with the identity is not reached, and [computeHomography] returns
    [[0,0,0,0,0,0,0,0,1]], not the identity [[1,0,0,0,1,0,0,0,1]]; both
    readings agree.  For 800x600 the binary64 result is the identity,
    exactly. *)
Theorem computeHomography_thin_rectangle :
  let dst := rectQuad 1e-11%float 1%float in
  find_pivot (systemA 1e-11%float 1%float dst) 0 8 = (1e-11%float, 2%nat)
  /\ eliminate (seq 0 8) 8 (systemA 1e-11%float 1%float dst)
               (systemB 1e-11%float 1%float dst) = Some None
  /\ solveLinearSystem (systemA 1e-11%float 1%float dst)
                       (systemB 1e-11%float 1%float dst)
     = Some [0; 0; 0; 0; 0; 0; 0; 0]%float
  /\ computeHomography 1e-11%float 1%float dst
     = Some [0; 0; 0; 0; 0; 0; 0; 0; 1]%float
  /\ identity = [1; 0; 0; 0; 1; 0; 0; 0; 1]%float
  /\ computeHomography (1 / 100000000000)%R 1%R
                       (rectQuad (1 / 100000000000)%R 1%R)
     = Some [0; 0; 0; 0; 0; 0; 0; 0; 1]%R
  /\ computeHomography 800%float 600%float (rectQuad 800%float 600%float)
     = Some identity.
Proof.
  split; [vm_compute; reflexivity|].
  split; [vm_compute; reflexivity|].
  split; [vm_compute; reflexivity|].
  split; [vm_compute; reflexivity|].
  split; [vm_compute; reflexivity|].
  split; [apply rect_below_tolerance; lra|].
  vm_compute; reflexivity.
Qed.

(** ** Inverse of a 3x3 matrix *)

Lemma I_truthy_true (x : R) : x <> 0%R -> I.truthy x = true.
Proof.
  intros Hx. unfold I.truthy.
  destruct (Req_dec_T x 0); [contradiction | reflexivity].
Qed.

Lemma I_truthy_zero : I.truthy 0%R = false.
Proof.
  unfold I.truthy. destruct (Req_dec_T 0 0); [reflexivity | contradiction].
Qed.

Section Inverse.

Local Open Scope R_scope.

Variables m00 m01 m02 m10 m11 m12 m20 m21 m22 : R.

Let m : list R := [m00; m01; m02; m10; m11; m12; m20; m21; m22].

Lemma invertMatrix_left_inverse :
  det3 m <> 0 ->
  exists inv, invertMatrix m = Some inv /\ multiplyMatrix inv m = identity.
Proof.
  intros Hdet. unfold invertMatrix. fold (det3 m).
  cbn [truthy Ideal]. rewrite I_truthy_true by exact Hdet. cbn [negb].
  cbn [jdiv Ideal]. rewrite !I_div_some by exact Hdet. cbn [bind ret].
  eexists; split; [reflexivity|].
  revert Hdet. subst m. unfold identity, int. cbn. intros Hdet.
  repeat (apply f_equal2; [field; exact Hdet|]). reflexivity.
Qed.

End Inverse.

Lemma invertMatrix_singular_ideal (m : list R) :
  det3 m = 0%R -> invertMatrix m = Some identity.
Proof.
  intros Hdet. unfold invertMatrix. fold (det3 m). rewrite Hdet.
  cbn [truthy Ideal]. rewrite I_truthy_zero. reflexivity.
Qed.

Lemma invertMatrix_singular_ieee (m : list float) :
  PrimFloat.is_zero (det3 m) = true -> invertMatrix m = Some identity.
Proof.
  intros Hdet. unfold invertMatrix. fold (det3 m).
  cbn [truthy IEEE]. unfold F.truthy. rewrite Hdet. reflexivity.
Qed.

(** C4.  In exact arithmetic, for every 3x3 matrix [m] with a nonzero
    determinant [invertMatrix m] is defined and
    [multiplyMatrix (invertMatrix m) m] is the identity; and when the
    determinant the code computes is zero, in exact arithmetic as in binary64
    (where it is [+0] or [-0]), [invertMatrix] returns the identity matrix,
    which holds no NaN. *)
Theorem invertMatrix_correct :
  (forall m00 m01 m02 m10 m11 m12 m20 m21 m22 : R,
      let m := [m00; m01; m02; m10; m11; m12; m20; m21; m22] in
      det3 m <> 0%R ->
      exists inv, invertMatrix m = Some inv /\ multiplyMatrix inv m = identity)
  /\ (forall m : list R, det3 m = 0%R -> invertMatrix m = Some identity)
  /\ (forall m : list float,
         PrimFloat.is_zero (det3 m) = true -> invertMatrix m = Some identity)
  /\ existsb isNaN (identity (T := float)) = false.
Proof.
  split; [exact invertMatrix_left_inverse|].
  split; [exact invertMatrix_singular_ideal|].
  split; [exact invertMatrix_singular_ieee | reflexivity].
Qed.

Lemma invertMatrix_correct_witness :
  (exists inv, invertMatrix [2; 0; 0; 0; 4; 0; 1; 0; 1]%R = Some inv
               /\ multiplyMatrix inv [2; 0; 0; 0; 4; 0; 1; 0; 1]%R = identity)
  /\ invertMatrix [1; 2; 3; 2; 4; 6; 0; 0; 1]%R = Some identity
  /\ invertMatrix [1; 2; 3; 2; 4; 6; 0; 0; 1]%float = Some identity.
Proof.
  split; [|split].
  - apply (proj1 invertMatrix_correct 2 0 0 0 4 0 1 0 1)%R. cbn. lra.
  - apply (proj1 (proj2 invertMatrix_correct)). cbn. lra.
  - apply (proj1 (proj2 (proj2 invertMatrix_correct))). reflexivity.
Defined.

(** ** Fractional powers in exact arithmetic *)

Section IdealPower.

Local Open Scope R_scope.

Lemma I_pow_zero (b : R) : I.pow b 0 = Some 1.
Proof. unfold I.pow. destruct (Req_dec_T 0 0); [reflexivity | contradiction]. Qed.

Lemma I_pow_pos (b e : R) : 0 < b -> I.pow b e = Some (Rpower b e).
Proof.
  intros Hb. unfold I.pow.
  destruct (Req_dec_T e 0) as [-> | He].
  - rewrite Rpower_O by exact Hb. reflexivity.
  - destruct (Rlt_dec 0 b); [reflexivity | contradiction].
Qed.

Lemma I_pow_one (b : R) : I.pow b 1 = Some b.
Proof.
  unfold I.pow.
  destruct (Req_dec_T 1 0) as [H10 | _]; [lra|].
  destruct (Rlt_dec 0 b) as [Hb | Hb].
  - rewrite Rpower_1 by exact Hb. reflexivity.
  - destruct (Req_dec_T b 0) as [-> | Hb0].
    + destruct (Rlt_dec 0 1); [reflexivity | lra].
    + assert (H1 : Int_part 1 = 1%Z).
      { symmetry. apply (Int_part_spec 1 1). lra. }
      rewrite H1.
      destruct (Req_dec_T 1 1); [|contradiction].
      f_equal. unfold powerRZ. simpl. ring.
Qed.

Lemma clamp_bounds (x : R) : -1 <= Rmax (-1) (Rmin 1 x) <= 1.
Proof.
  split; [apply Rmax_l|].
  apply Rmax_lub; [lra | apply Rmin_l].
Qed.

Lemma I_acos_some (x : R) : -1 <= x <= 1 -> I.acos x = Some (acos x).
Proof.
  intros [H1 H2]. unfold I.acos.
  destruct (Rle_dec (-1) x); [|contradiction].
  destruct (Rle_dec x 1); [reflexivity | contradiction].
Qed.

(** The spiral branch, past the guard. *)
Lemma power_spiral (a b c d t : R) :
  deltaOf a b c d < - EPS ->
  EPS <= Rabs (sin (thetaOf a b c d)) ->
  let r := sqrt (a * d - b * c) in
  let theta := thetaOf a b c d in
  let f1 := Rpower r t * (sin ((1 - t) * theta) / sin theta) in
  let f2 := Rpower r t * (sin (t * theta) / sin theta) / r in
  getMatrixPower2x2 a b c d t
  = Some (mkMat2 (f1 * 1 + f2 * a) (f1 * 0 + f2 * b) (f1 * 0 + f2 * c) (f1 * 1 + f2 * d)).
Proof.
  intros Hd Hs r theta f1 f2. unfold deltaOf, EPS in Hd, Hs.
  assert (Hdet : 0 < a * d - b * c)
    by (pose proof (Rle_0_sqr (a + d)) as Hsq; unfold Rsqr in Hsq; lra).
  assert (Hr : 0 < r) by (apply sqrt_lt_R0; exact Hdet).
  assert (Hsin : sin theta <> 0).
  { intros E. unfold theta in E. rewrite E, Rabs_R0 in Hs. lra. }
  unfold getMatrixPower2x2. cbn.
  rewrite I_ltb_true by lra.
  rewrite I_sqrt_some by lra. cbn.
  rewrite I_div_some by (fold r; lra). cbn.
  rewrite I_acos_some by apply clamp_bounds. cbn.
  fold (thetaOf a b c d). fold theta. fold r.
  rewrite I_ltb_false by exact Hs.
  rewrite I_pow_pos by exact Hr. cbn.
  rewrite !I_div_some by assumption. cbn.
  rewrite I_div_some by lra. reflexivity.
Qed.

Lemma power_spiral_guard (a b c d t : R) :
  deltaOf a b c d < - EPS ->
  Rabs (sin (thetaOf a b c d)) < EPS ->
  getMatrixPower2x2 a b c d t = Some (mkMat2 1 0 0 1).
Proof.
  intros Hd Hs. unfold deltaOf, EPS in Hd, Hs.
  assert (Hdet : 0 < a * d - b * c) by (pose proof (Rle_0_sqr (a + d)) as Hsq; unfold Rsqr in Hsq; lra).
  assert (Hr : 0 < sqrt (a * d - b * c)) by (apply sqrt_lt_R0; exact Hdet).
  unfold getMatrixPower2x2. cbn.
  rewrite I_ltb_true by lra.
  rewrite I_sqrt_some by lra. cbn.
  rewrite I_div_some by lra. cbn.
  rewrite I_acos_some by apply clamp_bounds. cbn.
  rewrite I_ltb_true by exact Hs. reflexivity.
Qed.

(** The real branches. *)
Lemma power_repeated (a b c d t lt : R) :
  0 <= deltaOf a b c d -> sqrt (deltaOf a b c d) < EPS ->
  let l1 := (a + d - sqrt (deltaOf a b c d)) / 2 in
  l1 <> 0 ->
  I.pow l1 t = Some lt ->
  getMatrixPower2x2 a b c d t
  = Some (mkMat2 (lt * (1 + t * (a * (1 / l1) - 1))) (lt * (0 + t * (b * (1 / l1))))
                 (lt * (0 + t * (c * (1 / l1)))) (lt * (1 + t * (d * (1 / l1) - 1)))).
Proof.
  intros Hd Hs l1 Hl Hp. unfold EPS in Hs.
  unfold getMatrixPower2x2. cbn.
  fold (deltaOf a b c d).
  rewrite I_ltb_false by lra.
  rewrite I_sqrt_some by lra. cbn.
  rewrite !I_div_some by lra. cbn.
  fold l1.
  rewrite I_ltb_true.
  2:{ unfold l1. match goal with |- Rabs ?e < _ => replace e with (- sqrt (deltaOf a b c d)) by field end.
      rewrite Rabs_Ropp, Rabs_right; [lra|]. apply Rle_ge, sqrt_pos. }
  rewrite Hp. cbn. rewrite I_div_some by exact Hl. reflexivity.
Qed.

Lemma power_distinct (a b c d t l1t l2t : R) :
  0 <= deltaOf a b c d -> EPS <= sqrt (deltaOf a b c d) ->
  let l1 := (a + d - sqrt (deltaOf a b c d)) / 2 in
  let l2 := (a + d + sqrt (deltaOf a b c d)) / 2 in
  I.pow l1 t = Some l1t -> I.pow l2 t = Some l2t ->
  let c1 := (l1t * l2 - l2t * l1) * (1 / (l2 - l1)) in
  let c2 := (l2t - l1t) * (1 / (l2 - l1)) in
  getMatrixPower2x2 a b c d t
  = Some (mkMat2 (c1 + c2 * a) (0 + c2 * b) (0 + c2 * c) (c1 + c2 * d)).
Proof.
  intros Hd Hs l1 l2 Hp1 Hp2 c1 c2. unfold EPS in Hs.
  assert (Hdiff : l2 - l1 = sqrt (deltaOf a b c d)) by (unfold l1, l2; field).
  unfold getMatrixPower2x2. cbn.
  fold (deltaOf a b c d).
  rewrite I_ltb_false by lra.
  rewrite I_sqrt_some by lra. cbn.
  rewrite !I_div_some by lra. cbn.
  fold l1. fold l2.
  rewrite I_ltb_false.
  2:{ replace (l1 - l2) with (- sqrt (deltaOf a b c d)) by lra.
      rewrite Rabs_Ropp, Rabs_right; [lra|]. apply Rle_ge, sqrt_pos. }
  rewrite Hp1, Hp2. cbn. rewrite I_div_some by lra. reflexivity.
Qed.

Lemma power_endpoints_spiral (a b c d : R) :
  deltaOf a b c d < - EPS -> EPS <= Rabs (sin (thetaOf a b c d)) ->
  getMatrixPower2x2 a b c d 0 = Some (mkMat2 1 0 0 1)
  /\ getMatrixPower2x2 a b c d 1 = Some (mkMat2 a b c d).
Proof.
  intros Hd Hs.
  assert (Hdet : 0 < a * d - b * c).
  { unfold deltaOf, EPS in Hd. pose proof (Rle_0_sqr (a + d)) as Hsq.
    unfold Rsqr in Hsq. lra. }
  assert (Hr : 0 < sqrt (a * d - b * c)) by (apply sqrt_lt_R0; exact Hdet).
  assert (Hsin : sin (thetaOf a b c d) <> 0).
  { intros E. rewrite E, Rabs_R0 in Hs. unfold EPS in Hs. lra. }
  split; rewrite power_spiral by assumption; cbv zeta.
  - rewrite Rpower_O by exact Hr.
    replace ((1 - 0) * thetaOf a b c d) with (thetaOf a b c d) by ring.
    rewrite Rmult_0_l, sin_0.
    f_equal. f_equal; field; lra.
  - rewrite Rpower_1 by exact Hr.
    replace ((1 - 1) * thetaOf a b c d) with 0 by ring.
    rewrite Rmult_1_l, sin_0.
    f_equal. f_equal; field; lra.
Qed.

Lemma power_endpoints_repeated (a b c d : R) :
  0 <= deltaOf a b c d -> sqrt (deltaOf a b c d) < EPS -> eigen1 a b c d <> 0 ->
  getMatrixPower2x2 a b c d 0 = Some (mkMat2 1 0 0 1)
  /\ getMatrixPower2x2 a b c d 1 = Some (mkMat2 a b c d).
Proof.
  intros Hd Hs Hl. unfold eigen1 in Hl.
  split.
  - rewrite (@power_repeated a b c d 0 1 Hd Hs Hl (I_pow_zero _)).
    f_equal. f_equal; ring.
  - rewrite (@power_repeated a b c d 1 _ Hd Hs Hl (I_pow_one _)).
    f_equal. f_equal; field; intros E; apply Hl; lra.
Qed.

Lemma power_endpoints_distinct (a b c d : R) :
  0 <= deltaOf a b c d -> EPS <= sqrt (deltaOf a b c d) ->
  getMatrixPower2x2 a b c d 0 = Some (mkMat2 1 0 0 1)
  /\ getMatrixPower2x2 a b c d 1 = Some (mkMat2 a b c d).
Proof.
  intros Hd Hs.
  assert (Hdiff : a + d + sqrt (deltaOf a b c d)
                  - (a + d - sqrt (deltaOf a b c d)) <> 0).
  { unfold EPS in Hs. lra. }
  split.
  - rewrite (@power_distinct a b c d 0 1 1 Hd Hs (I_pow_zero _) (I_pow_zero _)).
    f_equal. f_equal; field; exact Hdiff.
  - rewrite (@power_distinct a b c d 1 _ _ Hd Hs (I_pow_one _) (I_pow_one _)).
    f_equal. f_equal; field; exact Hdiff.
Qed.

(** C2 (as amended).  In exact arithmetic, [getMatrixPower2x2] is the
    identity at [t = 0] and the matrix itself at [t = 1] for every matrix of
    the spiral regime ([delta < -1e-9]) whose [|sin theta|] reaches [1e-9],
    of the repeated regime ([0 <= delta], [sqrt delta < 1e-9]) with a
    nonzero eigenvalue, and of the distinct regime ([sqrt delta >= 1e-9]). *)
Theorem power_endpoints (a b c d : R) :
  endpointRegime a b c d ->
  getMatrixPower2x2 a b c d 0 = Some (mkMat2 1 0 0 1)
  /\ getMatrixPower2x2 a b c d 1 = Some (mkMat2 a b c d).
Proof.
  intros [[Hd Hs] | [(Hd & Hs & Hl) | [Hd Hs]]].
  - now apply power_endpoints_spiral.
  - now apply power_endpoints_repeated.
  - now apply power_endpoints_distinct.
Qed.

Lemma mat2_eq (T : Type) (a b c d a' b' c' d' : T) :
  a = a' -> b = b' -> c = c' -> d = d' -> mkMat2 a b c d = mkMat2 a' b' c' d'.
Proof. intros -> -> -> ->. reflexivity. Qed.

Lemma mul2_aff (a b c d x1 y1 x2 y2 : R) :
  mul2 (aff a b c d x1 y1) (aff a b c d x2 y2)
  = aff a b c d (x1 * x2 - (a * d - b * c) * (y1 * y2))
        (x1 * y2 + y1 * x2 + (a + d) * (y1 * y2)).
Proof. unfold mul2, aff. cbn. apply mat2_eq; ring. Qed.

Lemma trig_law_1 (th A B : R) :
  sin (th - A) * sin (th - B) - sin A * sin B = sin th * sin (th - (A + B)).
Proof.
  rewrite !sin_minus, sin_plus, cos_plus.
  pose proof (sin2_cos2 th) as H. unfold Rsqr in H.
  replace (sin th * (sin th * (cos A * cos B - sin A * sin B)
                     - cos th * (sin A * cos B + cos A * sin B)))
    with ((sin th * cos A - cos th * sin A) * (sin th * cos B - cos th * sin B)
          - sin A * sin B
          - (sin th * sin th + cos th * cos th - 1) * (sin A * sin B)) by ring.
  rewrite H. ring.
Qed.

Lemma trig_law_2 (th A B : R) :
  sin (th - A) * sin B + sin A * sin (th - B) + 2 * cos th * (sin A * sin B)
  = sin th * sin (A + B).
Proof. rewrite !sin_minus, sin_plus. ring. Qed.

(** In the spiral regime the trace is [2 r cos theta] and the determinant
    [r^2]. *)
Lemma spiral_polar (a b c d : R) :
  deltaOf a b c d < - EPS ->
  let r := sqrt (a * d - b * c) in
  0 < r /\ a * d - b * c = r * r /\ a + d = 2 * r * cos (thetaOf a b c d).
Proof.
  intros Hd r. unfold deltaOf, EPS in Hd.
  assert (Hdet : 0 < a * d - b * c)
    by (pose proof (Rle_0_sqr (a + d)) as Hsq; unfold Rsqr in Hsq; lra).
  assert (Hr : 0 < r) by (apply sqrt_lt_R0; exact Hdet).
  assert (Hrr : r * r = a * d - b * c) by (apply sqrt_sqrt; lra).
  split; [exact Hr|]. split; [lra|].
  assert (Hq : -1 <= (a + d) / (2 * r) <= 1).
  { split.
    - apply Rmult_le_reg_r with (2 * r); [lra|].
      unfold Rdiv. rewrite Rmult_assoc, Rinv_l by lra. nra.
    - apply Rmult_le_reg_r with (2 * r); [lra|].
      unfold Rdiv. rewrite Rmult_assoc, Rinv_l by lra. nra. }
  unfold thetaOf. fold r.
  rewrite (Rmin_right 1) by lra. rewrite Rmax_right by lra.
  rewrite cos_acos by exact Hq. field. lra.
Qed.

Lemma aff_ext (a b c d x y x' y' : R) :
  x = x' -> y = y' -> aff a b c d x y = aff a b c d x' y'.
Proof. intros -> ->. reflexivity. Qed.

Lemma power_spiral_aff (a b c d t : R) :
  deltaOf a b c d < - EPS ->
  EPS <= Rabs (sin (thetaOf a b c d)) ->
  let r := sqrt (a * d - b * c) in
  let theta := thetaOf a b c d in
  getMatrixPower2x2 a b c d t
  = Some (aff a b c d (Rpower r t * (sin ((1 - t) * theta) / sin theta))
              (Rpower r t * (sin (t * theta) / sin theta) / r)).
Proof.
  intros Hd Hs r theta. rewrite power_spiral by assumption. cbv zeta.
  subst r theta. f_equal. unfold aff. apply mat2_eq; ring.
Qed.

Lemma powerLaw_spiral (a b c d s t : R) :
  deltaOf a b c d < - EPS -> powerLaw a b c d s t.
Proof.
  intros Hd.
  destruct (Rlt_dec (Rabs (sin (thetaOf a b c d))) EPS) as [Hg | Hg].
  - exists (mkMat2 1 0 0 1), (mkMat2 1 0 0 1), (mkMat2 1 0 0 1).
    rewrite !power_spiral_guard by assumption.
    repeat split. unfold mul2. cbn. apply mat2_eq; ring.
  - apply Rnot_lt_le in Hg.
    destruct (spiral_polar a b c d Hd) as (Hr & Hdet & Htr).
    set (r := sqrt (a * d - b * c)) in *.
    set (th := thetaOf a b c d) in *.
    assert (Hsin : sin th <> 0).
    { intros E. rewrite E, Rabs_R0 in Hg. unfold EPS in Hg. lra. }
    do 3 eexists.
    split; [apply power_spiral_aff; assumption|].
    split; [apply power_spiral_aff; assumption|].
    split; [apply power_spiral_aff; assumption|].
    fold r. fold th.
    rewrite mul2_aff. rewrite Hdet, Htr.
    pose proof (trig_law_1 th (s * th) (t * th)) as T1.
    pose proof (trig_law_2 th (s * th) (t * th)) as T2.
    replace (th - s * th) with ((1 - s) * th) in T1, T2 by ring.
    replace (th - t * th) with ((1 - t) * th) in T1, T2 by ring.
    replace (th - (s * th + t * th)) with ((1 - (s + t)) * th) in T1 by ring.
    replace (s * th + t * th) with ((s + t) * th) in T2 by ring.
    rewrite Rpower_plus.
    apply aff_ext.
    + rewrite <- (Rmult_1_l (sin ((1 - (s + t)) * th))).
      replace (1 * sin ((1 - (s + t)) * th) / sin th)
        with (sin th * sin ((1 - (s + t)) * th) / (sin th * sin th))
        by (field; exact Hsin).
      rewrite <- T1. field. repeat split; first [exact Hsin | lra].
    + replace (sin ((s + t) * th) / sin th)
        with (sin th * sin ((s + t) * th) / (sin th * sin th))
        by (field; exact Hsin).
      rewrite <- T2. field. repeat split; first [exact Hsin | lra].
Qed.

(** The eigenvalues the real branches compute: their sum is the trace and
    their product the determinant. *)
Lemma eigen_sum_product (a b c d : R) :
  0 <= deltaOf a b c d ->
  a + d = eigen1 a b c d + eigen2 a b c d
  /\ a * d - b * c = eigen1 a b c d * eigen2 a b c d.
Proof.
  intros Hd. unfold eigen1, eigen2.
  pose proof (sqrt_sqrt _ Hd) as Hs.
  set (q := sqrt (deltaOf a b c d)) in *.
  split; [field|].
  unfold deltaOf in Hs. nra.
Qed.

Lemma power_distinct_aff (a b c d t : R) :
  0 <= deltaOf a b c d -> EPS <= sqrt (deltaOf a b c d) ->
  0 < eigen1 a b c d ->
  let l1 := eigen1 a b c d in
  let l2 := eigen2 a b c d in
  getMatrixPower2x2 a b c d t
  = Some (aff a b c d ((Rpower l1 t * l2 - Rpower l2 t * l1) / (l2 - l1))
              ((Rpower l2 t - Rpower l1 t) / (l2 - l1))).
Proof.
  intros Hd Hs Hl l1 l2.
  assert (Hdiff : l2 - l1 = sqrt (deltaOf a b c d))
    by (unfold l1, l2, eigen1, eigen2; field).
  assert (Hl2 : 0 < l2) by (unfold EPS in Hs; unfold l1 in Hdiff; lra).
  rewrite (@power_distinct a b c d t _ _ Hd Hs
             (I_pow_pos _ _ Hl) (I_pow_pos _ _ Hl2)).
  cbv zeta. fold (eigen1 a b c d) (eigen2 a b c d). fold l1 l2.
  f_equal. unfold aff. apply mat2_eq; field; unfold EPS in Hs; lra.
Qed.

Lemma powerLaw_distinct (a b c d s t : R) :
  0 <= deltaOf a b c d -> EPS <= sqrt (deltaOf a b c d) ->
  0 < eigen1 a b c d ->
  powerLaw a b c d s t.
Proof.
  intros Hd Hs Hl.
  destruct (eigen_sum_product a b c d Hd) as [Htr Hdet].
  assert (Hdiff : eigen2 a b c d - eigen1 a b c d = sqrt (deltaOf a b c d))
    by (unfold eigen1, eigen2; field).
  do 3 eexists.
  split; [apply power_distinct_aff; assumption|].
  split; [apply power_distinct_aff; assumption|].
  split; [apply power_distinct_aff; assumption|].
  rewrite mul2_aff, Hdet, Htr, !Rpower_plus.
  set (l1 := eigen1 a b c d) in *. set (l2 := eigen2 a b c d) in *.
  unfold EPS in Hs.
  apply aff_ext; field; lra.
Qed.

Lemma power_repeated_aff (a b c d t : R) :
  deltaOf a b c d = 0 -> 0 < eigen1 a b c d ->
  let l := eigen1 a b c d in
  getMatrixPower2x2 a b c d t
  = Some (aff a b c d (Rpower l t * (1 - t)) (Rpower l t * t / l)).
Proof.
  intros Hd Hl l.
  assert (Hd0 : 0 <= deltaOf a b c d) by lra.
  assert (Hs : sqrt (deltaOf a b c d) < EPS).
  { rewrite Hd, sqrt_0. unfold EPS. lra. }
  assert (Hnz : (a + d - sqrt (deltaOf a b c d)) / 2 <> 0).
  { fold (eigen1 a b c d). lra. }
  rewrite (@power_repeated a b c d t _ Hd0 Hs Hnz (I_pow_pos _ _ Hl)).
  fold (eigen1 a b c d). fold l.
  f_equal. unfold aff. apply mat2_eq; field; unfold l; lra.
Qed.

Lemma powerLaw_repeated (a b c d s t : R) :
  deltaOf a b c d = 0 -> 0 < eigen1 a b c d ->
  powerLaw a b c d s t.
Proof.
  intros Hd Hl.
  assert (Hd0 : 0 <= deltaOf a b c d) by lra.
  destruct (eigen_sum_product a b c d Hd0) as [Htr Hdet].
  assert (Heq : eigen2 a b c d = eigen1 a b c d).
  { unfold eigen1, eigen2. rewrite Hd, sqrt_0. field. }
  rewrite Heq in Htr, Hdet.
  do 3 eexists.
  split; [apply power_repeated_aff; assumption|].
  split; [apply power_repeated_aff; assumption|].
  split; [apply power_repeated_aff; assumption|].
  rewrite mul2_aff, Hdet, Htr, !Rpower_plus.
  set (l := eigen1 a b c d) in *.
  apply aff_ext; field; lra.
Qed.

(** C5 (as amended).  In exact arithmetic the composition law
    [power(M, s) * power(M, t) = power(M, s + t)] holds for all exponents
    [s] and [t] when [M] has complex eigenvalues ([delta < -1e-9]) or
    positive real eigenvalues that are equal ([delta = 0]) or that the code
    tells apart ([sqrt delta >= 1e-9]); the spiral case
    [(1.1, -0.3, 0.3, 1.1)] and the stretch case [(2, 0, 0, 0.5)] are
    such matrices. *)
Theorem power_semigroup (a b c d s t : R) :
  lawRegime a b c d -> powerLaw a b c d s t.
Proof.
  intros [Hd | [Hl [Hd | [Hd Hs]]]].
  - now apply powerLaw_spiral.
  - now apply powerLaw_repeated.
  - now apply powerLaw_distinct.
Qed.

Lemma spiral_case : lawRegime (11 / 10) (- (3 / 10)) (3 / 10) (11 / 10).
Proof. left. unfold deltaOf, EPS. lra. Qed.

Lemma sqrt_ge (x y : R) : 0 <= x -> x * x <= y -> x <= sqrt y.
Proof.
  intros Hx Hxy. rewrite <- (sqrt_square x Hx). apply sqrt_le_1_alt. exact Hxy.
Qed.

Lemma sqrt_le (x y : R) : 0 <= x -> 0 <= y -> y <= x * x -> sqrt y <= x.
Proof.
  intros Hx Hy Hxy. rewrite <- (sqrt_square x Hx). apply sqrt_le_1_alt. exact Hxy.
Qed.

Lemma stretch_case : lawRegime 2 0 0 (5 / 10).
Proof.
  right.
  assert (Hd : deltaOf 2 0 0 (5 / 10) = (3 / 2) * (3 / 2)) by (unfold deltaOf; field).
  assert (Hs : sqrt (deltaOf 2 0 0 (5 / 10)) = 3 / 2).
  { rewrite Hd. apply sqrt_square. lra. }
  split.
  - unfold eigen1. rewrite Hs. lra.
  - right. rewrite Hs. unfold EPS. rewrite Hd. lra.
Qed.

End IdealPower.

Section IdealPowerCases.

Local Open Scope R_scope.

(** In the spiral regime [sin theta] is [sqrt (- delta / (4 det))]: the
    guard of the spiral branch fires when [- delta < 4 det EPS^2]. *)
Lemma spiral_sin (a b c d : R) :
  deltaOf a b c d < - EPS ->
  sin (thetaOf a b c d) = sqrt (- deltaOf a b c d / (4 * (a * d - b * c))).
Proof.
  intros Hd.
  destruct (spiral_polar a b c d Hd) as (Hr & Hdet & _).
  set (r := sqrt (a * d - b * c)) in *.
  unfold deltaOf, EPS in Hd.
  assert (Hq : -1 <= (a + d) / (2 * r) <= 1).
  { split.
    - apply Rmult_le_reg_r with (2 * r); [lra|].
      unfold Rdiv. rewrite Rmult_assoc, Rinv_l by lra. nra.
    - apply Rmult_le_reg_r with (2 * r); [lra|].
      unfold Rdiv. rewrite Rmult_assoc, Rinv_l by lra. nra. }
  unfold thetaOf. fold r.
  rewrite (Rmin_right 1) by lra. rewrite Rmax_right by lra.
  rewrite sin_acos by exact Hq. f_equal.
  unfold deltaOf, Rsqr. rewrite Hdet. field. lra.
Qed.

Lemma spiral_case_endpoints :
  endpointRegime (11 / 10) (- (3 / 10)) (3 / 10) (11 / 10).
Proof.
  left.
  assert (Hd : deltaOf (11 / 10) (- (3 / 10)) (3 / 10) (11 / 10) < - EPS)
    by (unfold deltaOf, EPS; lra).
  split; [exact Hd|].
  rewrite spiral_sin by exact Hd.
  rewrite Rabs_right by (apply Rle_ge, sqrt_pos).
  apply sqrt_ge; unfold EPS, deltaOf; [lra|].
  match goal with |- _ <= ?e => replace e with (9 / 130) by field end.
  lra.
Qed.

Lemma stretch_case_endpoints : endpointRegime 2 0 0 (5 / 10).
Proof.
  right. right.
  assert (Hd : deltaOf 2 0 0 (5 / 10) = (3 / 2) * (3 / 2))
    by (unfold deltaOf; field).
  rewrite Hd, sqrt_square by lra. unfold EPS. lra.
Qed.

(** A negative eigenvalue has no real power at a fractional exponent. *)
Lemma I_pow_negative_half (b : R) : b < 0 -> I.pow b (1 / 2) = None.
Proof.
  intros Hb. unfold I.pow.
  destruct (Req_dec_T (1 / 2) 0) as [E | _]; [lra|].
  destruct (Rlt_dec 0 b) as [Hp | _]; [lra|].
  destruct (Req_dec_T b 0) as [E | _]; [lra|].
  assert (Hi : Int_part (1 / 2) = 0%Z).
  { symmetry. apply (Int_part_spec (1 / 2) 0). lra. }
  rewrite Hi.
  destruct (Req_dec_T (1 / 2) 0) as [E | _]; [lra | reflexivity].
Qed.

Lemma power_negative_eigenvalues_undetermined :
  getMatrixPower2x2 (- 2) 0 0 (- 1) (1 / 2) = None.
Proof.
  unfold getMatrixPower2x2. cbn.
  match goal with |- context [I.sqrt ?e] => replace e with 1 by ring end.
  rewrite I_ltb_false by lra.
  rewrite I_sqrt_some by lra. rewrite sqrt_1. cbn.
  rewrite !I_div_some by lra. cbn.
  rewrite I_ltb_false.
  2:{ match goal with |- _ <= Rabs ?e => replace e with (Ropp 1) by field end.
      rewrite Rabs_Ropp, Rabs_R1. lra. }
  rewrite I_pow_negative_half by lra. reflexivity.
Qed.

(** The guard of the spiral branch fires in exact arithmetic too. *)
Lemma guard_matrix_regime :
  deltaOf guardA (- guardC) guardC guardA < - EPS
  /\ Rabs (sin (thetaOf guardA (- guardC) guardC guardA)) < EPS.
Proof.
  assert (Hd : deltaOf guardA (- guardC) guardC guardA = - (16 / 10000000000))
    by (unfold deltaOf, guardA, guardC; field).
  assert (Hlt : deltaOf guardA (- guardC) guardC guardA < - EPS)
    by (rewrite Hd; unfold EPS; lra).
  split; [exact Hlt|].
  rewrite spiral_sin by exact Hlt.
  rewrite Rabs_right by (apply Rle_ge, sqrt_pos).
  rewrite Hd.
  apply Rlt_le_trans with (sqrt (EPS * EPS)).
  - apply sqrt_lt_1_alt. split.
    + unfold guardA, guardC. apply Rle_mult_inv_pos; lra.
    + unfold guardA, guardC, EPS.
      match goal with
      | |- ?x / ?y < _ => apply (Rmult_lt_reg_r y); [lra|];
                          replace (x / y * y) with x by (field; lra)
      end.
      lra.
  - rewrite sqrt_square by (unfold EPS; lra). lra.
Qed.

Lemma power_guard_exact :
  getMatrixPower2x2 guardA (- guardC) guardC guardA 1 = Some (mkMat2 1 0 0 1)
  /\ 99999 < guardA.
Proof.
  destruct guard_matrix_regime as [Hd Hs].
  split; [apply power_spiral_guard; assumption|].
  unfold guardA. lra.
Qed.

End IdealPowerCases.

Lemma power_endpoints_witness :
  (getMatrixPower2x2 2 0 0 (5 / 10) 0 = Some (mkMat2 1 0 0 1)
   /\ getMatrixPower2x2 2 0 0 (5 / 10) 1 = Some (mkMat2 2 0 0 (5 / 10)))%R
  /\ (getMatrixPower2x2 (11 / 10) (- (3 / 10)) (3 / 10) (11 / 10) 0
      = Some (mkMat2 1 0 0 1)
      /\ getMatrixPower2x2 (11 / 10) (- (3 / 10)) (3 / 10) (11 / 10) 1
         = Some (mkMat2 (11 / 10) (- (3 / 10)) (3 / 10) (11 / 10)))%R.
Proof.
  split.
  - exact (power_endpoints _ _ _ _ stretch_case_endpoints).
  - exact (power_endpoints _ _ _ _ spiral_case_endpoints).
Defined.

Lemma power_semigroup_witness :
  powerLaw (11 / 10) (- (3 / 10)) (3 / 10) (11 / 10) (1 / 4) (1 / 2)
  /\ powerLaw 2 0 0 (5 / 10) (1 / 4) (1 / 2).
Proof.
  split.
  - exact (power_semigroup _ _ _ _ _ _ spiral_case).
  - exact (power_semigroup _ _ _ _ _ _ stretch_case).
Defined.

(** ** Fractional powers in binary64 *)

(** C2, as stated, fails in the spiral regime, by the guard on
    [sin theta].  In binary64, [M = (2^20, 2^-6, -2^-6, 2^20)] has the
    discriminant [-2^-10 < -1e-9]; [det = 2^40 + 2^-12] has the square root
    [2^20], so that [trace / (2 r) = 1], [theta = acos 1 = 0] and
    [sin theta = 0]: the guard [|sinTheta| < EPS] returns the identity for
    every [t], and at [t = 1] the result is the identity, not [M].  In
    exact arithmetic the same happens for [M = (guardA, -guardC, guardC,
    guardA)], whose diagonal is above [99999]. *)
Lemma power_guard_returns_identity :
  PrimFloat.sub (PrimFloat.mul 2097152 2097152)
                (PrimFloat.mul 4 (PrimFloat.sub (PrimFloat.mul 1048576 1048576)
                                               (PrimFloat.mul 0.015625 (-0.015625))))
  = (-0.0009765625)%float
  /\ PrimFloat.sqrt (PrimFloat.sub (PrimFloat.mul 1048576 1048576)
                                  (PrimFloat.mul 0.015625 (-0.015625)))
     = 1048576%float
  /\ F.acos 1 = Some 0%float
  /\ F.sin 0 = Some 0%float
  /\ getMatrixPower2x2 1048576%float 0.015625%float (-0.015625)%float
                       1048576%float 1%float
     = Some (mkMat2 1 0 0 1)%float
  /\ getMatrixPower2x2 guardA (- guardC)%R guardC guardA 1%R
     = Some (mkMat2 1 0 0 1)%R
  /\ (99999 < guardA)%R.
Proof.
  do 5 (split; [vm_compute; reflexivity|]).
  exact power_guard_exact.
Qed.

(** Two more inputs on which the end points fail (not by the guard): a
    discriminant in [[-1e-9, 0)] takes the real branch, whose
    [Math.sqrt(delta)] is NaN; and the zero matrix divides by its
    eigenvalue [0]. *)
Lemma power_endpoints_nan :
  getMatrixPower2x2 1%float 1e-5%float (-1e-5)%float 1%float 0%float
  = Some nanMatrix
  /\ getMatrixPower2x2 0%float 0%float 0%float 0%float 1%float = Some nanMatrix.
Proof. split; vm_compute; reflexivity. Qed.

(** C5, as stated, fails for a matrix with negative eigenvalues.  For
    [M = (-2, 0, 0, -1)], [Math.pow] of a negative base at the exponents
    [0.5] and [-0.5] is NaN, so both powers and their product are the NaN
    matrix, while the power at [0.5 + (-0.5) = 0] is the identity.  In exact
    arithmetic the power at [1/2] has no value. *)
Lemma power_law_negative_eigenvalues :
  getMatrixPower2x2 (-2)%float 0%float 0%float (-1)%float 0.5%float
  = Some nanMatrix
  /\ getMatrixPower2x2 (-2)%float 0%float 0%float (-1)%float (-0.5)%float
     = Some nanMatrix
  /\ getMatrixPower2x2 (-2)%float 0%float 0%float (-1)%float
                       (PrimFloat.add 0.5 (-0.5))
     = Some (mkMat2 1 0 0 1)%float
  /\ mul2 nanMatrix nanMatrix = nanMatrix
  /\ getMatrixPower2x2 (- 2)%R 0%R 0%R (- 1)%R (1 / 2)%R = None.
Proof.
  split; [vm_compute; reflexivity|].
  split; [vm_compute; reflexivity|].
  split; [vm_compute; reflexivity|].
  split; [vm_compute; reflexivity|].
  exact power_negative_eigenvalues_undetermined.
Qed.

Ltac decide_if b :=
  match goal with
  | |- context [if ?c then _ else _] => change c with b; cbv iota
  end.

(** C10.  If the trace and the determinant the code computes are zero (a
    nilpotent matrix: the repeated eigenvalue [l1] is [0]), then for every
    [t] strictly between [0] and [1] the four entries of the result are NaN:
    the repeated-eigenvalue branch divides by [l1] without a zero guard,
    [1 / l1] is infinite, and [Math.pow(l1, t) = 0] times an infinite or NaN
    factor is NaN.  No identity is substituted. *)
Theorem nilpotent_power_is_nan (a b c d t : float) :
  PrimFloat.is_zero (a + d) = true ->
  PrimFloat.is_zero (a * d - b * c) = true ->
  PrimFloat.ltb 0 t = true -> PrimFloat.ltb t 1 = true ->
  getMatrixPower2x2 a b c d t
  = Some nanMatrix.
Proof.
  intros Htr Hdet H0 H1.
  unfold getMatrixPower2x2.
  cbn [jadd jsub jmul jneg jdiv jlt Math_sqrt Math_abs Math_pow IEEE ma mb mc md].
  remember (a + d)%float as trace eqn:Etr.
  remember (a * d - b * c)%float as det eqn:Edet.
  clear Etr Edet.
  assert (Hnan : forall l x : float,
             PrimFloat.is_zero l = true ->
             (0 * (1 + t * (x * (1 / l) - 1)))%float = PrimFloat.nan
             /\ (0 * (0 + t * (x * (1 / l))))%float = PrimFloat.nan).
  { intros l x Hl.
    assert (Hinf : nonfinite (1 / l)).
    { destruct (is_zero_cases l Hl) as [-> | ->]; reflexivity. }
    split; apply zero_mul_nonfinite.
    - apply nonfinite_one_add, nonfinite_mul_r, nonfinite_sub_one,
        nonfinite_mul_r, Hinf.
    - apply nonfinite_zero_add, nonfinite_mul_r, nonfinite_mul_r, Hinf. }
  destruct (is_zero_cases trace Htr) as [-> | ->];
    destruct (is_zero_cases det Hdet) as [-> | ->];
    decide_if false; cbn [bind]; decide_if true;
    (rewrite pow_zero_unit by (reflexivity || assumption));
    cbn [bind ret]; unfold int; cbn [lit IEEE];
    change (F.lit 1 0) with 1%float; change (F.lit 0 0) with 0%float;
    change PrimFloat.zero with 0%float;
    match goal with
    | |- context [(1 / ?l)%float] =>
        let Hl := fresh in
        assert (Hl : PrimFloat.is_zero l = true) by reflexivity;
        destruct (Hnan l a Hl) as [Ea _]; destruct (Hnan l d Hl) as [Ed _];
        destruct (Hnan l b Hl) as [_ Eb]; destruct (Hnan l c Hl) as [_ Ec]
    end;
    rewrite Ea, Eb, Ec, Ed; reflexivity.
Qed.

Lemma nilpotent_power_is_nan_witness :
  getMatrixPower2x2 0%float 1%float 0%float 0%float 0.5%float = Some nanMatrix.
Proof.
  apply (nilpotent_power_is_nan 0%float 1%float 0%float 0%float 0.5%float);
    reflexivity.
Defined.

(** ** The loop scale *)

Section LoopScale.

Local Open Scope R_scope.

Lemma scaleOf_some (areaFull areaQuad : R) :
  0 <= areaFull ->
  scaleOf areaFull areaQuad = Some (sqrt (areaFull / Rmax 1 areaQuad)).
Proof.
  intros Hf. unfold scaleOf. cbn.
  assert (Hm : 1 <= Rmax 1 areaQuad) by apply Rmax_l.
  rewrite I_div_some by lra. cbn.
  apply I_sqrt_some. apply Rle_mult_inv_pos; lra.
Qed.

Lemma scaleOf_monotone (areaFull a a' : R) :
  0 < areaFull -> a' < a ->
  sqrt (areaFull / Rmax 1 a) <= sqrt (areaFull / Rmax 1 a')
  /\ (1 < a -> sqrt (areaFull / Rmax 1 a) < sqrt (areaFull / Rmax 1 a')).
Proof.
  intros Hf Ha.
  assert (Hm : 1 <= Rmax 1 a) by apply Rmax_l.
  assert (Hm' : 1 <= Rmax 1 a') by apply Rmax_l.
  assert (Hle : Rmax 1 a' <= Rmax 1 a) by (apply Rle_max_compat_l; lra).
  assert (Hq : 0 <= areaFull / Rmax 1 a) by (apply Rle_mult_inv_pos; lra).
  split.
  - apply sqrt_le_1_alt. unfold Rdiv.
    apply Rmult_le_compat_l; [lra|]. apply Rinv_le_contravar; lra.
  - intros H1. apply sqrt_lt_1_alt. split; [exact Hq|].
    unfold Rdiv. apply Rmult_lt_compat_l; [lra|].
    apply Rinv_lt_contravar.
    + apply Rmult_lt_0_compat; lra.
    + rewrite (Rmax_right 1 a) by lra.
      apply Rmax_lub_lt; lra.
Qed.

(** The area [getQuadArea] computes for a square at the origin is its
    area. *)
Lemma areaQuadOf_square (iw s : R) :
  0 <= iw * s ->
  areaQuadOf iw iw (squareAtOrigin s) = (iw * s) * (iw * s).
Proof.
  intros Hs. unfold areaQuadOf. cbn.
  match goal with
  | |- _ * Rabs ?e = _ => replace e with (2 * ((iw * s) * (iw * s))) by ring
  end.
  rewrite Rabs_right by nra. lra.
Qed.

End LoopScale.

(** In the area [getQuadArea] computes, and in exact arithmetic, the loop
    scale [sqrt (areaFull / max (1, areaQuad))] never decreases when that
    area shrinks, and it strictly increases when the larger of the two areas
    exceeds one square pixel, the floor the code puts under [areaQuad]. *)
Lemma loopScale_monotone (iw ih : R) (quad quad' : Quad R) :
  (0 < iw)%R -> (0 < ih)%R ->
  (areaQuadOf iw ih quad' < areaQuadOf iw ih quad)%R ->
  exists s s',
    loopScale iw ih quad = Some s /\ loopScale iw ih quad' = Some s'
    /\ (s <= s')%R
    /\ ((1 < areaQuadOf iw ih quad)%R -> (s < s')%R).
Proof.
  intros Hw Hh Ha.
  assert (Hf : (0 < iw * ih)%R) by (apply Rmult_lt_0_compat; assumption).
  unfold loopScale. cbn [jmul Ideal].
  do 2 eexists.
  split; [apply scaleOf_some; lra|].
  split; [apply scaleOf_some; lra|].
  now apply scaleOf_monotone.
Qed.

Lemma loopScale_monotone_witness :
  exists s s',
    loopScale 2%R 2%R (squareAtOrigin 1%R) = Some s
    /\ loopScale 2%R 2%R (squareAtOrigin (5 / 10)%R) = Some s'
    /\ (s <= s')%R
    /\ ((1 < areaQuadOf 2%R 2%R (squareAtOrigin 1%R))%R -> (s < s')%R).
Proof.
  apply (@loopScale_monotone 2%R 2%R (squareAtOrigin 1%R)
                             (squareAtOrigin (5 / 10)%R)); try lra.
  rewrite !areaQuadOf_square by lra. lra.
Defined.

(** Under the floor the loop scale does not move: on a 2x2 image the
    squares of sides [0.25] and [0.125] (areas [0.25] and [0.0625] square
    pixels) both fall under [Math.max(1, areaQuad)], and the smaller quad
    has the same loop scale [2]; both readings agree. *)
Lemma loopScale_not_strict :
  loopScale 2%float 2%float (squareAtOrigin 0.25%float) = Some 2%float
  /\ loopScale 2%float 2%float (squareAtOrigin 0.125%float) = Some 2%float
  /\ PrimFloat.ltb (areaQuadOf 2%float 2%float (squareAtOrigin 0.125%float))
                   (areaQuadOf 2%float 2%float (squareAtOrigin 0.25%float)) = true
  /\ loopScale 2%R 2%R (squareAtOrigin (1 / 4)%R) = Some 2%R
  /\ loopScale 2%R 2%R (squareAtOrigin (1 / 8)%R) = Some 2%R
  /\ (areaQuadOf 2%R 2%R (squareAtOrigin (1 / 8)%R)
      < areaQuadOf 2%R 2%R (squareAtOrigin (1 / 4)%R))%R.
Proof.
  assert (Hs : forall s : R, (0 <= s <= 1 / 2)%R ->
                             loopScale 2%R 2%R (squareAtOrigin s) = Some 2%R).
  { intros s Hs. unfold loopScale. cbn [jmul Ideal].
    rewrite scaleOf_some by lra. rewrite areaQuadOf_square by lra.
    rewrite Rmax_left by nra. f_equal.
    replace (2 * 2 / 1)%R with (2 * 2)%R by field.
    apply sqrt_square. lra. }
  repeat split; try reflexivity.
  - apply Hs; lra.
  - apply Hs; lra.
  - rewrite !areaQuadOf_square by lra. lra.
Qed.

(** The area in the words of the specification and the area [getQuadArea]
    computes, for the axis-aligned square between [(lo, lo)] and
    [(hi, hi)]: the two differ by [lo * (hi - lo)] pixels squared, times the
    image area. *)
Lemma areas_of_square (iw lo hi : R) :
  (0 <= iw)%R -> (0 <= lo <= hi)%R ->
  spec_quadArea (qPoints iw iw (centeredSquare lo hi))
  = ((iw * (hi - lo)) * (iw * (hi - lo)))%R
  /\ areaQuadOf iw iw (centeredSquare lo hi)
     = ((iw * (hi - lo)) * (iw * (hi - lo) + iw * hi) / 2)%R.
Proof.
  intros Hw Hlh.
  assert (H0 : (0 <= iw * (hi - lo))%R) by (apply Rmult_le_pos; lra).
  assert (H1 : (0 <= iw * hi)%R) by (apply Rmult_le_pos; lra).
  unfold areaQuadOf, spec_quadArea. cbn.
  split.
  - match goal with
    | |- (_ * Rabs ?e)%R = _ =>
        replace e with (2 * ((iw * (hi - lo)) * (iw * (hi - lo))))%R by ring
    end.
    rewrite Rabs_right by nra. field.
  - match goal with
    | |- (_ * Rabs ?e)%R = _ =>
        replace e with ((iw * (hi - lo)) * (iw * (hi - lo) + iw * hi))%R by ring
    end.
    rewrite Rabs_right by nra. field.
Qed.

(** C8 at a failing input.  On a 1000x1000 image the square between
    [(0, 0)] and [(0.5, 0.5)] has area [250000] and loop scale [2]; the
    square between [(0.5, 0.5)] and [(0.99, 0.99)] is smaller, of area
    [240100], but [getQuadArea] computes [362600] for it (it adds
    [p4.y * p1.x] where the shoelace formula has [p4.x * p1.y]), and its
    loop scale is [sqrt (1000000 / 362600)], about [1.66]: the loop scale
    falls where the claim says it rises.  Both readings agree. *)
Theorem loopScale_falls_with_area :
  (spec_quadArea (qPoints 1000 1000 (centeredSquare 0 (1 / 2))) = 250000
   /\ spec_quadArea (qPoints 1000 1000 (centeredSquare (1 / 2) (99 / 100)))
      = 240100
   /\ areaQuadOf 1000 1000 (centeredSquare 0 (1 / 2)) = 250000
   /\ areaQuadOf 1000 1000 (centeredSquare (1 / 2) (99 / 100)) = 362600
   /\ loopScale 1000 1000 (centeredSquare 0 (1 / 2)) = Some 2
   /\ loopScale 1000 1000 (centeredSquare (1 / 2) (99 / 100))
      = Some (sqrt (1000000 / 362600))
   /\ sqrt (1000000 / 362600) < 2)%R
  /\ (let small := centeredSquare 0.5%float 0.99%float in
      let large := centeredSquare 0%float 0.5%float in
      PrimFloat.ltb (spec_quadArea (qPoints 1000 1000 small))
                    (spec_quadArea (qPoints 1000 1000 large)) = true
      /\ loopScale 1000 1000 large = Some 2
      /\ loopScale 1000 1000 small = Some 1.6606805534831326
      /\ PrimFloat.ltb 1.6606805534831326 2 = true)%float.
Proof.
  split.
  - destruct (areas_of_square 1000 0 (1 / 2)) as [S1 A1]; [lra|lra|].
    destruct (areas_of_square 1000 (1 / 2) (99 / 100)) as [S2 A2]; [lra|lra|].
    assert (E1 : (areaQuadOf 1000 1000 (centeredSquare 0 (1 / 2))
                  = 250000)%R) by (rewrite A1; field).
    assert (E2 : (areaQuadOf 1000 1000 (centeredSquare (1 / 2) (99 / 100))
                  = 362600)%R) by (rewrite A2; field).
    split; [rewrite S1; field|]. split; [rewrite S2; field|].
    split; [exact E1|]. split; [exact E2|].
    split; [|split].
    + unfold loopScale. cbn [jmul Ideal]. rewrite scaleOf_some by lra.
      rewrite E1. rewrite Rmax_right by lra. f_equal.
      replace (1000 * 1000 / 250000)%R with (2 * 2)%R by field.
      apply sqrt_square. lra.
    + unfold loopScale. cbn [jmul Ideal]. rewrite scaleOf_some by lra.
      rewrite E2. rewrite Rmax_right by lra. f_equal. f_equal. field.
    + replace 2%R with (sqrt (2 * 2)) at 1 by (apply sqrt_square; lra).
      apply sqrt_lt_1_alt. lra.
  - repeat split; vm_compute; reflexivity.
Qed.

(** In binary64 a quad that shrinks by one rounding can leave the loop
    scale where it is, also above the floor: on a 2x2 image the squares of
    sides [1] and [0.9999999999999999] both have the loop scale [1]. *)
Lemma loopScale_rounding :
  loopScale 2%float 2%float (squareAtOrigin 1%float) = Some 1%float
  /\ loopScale 2%float 2%float (squareAtOrigin 0.9999999999999999%float)
     = Some 1%float
  /\ PrimFloat.ltb
       (areaQuadOf 2%float 2%float (squareAtOrigin 0.9999999999999999%float))
       (areaQuadOf 2%float 2%float (squareAtOrigin 1%float)) = true
  /\ PrimFloat.ltb 1%float
       (areaQuadOf 2%float 2%float (squareAtOrigin 0.9999999999999999%float))
     = true.
Proof. repeat split; vm_compute; reflexivity. Qed.

(** ** The export scenario *)

Section ExportSchedule.

Local Open Scope R_scope.

Lemma I_log_some (x : R) : 0 < x -> I.log x = Some (ln x).
Proof.
  intros Hx. unfold I.log.
  destruct (Rlt_dec 0 x); [reflexivity | contradiction].
Qed.

Lemma ln_pos (x : R) : 1 < x -> 0 < ln x.
Proof. intros Hx. rewrite <- ln_1. apply ln_increasing; lra. Qed.

(** The phase of frame [i] of a constant-speed zoom-in export. *)
Lemma framePhase_constant_in (scale total i : R) :
  1 < scale -> 0 < total -> 0 <= i ->
  framePhase scale true IN total i
  = Some (ln (1 + (scale - 1) * (i / total)) / ln scale).
Proof.
  intros Hs Ht Hi. unfold framePhase. cbn.
  rewrite I_div_some by lra. cbn.
  assert (Hq : 0 <= i / total) by (apply Rle_mult_inv_pos; lra).
  rewrite I_log_some by nra. cbn.
  rewrite I_log_some by lra. cbn.
  pose proof (ln_pos scale Hs).
  rewrite I_div_some by lra. reflexivity.
Qed.

Lemma export_scenario_area :
  areaQuadOf 800 600 (centeredSquare (1 / 4) (3 / 4)) = 150000.
Proof.
  unfold areaQuadOf, centeredSquare. cbn.
  match goal with
  | |- _ * Rabs ?e = _ => replace e with 300000 by field
  end.
  rewrite Rabs_pos_eq by lra. lra.
Qed.

Lemma export_scenario_scale :
  loopScale 800 600 (centeredSquare (1 / 4) (3 / 4)) = Some (sqrt (16 / 5))
  /\ sqrt (16 / 5) < 2.
Proof.
  split.
  - unfold loopScale. rewrite export_scenario_area. cbn [jmul Ideal].
    rewrite scaleOf_some by lra. rewrite Rmax_right by lra.
    do 2 f_equal. field.
  - apply Rlt_le_trans with (sqrt (2 * 2)).
    + apply sqrt_lt_1_alt. lra.
    + rewrite sqrt_square by lra. lra.
Qed.

Lemma framePhase_scale_two :
  framePhase 2 true IN 60 30 = Some (ln (3 / 2) / ln 2).
Proof.
  rewrite framePhase_constant_in by lra.
  do 3 f_equal. field.
Qed.

End ExportSchedule.

(** C6 at its scenario.  For the 800x600 image and the centered half-size
    quad, [getQuadArea] computes [150000] (the quad has area [120000]), so
    the loop scale is [sqrt 3.2 = 1.7888543819998317] in binary64 and
    [sqrt (16/5) < 2] in exact arithmetic, not [2.0].  The constant-speed
    export at speed [1.0] lasts [2] seconds, has [60] frames and a delay of
    [33] ms, and frame 30 is at [t = 0.5]; with a loop scale of [2] its
    phase would be [ln 1.5 / ln 2]. *)
Theorem export_scenario :
  areaQuadOf 800%float 600%float centeredHalf = 150000%float
  /\ loopScale 800%float 600%float centeredHalf = Some 1.7888543819998317%float
  /\ PrimFloat.sqrt 3.2%float = 1.7888543819998317%float
  /\ exportDuration 1.7888543819998317%float 1%float true = Some 2%float
  /\ totalFrames 2%float = 60%float
  /\ delay = Some 33%float
  /\ jdiv 30%float 60%float = Some 0.5%float
  /\ (exists s, loopScale 800%R 600%R (centeredSquare (1 / 4) (3 / 4))%R = Some s
                /\ (s < 2)%R)
  /\ framePhase 2%R true IN 60%R 30%R = Some (ln (3 / 2) / ln 2)%R.
Proof.
  do 7 (split; [vm_compute; reflexivity|]).
  split.
  - exists (sqrt (16 / 5)). exact export_scenario_scale.
  - exact framePhase_scale_two.
Qed.

(** ** The zoom loop *)

Section ZoomLoop.

Local Open Scope R_scope.

Lemma zoomStep_additive (direction : AnimationDirection) (speed dt limit z : R) :
  0 <= speed * dt -> 1 < limit -> 1 <= z < limit ->
  speed * dt * (5 / 10) <= 1 ->
  exists z', zoomStep true direction speed dt limit z = Some z'
             /\ 1 <= z' < limit.
Proof.
  intros Hsd Hl Hz Hstep.
  destruct direction; cbn; ideal_cases; eexists;
    (split; [reflexivity | nra]).
Qed.

Lemma zoomStep_in (speed dt limit z : R) :
  0 <= speed * dt -> 1 < limit -> 1 <= z < limit ->
  1 + speed * dt <= limit ->
  exists z', zoomStep false IN speed dt limit z = Some z'
             /\ 1 <= z' < limit.
Proof.
  intros Hsd Hl Hz Hstep. cbn. ideal_cases.
  - rewrite I_div_some by lra. eexists; split; [reflexivity|].
    split.
    + apply Rmult_le_reg_r with limit; [lra|].
      unfold Rdiv. rewrite Rmult_assoc, Rinv_l by lra. nra.
    + apply Rmult_lt_reg_r with limit; [lra|].
      unfold Rdiv. rewrite Rmult_assoc, Rinv_l by lra. nra.
  - eexists; split; [reflexivity | nra].
Qed.

Lemma zoomStep_out (direction : AnimationDirection) (speed dt limit z : R) :
  direction <> IN ->
  0 <= speed * dt -> 1 < limit -> 1 <= z < limit ->
  1 + speed * dt <= limit ->
  exists z', zoomStep false direction speed dt limit z = Some z'
             /\ 1 <= z' < limit.
Proof.
  intros Hdir Hsd Hl Hz Hstep.
  assert (Hq : z / (1 + speed * dt) * (1 + speed * dt) = z) by (field; lra).
  destruct direction; [contradiction | |];
    cbn; rewrite I_div_some by lra; cbn;
    set (q := z / (1 + speed * dt)) in *;
    ideal_cases; eexists; (split; [reflexivity | nra]).
Qed.

End ZoomLoop.

(** C7 (as amended).  In exact arithmetic, one update-and-wrap step of the
    animation loop keeps the zoom level inside [[1, loopScale)], for either
    direction and either mode, when [dt >= 0], [speed > 0], [loopScale > 1]
    and the tick advances by at most one loop ([smallStep]): the step wraps
    once, never twice.  In binary64 a rounding can put the result one unit
    in the last place outside ([zoomStep_rounding]). *)
Theorem zoomStep_invariant (constantSpeed : bool) (direction : AnimationDirection)
        (speed dt limit z : R) :
  (0 <= dt)%R -> (0 < speed)%R -> (1 < limit)%R -> (1 <= z < limit)%R ->
  smallStep constantSpeed speed dt limit ->
  exists z', zoomStep constantSpeed direction speed dt limit z = Some z'
             /\ (1 <= z' < limit)%R.
Proof.
  intros Hdt Hs Hl Hz Hstep.
  assert (Hsd : (0 <= speed * dt)%R) by nra.
  destruct constantSpeed; cbn in Hstep.
  - now apply zoomStep_additive.
  - destruct direction.
    + now apply zoomStep_in.
    + apply zoomStep_out; [discriminate | assumption ..].
    + apply zoomStep_out; [discriminate | assumption ..].
Qed.

Lemma zoomStep_invariant_witness :
  exists z', zoomStep false IN 1%R (5 / 10)%R 2%R (15 / 10)%R = Some z'
             /\ (1 <= z' < 2)%R.
Proof.
  apply (zoomStep_invariant false IN 1%R (5 / 10)%R 2%R (15 / 10)%R);
    cbn; lra.
Defined.

(** C7, as stated, fails: a tick of four seconds at speed 1 (a tab that was
    in the background) takes the zoom level from [1] to the loop scale [2]
    itself in the constant-speed mode, and to [2.5] in the multiplicative
    mode; both readings agree. *)
Lemma zoomStep_leaves_range :
  zoomStep true IN 1%float 4%float 2%float 1%float = Some 2%float
  /\ zoomStep false IN 1%float 4%float 2%float 1%float = Some 2.5%float
  /\ zoomStep true IN 1%R 4%R 2%R 1%R = Some 2%R
  /\ zoomStep false IN 1%R 4%R 2%R 1%R = Some (5 / 2)%R.
Proof.
  split; [reflexivity|]. split; [reflexivity|]. split.
  - cbn. rewrite I_leb_true by lra. unfold ret. f_equal. lra.
  - cbn. rewrite I_leb_true by lra. rewrite I_div_some by lra. f_equal. lra.
Qed.

(** In binary64 the bounds of C7 are met up to one rounding only, also for
    a tick of at most one loop.  Zooming out by the factor [49] from [1]
    and wrapping gives [(1 / 49) * 49 = 0.9999999999999999], below [1]; in
    the constant-speed mode the sum [1.9999999999999998 + 1] rounds to [3]
    and wraps to the loop scale [2] itself. *)
Lemma zoomStep_rounding :
  zoomStep false OUT 48%float 1%float 49%float 1%float
  = Some 0.9999999999999999%float
  /\ PrimFloat.ltb 0.9999999999999999%float 1%float = true
  /\ PrimFloat.leb (1 + 48 * 1)%float 49%float = true
  /\ zoomStep true IN 1%float 2%float 2%float 1.9999999999999998%float
     = Some 2%float
  /\ PrimFloat.ltb 1.9999999999999998%float 2%float = true
  /\ PrimFloat.leb (1 * 2 * 0.5)%float 1%float = true.
Proof. repeat split; vm_compute; reflexivity. Qed.

(** ** Grid-cell culling *)

(** C9 at a failing input.  Image and canvas of 1000x1000, the centered
    tenth-size quad, phase [0], interactive mode: in the first layer
    ([j = -2], grid size [10]) the cell [(6, 5)] has the projected corners
    [(10500, 500)], [(20500, 500)], [(10500, 10500)], [(20500, 10500)].
    Their centroid, of the three corners the cull reads or of all four, is
    more than 5000 units right of the viewport rectangle (whose right edge
    is near [1055.6]); but the code tests [cx = 10500 / 3 = 3500], the first
    truthy operand of the [||] chain divided by 3, and reaches both
    triangle draws. *)
Theorem renderCell_draws_far_cell :
  exists layerMatrix cullRect p1 p2 p3 p4,
    firstLayerMatrix 1000%float 1000%float centeredTenth 0%float = Some layerMatrix
    /\ layerGrid layerMatrix 1000%float 1000%float false = Some (Some 10%float)
    /\ cullRectOf 1000%float 1000%float 1000%float 1000%float = Some cullRect
    /\ cellCorners layerMatrix 10%float 1000%float 1000%float 6%float 5%float
       = Some [Some p1; Some p2; Some p3; Some p4]
    /\ [p1; p2; p3; p4]
       = [mkPoint 10500 500; mkPoint 20500 500;
          mkPoint 10500 10500; mkPoint 20500 10500]%float
    /\ spec_cellCulled [p1; p2; p3] cullRect = Some true
    /\ spec_cellCulled [p1; p2; p3; p4] cullRect = Some true
    /\ jdiv (firstTruthy (@px float) (Some p1) (Some p2) (Some p3)) 3%float
       = Some 3500%float
    /\ renderCell layerMatrix cullRect 10%float 1000%float 1000%float 6%float 5%float
       = Some (Reached true true).
Proof.
  do 6 eexists.
  split; [vm_compute; reflexivity|].
  split; [vm_compute; reflexivity|].
  split; [vm_compute; reflexivity|].
  split; [vm_compute; reflexivity|].
  repeat split; vm_compute; reflexivity.
Qed.

(** ** Literals and arrays *)

Lemma int_IZR (n : Z) : @int R Ideal n = IZR n.
Proof.
  unfold int. cbn [lit Ideal I.lit Z.leb Z.compare Z.pow].
  now rewrite Z.mul_1_r.
Qed.

Lemma lit_1em10_R : @lit R Ideal 1 (-10) = (1 / 10000000000)%R.
Proof. cbv [lit Ideal I.lit]. cbn. reflexivity. Qed.

Lemma lit_1em8 : @lit R Ideal 1 (-8) = (1 / 100000000)%R.
Proof. cbv [lit Ideal I.lit]. cbn. reflexivity. Qed.

Lemma lit_1em6 : @lit R Ideal 1 (-6) = (1 / 1000000)%R.
Proof. cbv [lit Ideal I.lit]. cbn. reflexivity. Qed.

Lemma lit_1em4 : @lit R Ideal 1 (-4) = (1 / 10000)%R.
Proof. cbv [lit Ideal I.lit]. cbn. reflexivity. Qed.

Lemma lit_103 : @lit R Ideal 103 (-2) = (103 / 100)%R.
Proof. cbv [lit Ideal I.lit]. cbn. reflexivity. Qed.

Lemma lit_half : @lit R Ideal 5 (-1) = (5 / 10)%R.
Proof. cbv [lit Ideal I.lit]. cbn. reflexivity. Qed.

Lemma lit_09 : @lit R Ideal 9 (-1) = (9 / 10)%R.
Proof. cbv [lit Ideal I.lit]. cbn. reflexivity. Qed.

Lemma lit_02 : @lit R Ideal 2 (-1) = (2 / 10)%R.
Proof. cbv [lit Ideal I.lit]. cbn. reflexivity. Qed.

Lemma lit_11 : @lit R Ideal 11 (-1) = (11 / 10)%R.
Proof. cbv [lit Ideal I.lit]. cbn. reflexivity. Qed.

(** The literals of the exact reading, as real constants. *)
Ltac ideal_lits :=
  rewrite ?int_IZR, ?lit_1em10_R, ?lit_1em8, ?lit_1em6, ?lit_1em4, ?lit_103,
    ?lit_half, ?lit_09, ?lit_02, ?lit_11.

Ltac ideal_lits_in H :=
  rewrite ?int_IZR, ?lit_1em10_R, ?lit_1em8, ?lit_1em6, ?lit_1em4, ?lit_103,
    ?lit_half, ?lit_09, ?lit_02, ?lit_11 in H.

Lemma some_point_eq (x y x' y' : R) :
  x = x' -> y = y' -> Some (mkPoint x y) = Some (mkPoint x' y').
Proof. intros -> ->. reflexivity. Qed.

Lemma set_nth_length (X : Type) (l : list X) (i : nat) (v : X) :
  length (set_nth l i v) = length l.
Proof.
  revert i. induction l as [|x l IH]; intros [|i]; cbn; try reflexivity.
  now rewrite IH.
Qed.

Lemma nth_set_nth_eq (X : Type) (l : list X) (i : nat) (v d : X) :
  (i < length l)%nat -> nth i (set_nth l i v) d = v.
Proof.
  revert i. induction l as [|x l IH]; intros [|i] Hi; cbn in *; try lia.
  - reflexivity.
  - apply IH. lia.
Qed.

Lemma nth_set_nth_neq (X : Type) (l : list X) (i j : nat) (v d : X) :
  i <> j -> nth j (set_nth l i v) d = nth j l d.
Proof.
  revert i j. induction l as [|x l IH]; intros [|i] [|j] Hij; cbn;
    try reflexivity; try congruence.
  apply IH. congruence.
Qed.

(** ** The solver on rational numbers *)

Section RationalReading.

Lemma Q2R_inject_Z (z : Z) : Q2R (QArith_base.inject_Z z) = IZR z.
Proof.
  unfold Q2R, QArith_base.inject_Z. cbn. field.
Qed.

Lemma Q2R_red (x : QArith_base.Q) : Q2R (Qreduction.Qred x) = Q2R x.
Proof. apply Qreals.Qeq_eqR, Qreduction.Qred_correct. Qed.

Lemma Q2R_zero_iff (x : QArith_base.Q) :
  QArith_base.Qeq_bool x (QArith_base.inject_Z 0) = true <-> Q2R x = 0%R.
Proof.
  rewrite QArith_base.Qeq_bool_iff. split.
  - intros E. rewrite (Qreals.Qeq_eqR _ _ E). apply Q2R_inject_Z.
  - intros E. apply Qreals.eqR_Qeq. rewrite E. symmetry. apply Q2R_inject_Z.
Qed.

Lemma Q2R_int (z : Z) : Q2R (int z) = int z.
Proof.
  unfold int. cbn [lit Rational Ideal]. unfold Qn.lit, I.lit. cbn [Z.leb Z.compare].
  apply Q2R_inject_Z.
Qed.

Lemma Q2R_tolerance : Q2R (lit 1 (-10)) = lit 1 (-10).
Proof.
  cbn [lit Rational Ideal]. unfold Qn.lit, I.lit. cbn [Z.leb Z.compare].
  rewrite Q2R_red, Qreals.Q2R_div, !Q2R_inject_Z; [reflexivity|].
  intros E. apply Qreals.Qeq_eqR in E.
  rewrite Q2R_inject_Z, RMicromega.Q2R_0 in E.
  apply eq_IZR in E. discriminate E.
Qed.

Lemma Q2R_add (x y : QArith_base.Q) : Q2R (jadd x y) = jadd (Q2R x) (Q2R y).
Proof. cbn [jadd Rational Ideal]. unfold Qn.add. rewrite Q2R_red. apply Qreals.Q2R_plus. Qed.

Lemma Q2R_sub (x y : QArith_base.Q) : Q2R (jsub x y) = jsub (Q2R x) (Q2R y).
Proof. cbn [jsub Rational Ideal]. unfold Qn.sub. rewrite Q2R_red. apply Qreals.Q2R_minus. Qed.

Lemma Q2R_mul (x y : QArith_base.Q) : Q2R (jmul x y) = jmul (Q2R x) (Q2R y).
Proof. cbn [jmul Rational Ideal]. unfold Qn.mul. rewrite Q2R_red. apply Qreals.Q2R_mult. Qed.

Lemma Q2R_neg (x : QArith_base.Q) : Q2R (jneg x) = jneg (Q2R x).
Proof. cbn [jneg Rational Ideal]. unfold Qn.neg. apply Qreals.Q2R_opp. Qed.

Lemma Q2R_div (x y : QArith_base.Q) :
  jdiv (Q2R x) (Q2R y) = option_map Q2R (jdiv x y).
Proof.
  cbn [jdiv Rational Ideal]. unfold Qn.div, I.div.
  destruct (QArith_base.Qeq_bool y (QArith_base.inject_Z 0)) eqn:E.
  - apply Q2R_zero_iff in E.
    destruct (Req_dec_T (Q2R y) 0); [reflexivity | contradiction].
  - assert (Hy : Q2R y <> 0%R).
    { intros E'. apply Q2R_zero_iff in E'. congruence. }
    destruct (Req_dec_T (Q2R y) 0); [contradiction|].
    cbn [option_map]. rewrite Q2R_red, Qreals.Q2R_div; [reflexivity|].
    intros E'. apply Hy. rewrite (Qreals.Qeq_eqR _ _ E').
    apply (Q2R_inject_Z 0).
Qed.

Lemma Q2R_ltb (x y : QArith_base.Q) : jlt (Q2R x) (Q2R y) = jlt x y.
Proof.
  cbn [jlt Rational Ideal]. unfold Qn.ltb, I.ltb.
  destruct (QArith_base.Qcompare x y) eqn:E.
  - apply QArith_base.Qeq_alt in E. apply Qreals.Qeq_eqR in E.
    destruct (Rlt_dec (Q2R x) (Q2R y)); [lra | reflexivity].
  - apply QArith_base.Qlt_alt in E. apply Qreals.Qlt_Rlt in E.
    destruct (Rlt_dec (Q2R x) (Q2R y)); [reflexivity | contradiction].
  - apply QArith_base.Qgt_alt in E. apply Qreals.Qlt_Rlt in E.
    destruct (Rlt_dec (Q2R x) (Q2R y)); [lra | reflexivity].
Qed.

Lemma Q2R_abs (x : QArith_base.Q) : Math_abs (Q2R x) = Q2R (Math_abs x).
Proof.
  cbn [Math_abs Rational Ideal].
  apply (Qabs.Qabs_case x (fun a => Rabs (Q2R x) = Q2R a)); intros Hx.
  - apply Rabs_pos_eq. apply Qreals.Qle_Rle in Hx.
    rewrite RMicromega.Q2R_0 in Hx.
    exact Hx.
  - rewrite Qreals.Q2R_opp. apply Rabs_left1. apply Qreals.Qle_Rle in Hx.
    rewrite RMicromega.Q2R_0 in Hx.
    exact Hx.
Qed.

(** *** Arrays *)

Lemma idx_real (l : list QArith_base.Q) (i : nat) : idx ((map Q2R) l) i = Q2R (idx l i).
Proof.
  unfold idx. rewrite <- (Q2R_int 0). apply map_nth.
Qed.

Lemma row_real (A : list (list QArith_base.Q)) (k : nat) :
  nth k ((map (map Q2R)) A) [] = (map Q2R) (nth k A []).
Proof. apply (map_nth (map Q2R) A [] k). Qed.

Lemma A_get_real (A : list (list QArith_base.Q)) (k j : nat) :
  A_get ((map (map Q2R)) A) k j = Q2R (A_get A k j).
Proof. unfold A_get. rewrite row_real. apply idx_real. Qed.

Lemma set_nth_map {X Y : Type} (f : X -> Y) (l : list X) (i : nat) (v : X) :
  set_nth (map f l) i (f v) = map f (set_nth l i v).
Proof.
  revert i. induction l as [|x l IH]; intros [|i]; cbn; try reflexivity.
  now rewrite IH.
Qed.

Lemma A_set_real (A : list (list QArith_base.Q)) (k j : nat) (v : QArith_base.Q) :
  A_set ((map (map Q2R)) A) k j (Q2R v) = (map (map Q2R)) (A_set A k j v).
Proof.
  unfold A_set. rewrite row_real, set_nth_map.
  apply (set_nth_map (map Q2R)).
Qed.

Lemma fold_left_real {S S' X : Type} (phi : S -> S') (f : S -> X -> S)
      (g : S' -> X -> S') (l : list X) (s : S) :
  (forall a x, g (phi a) x = phi (f a x)) ->
  fold_left g l (phi s) = phi (fold_left f l s).
Proof.
  intros Hstep. revert s. induction l as [|x l IH]; intros s; [reflexivity|].
  cbn [fold_left]. rewrite Hstep. apply IH.
Qed.

Lemma foldM_real {S S' X : Type} (phi : S -> S') (f : S -> X -> option S)
      (g : S' -> X -> option S') (l : list X) (s : S) :
  (forall a x, g (phi a) x = option_map phi (f a x)) ->
  foldM g l (phi s) = option_map phi (foldM f l s).
Proof.
  intros Hstep. revert s. induction l as [|x l IH]; intros s; [reflexivity|].
  cbn [foldM]. rewrite Hstep. destruct (f s x) as [s1|]; cbn; [apply IH | reflexivity].
Qed.

(** *** The solver *)

Lemma find_pivot_real (A : list (list QArith_base.Q)) (i n : nat) :
  find_pivot ((map (map Q2R)) A) i n
  = (Q2R (fst (find_pivot A i n)), snd (find_pivot A i n)).
Proof.
  unfold find_pivot.
  rewrite A_get_real, Q2R_abs.
  set (phi := fun st : QArith_base.Q * nat => (Q2R (fst st), snd st)).
  change (Q2R (Math_abs (A_get A i i)), i)
    with (phi (Math_abs (A_get A i i), i)).
  apply (fold_left_real phi
           (fun (st : QArith_base.Q * nat) k =>
              if jlt (fst st) (Math_abs (A_get A k i))
              then (Math_abs (A_get A k i), k) else st)).
  intros [v r] k. unfold phi. cbn [fst snd].
  rewrite A_get_real, Q2R_abs, Q2R_ltb.
  destruct (jlt v (Math_abs (A_get A k i))); reflexivity.
Qed.

Lemma swap_rows_real (A : list (list QArith_base.Q)) (i maxRow n : nat) :
  swap_rows ((map (map Q2R)) A) i maxRow n = (map (map Q2R)) (swap_rows A i maxRow n).
Proof.
  unfold swap_rows. apply fold_left_real.
  intros a k. rewrite !A_get_real, !A_set_real. reflexivity.
Qed.

Lemma swap_B_real (B : list QArith_base.Q) (i maxRow : nat) :
  swap_B ((map Q2R) B) i maxRow = (map Q2R) (swap_B B i maxRow).
Proof.
  unfold swap_B. rewrite !idx_real, !set_nth_map. reflexivity.
Qed.

Let realState (st : list (list QArith_base.Q) * list QArith_base.Q) : list (list R) * list R :=
  ((map (map Q2R)) (fst st), (map Q2R) (snd st)).

Lemma eliminate_row_real (i n : nat) (st : list (list QArith_base.Q) * list QArith_base.Q) (k : nat) :
  eliminate_row i n (realState st) k
  = option_map realState (eliminate_row i n st k).
Proof.
  destruct st as [A B]. unfold realState. cbn [fst snd eliminate_row].
  rewrite !A_get_real, <- Q2R_neg, Q2R_div.
  destruct (jdiv (jneg (A_get A k i)) (A_get A i i)) as [c|]; [|reflexivity].
  cbn [option_map bind ret fst snd]. unfold ret. apply f_equal.
  apply f_equal2.
  - apply fold_left_real. intros a j.
    destruct (Nat.eqb i j).
    + rewrite <- (Q2R_int 0). apply A_set_real.
    + rewrite !A_get_real, <- Q2R_mul, <- Q2R_add. apply A_set_real.
  - rewrite !idx_real, <- Q2R_mul, <- Q2R_add. apply set_nth_map.
Qed.

Lemma eliminate_real (steps : list nat) (n : nat) (A : list (list QArith_base.Q))
      (B : list QArith_base.Q) :
  eliminate steps n ((map (map Q2R)) A) ((map Q2R) B)
  = option_map (option_map realState) (eliminate steps n A B).
Proof.
  revert A B. induction steps as [|i steps IH]; intros A B; [reflexivity|].
  rewrite !eliminate_cons. rewrite find_pivot_real.
  destruct (find_pivot A i n) as [maxEl maxRow]. cbn [fst snd].
  rewrite <- Q2R_tolerance, Q2R_ltb.
  destruct (jlt maxEl (lit 1 (-10))); [reflexivity|].
  rewrite swap_rows_real, swap_B_real.
  change (map (map Q2R) (swap_rows A i maxRow n), map Q2R (swap_B B i maxRow))
    with (realState (swap_rows A i maxRow n, swap_B B i maxRow)).
  rewrite (foldM_real realState (eliminate_row i n))
    by (intros a x; apply eliminate_row_real).
  destruct (foldM (eliminate_row i n) _ _) as [[A1 B1]|]; [|reflexivity].
  cbn [option_map bind fst snd realState]. apply IH.
Qed.

Lemma back_substitute_real (n : nat) (A : list (list QArith_base.Q)) (B : list QArith_base.Q) :
  back_substitute n ((map (map Q2R)) A) ((map Q2R) B)
  = option_map (map Q2R) (back_substitute n A B).
Proof.
  unfold back_substitute.
  replace (repeat (@int R Ideal 0) n) with ((map Q2R) (repeat (int 0) n))
    by (rewrite map_repeat, Q2R_int; reflexivity).
  apply foldM_real. intros X i.
  rewrite <- (Q2R_int 0).
  rewrite (fold_left_real Q2R
             (fun sum j => jadd sum (jmul (A_get A i j) (idx X j))))
    by (intros a j; rewrite A_get_real, idx_real, <- Q2R_mul, <- Q2R_add;
        reflexivity).
  rewrite idx_real, A_get_real, <- Q2R_sub, Q2R_div.
  destruct (jdiv _ _) as [xi|]; [|reflexivity].
  unfold ret. cbn [option_map bind]. apply f_equal. apply set_nth_map.
Qed.

Lemma solveLinearSystem_real (A : list (list QArith_base.Q)) (B : list QArith_base.Q) :
  solveLinearSystem ((map (map Q2R)) A) ((map Q2R) B)
  = option_map (map Q2R) (solveLinearSystem A B).
Proof.
  unfold solveLinearSystem. rewrite length_map, eliminate_real.
  destruct (eliminate _ _ A B) as [[[A1 B1]|]|]; cbn [option_map bind ret].
  - apply back_substitute_real.
  - rewrite map_repeat, Q2R_int. reflexivity.
  - reflexivity.
Qed.

Lemma systems_real (w h : QArith_base.Q) (dst : Quad QArith_base.Q) :
  systemA (Q2R w) (Q2R h) (realQuad dst) = (map (map Q2R)) (systemA w h dst)
  /\ systemB (Q2R w) (Q2R h) (realQuad dst) = (map Q2R) (systemB w h dst).
Proof.
  unfold systemA, systemB, systems, realQuad, realPoint.
  cbn [px py p1 p2 p3 p4 map firstn idx nth].
  rewrite ?Q2R_mul, ?Q2R_neg, ?Q2R_int. split; reflexivity.
Qed.

(** [computeHomography] on real numbers that are rational is
    [computeHomography] on the rational numbers. *)
Lemma computeHomography_real (w h : QArith_base.Q) (dst : Quad QArith_base.Q) :
  computeHomography (Q2R w) (Q2R h) (realQuad dst)
  = option_map (map Q2R) (computeHomography w h dst).
Proof.
  unfold computeHomography.
  destruct (systems_real w h dst) as [-> ->].
  rewrite solveLinearSystem_real.
  destruct (solveLinearSystem _ _) as [X|]; [|reflexivity].
  cbn [option_map bind ret].
  assert (Hq : existsb (fun val : QArith_base.Q => isNaN val || negb (isFinite val)) X = false).
  { induction X as [|x X IH]; [reflexivity | exact IH]. }
  assert (Hr : existsb (fun val : R => isNaN val || negb (isFinite val))
                       ((map Q2R) X) = false).
  { clear Hq. induction X as [|x X IH]; [reflexivity | exact IH]. }
  rewrite Hq, Hr. cbn [option_map ret].
  rewrite map_app. cbn [map]. rewrite Q2R_int. reflexivity.
Qed.

Lemma eliminate_homography_real (w h : QArith_base.Q) (dst : Quad QArith_base.Q) :
  eliminate (seq 0 8) 8 (systemA (Q2R w) (Q2R h) (realQuad dst))
            (systemB (Q2R w) (Q2R h) (realQuad dst))
  = option_map (option_map realState)
      (eliminate (seq 0 8) 8 (systemA w h dst) (systemB w h dst)).
Proof.
  destruct (systems_real w h dst) as [-> ->]. apply eliminate_real.
Qed.

End RationalReading.

(** ** Points under a homography *)

Section TransformPoint.

Local Open Scope R_scope.

Lemma regular_nonzero (h : list R) (x y : R) :
  regular h x y -> denominator h x y <> 0.
Proof.
  unfold regular. intros Hr E. rewrite E, Rabs_R0 in Hr. lra.
Qed.

Lemma transformPoint_regular (h : list R) (x y : R) :
  regular h x y ->
  transformPoint h x y
  = Some (mkPoint ((idx h 0 * x + idx h 1 * y + idx h 2) / denominator h x y)
                  ((idx h 3 * x + idx h 4 * y + idx h 5) / denominator h x y)).
Proof.
  intros Hr. pose proof (regular_nonzero h x y Hr) as Hw.
  unfold transformPoint. cbn [jlt jadd jmul jdiv Math_abs Ideal].
  fold (denominator h x y). rewrite lit_1em8.
  rewrite I_ltb_false by exact Hr.
  rewrite !I_div_some by exact Hw. reflexivity.
Qed.

Lemma transformPoint_guarded (h : list R) (x y : R) :
  Rabs (denominator h x y) < 1 / 100000000 ->
  transformPoint h x y
  = Some (mkPoint (idx h 0 * x + idx h 1 * y + idx h 2)
                  (idx h 3 * x + idx h 4 * y + idx h 5)).
Proof.
  intros Hr.
  unfold transformPoint. cbn [jlt jadd jmul jdiv Math_abs Ideal].
  fold (denominator h x y). rewrite lit_1em8.
  rewrite I_ltb_true by exact Hr. reflexivity.
Qed.

Lemma denominator_product (a b : list R) (x y : R) :
  denominator b x y <> 0 ->
  denominator (multiplyMatrix a b) x y
  = denominator a ((idx b 0 * x + idx b 1 * y + idx b 2) / denominator b x y)
                  ((idx b 3 * x + idx b 4 * y + idx b 5) / denominator b x y)
    * denominator b x y.
Proof.
  intros Hw. unfold denominator in *. unfold multiplyMatrix.
  cbn [flat_map map fold_left app Nat.mul Nat.add idx nth jadd jmul Ideal].
  cbn [int lit Ideal I.lit Z.leb Z.compare Z.mul Z.pow Z.pow_pos Pos.iter Pos.mul].
  field. exact Hw.
Qed.

End TransformPoint.

(** ** The elimination solves the system, in exact arithmetic *)

Section Elimination.

Local Open Scope R_scope.

Ltac nat_cases :=
  repeat match goal with
         | |- context [Nat.eqb ?a ?b] => destruct (Nat.eqb_spec a b)
         | |- context [Nat.leb ?a ?b] => destruct (Nat.leb_spec a b)
         | |- context [Nat.ltb ?a ?b] => destruct (Nat.ltb_spec a b)
         end;
  cbn [andb orb negb]; try lia;
  repeat match goal with
         | H : ?a = ?b |- _ => is_var a; is_var b; first [subst a | subst b]
         end.

Lemma idx_set_nth (l : list R) (i j : nat) (v : R) :
  (i < length l)%nat ->
  idx (set_nth l i v) j = if Nat.eqb i j then v else idx l j.
Proof.
  intros Hi. unfold idx. nat_cases.
  - now apply nth_set_nth_eq.
  - now apply nth_set_nth_neq.
Qed.

Variable n : nat.

Lemma A_set_square (A : list (list R)) (k j : nat) (v : R) :
  squareOf n A -> squareOf n (A_set A k j v).
Proof.
  intros [HA Hrows]. unfold A_set. split.
  - now rewrite set_nth_length.
  - intros k' Hk'. destruct (Nat.eq_dec k k') as [->|Hne].
    + rewrite nth_set_nth_eq by lia. rewrite set_nth_length. now apply Hrows.
    + rewrite nth_set_nth_neq by exact Hne. now apply Hrows.
Qed.

Lemma A_get_set (A : list (list R)) (k j : nat) (v : R) (k' j' : nat) :
  squareOf n A -> (k < n)%nat -> (j < n)%nat ->
  A_get (A_set A k j v) k' j'
  = if Nat.eqb k k' && Nat.eqb j j' then v else A_get A k' j'.
Proof.
  intros [HA Hrows] Hk Hj. unfold A_get, A_set.
  destruct (Nat.eqb_spec k k') as [<-|Hne]; cbn [andb].
  - rewrite nth_set_nth_eq by lia.
    rewrite idx_set_nth by (rewrite Hrows; lia). reflexivity.
  - rewrite nth_set_nth_neq by exact Hne. reflexivity.
Qed.

(** *** Sums *)

Lemma sumFrom_ext (s len : nat) (f g : nat -> R) :
  (forall j, (s <= j)%nat -> (j < s + len)%nat -> f j = g j) ->
  sumFrom s len f = sumFrom s len g.
Proof.
  revert s. induction len as [|len IH]; intros s Hfg; cbn; [reflexivity|].
  rewrite (Hfg s) by lia. f_equal. apply IH. intros j H1 H2. apply Hfg; lia.
Qed.

Lemma sumFrom_zero (s len : nat) (f : nat -> R) :
  (forall j, (s <= j)%nat -> (j < s + len)%nat -> f j = 0) ->
  sumFrom s len f = 0.
Proof.
  revert s. induction len as [|len IH]; intros s Hf; cbn; [reflexivity|].
  rewrite (Hf s) by lia. rewrite IH; [lra|]. intros j H1 H2. apply Hf; lia.
Qed.

Lemma sumFrom_split (s a b : nat) (f : nat -> R) :
  sumFrom s (a + b) f = sumFrom s a f + sumFrom (s + a) b f.
Proof.
  revert s. induction a as [|a IH]; intros s; cbn.
  - rewrite Nat.add_0_r. lra.
  - rewrite IH. replace (S s + a)%nat with (s + S a)%nat by lia. lra.
Qed.

Lemma sumFrom_linear (s len : nat) (f g : nat -> R) (c : R) :
  sumFrom s len (fun j => f j + c * g j) = sumFrom s len f + c * sumFrom s len g.
Proof.
  revert s. induction len as [|len IH]; intros s; cbn; [lra|].
  rewrite IH. lra.
Qed.

Lemma fold_left_sum (f : nat -> R) (s len : nat) (a : R) :
  fold_left (fun acc j => acc + f j) (seq s len) a = a + sumFrom s len f.
Proof.
  revert s a. induction len as [|len IH]; intros s a; cbn; [lra|].
  rewrite IH. lra.
Qed.

(** *** The pivot search *)

Lemma find_pivot_spec (A : list (list R)) (i : nat) :
  (i < n)%nat ->
  let r := snd (find_pivot A i n) in
  (i <= r)%nat /\ (r < n)%nat /\ fst (find_pivot A i n) = Rabs (A_get A r i).
Proof.
  intros Hi. unfold find_pivot.
  set (step := fun (st : R * nat) (k : nat) =>
                 if jlt (fst st) (Math_abs (A_get A k i))
                 then (Math_abs (A_get A k i), k) else st).
  assert (Hgen : forall len s st,
             (i <= snd st)%nat -> (snd st < n)%nat ->
             fst st = Rabs (A_get A (snd st) i) ->
             (i < s)%nat -> (s + len <= n)%nat ->
             let st' := fold_left step (seq s len) st in
             (i <= snd st')%nat /\ (snd st' < n)%nat
             /\ fst st' = Rabs (A_get A (snd st') i)).
  { induction len as [|len IH]; intros s st H1 H2 H3 Hs Hlen; cbn.
    - auto.
    - apply IH; try lia; unfold step;
        destruct (jlt (fst st) (Math_abs (A_get A s i))); cbn; try lia; auto. }
  apply (Hgen (n - S i)%nat (S i) (Math_abs (A_get A i i), i)); cbn; try lia.
  reflexivity.
Qed.

(** *** The exchange of two rows *)

Lemma swap_col_spec (A : list (list R)) (i r k : nat) :
  squareOf n A -> (i < n)%nat -> (r < n)%nat -> (k < n)%nat ->
  squareOf n (swap_col i r A k)
  /\ forall k' j',
      A_get (swap_col i r A k) k' j'
      = if Nat.eqb j' k
        then (if Nat.eqb k' i then A_get A r k
              else if Nat.eqb k' r then A_get A i k else A_get A k' k)
        else A_get A k' j'.
Proof.
  intros HA Hi Hr Hk. unfold swap_col. split.
  - now do 2 apply A_set_square.
  - intros k' j'.
    rewrite A_get_set by (try apply A_set_square; assumption).
    rewrite A_get_set by assumption.
    nat_cases; try reflexivity; try congruence.
Qed.

Lemma swap_rows_spec (A : list (list R)) (i r : nat) :
  squareOf n A -> (i < n)%nat -> (r < n)%nat ->
  squareOf n (swap_rows A i r n)
  /\ forall k' j',
      A_get (swap_rows A i r n) k' j'
      = if Nat.leb i j' && Nat.ltb j' n
        then (if Nat.eqb k' i then A_get A r j'
              else if Nat.eqb k' r then A_get A i j' else A_get A k' j')
        else A_get A k' j'.
Proof.
  intros HA Hi Hr.
  change (swap_rows A i r n) with (fold_left (swap_col i r) (seq i (n - i)) A).
  assert (Hgen : forall len s A0,
             squareOf n A0 -> (s + len <= n)%nat ->
             squareOf n (fold_left (swap_col i r) (seq s len) A0)
             /\ forall k' j',
                 A_get (fold_left (swap_col i r) (seq s len) A0) k' j'
                 = if Nat.leb s j' && Nat.ltb j' (s + len)
                   then (if Nat.eqb k' i then A_get A0 r j'
                         else if Nat.eqb k' r then A_get A0 i j'
                              else A_get A0 k' j')
                   else A_get A0 k' j').
  { induction len as [|len IH]; intros s A0 HA0 Hlen; cbn [seq fold_left].
    - split; [exact HA0|]. intros k' j'. nat_cases; reflexivity.
    - destruct (swap_col_spec A0 i r s HA0 Hi Hr ltac:(lia)) as [Hsq Hget].
      destruct (IH (S s) _ Hsq ltac:(lia)) as [Hsq' Hget'].
      split; [exact Hsq'|]. intros k' j'.
      rewrite Hget'. rewrite !Hget.
      nat_cases; try reflexivity; try congruence. }
  destruct (Hgen (n - i)%nat i A HA ltac:(lia)) as [Hsq Hget].
  split; [exact Hsq|]. intros k' j'. rewrite Hget.
  replace (i + (n - i))%nat with n by lia. reflexivity.
Qed.

Lemma swap_B_spec (B : list R) (i r : nat) :
  length B = n -> (i < n)%nat -> (r < n)%nat ->
  length (swap_B B i r) = n
  /\ forall k, idx (swap_B B i r) k
               = if Nat.eqb k i then idx B r
                 else if Nat.eqb k r then idx B i else idx B k.
Proof.
  intros HB Hi Hr. unfold swap_B. split.
  - now rewrite !set_nth_length.
  - intros k. rewrite !idx_set_nth by (rewrite ?set_nth_length; lia).
    nat_cases; try reflexivity; try congruence.
Qed.

(** *** The elimination of one row, and of the rows below the pivot *)

Lemma elim_cols_spec (i k : nat) (c : R) :
  (i < n)%nat -> (k < n)%nat -> i <> k ->
  forall len s A0,
    squareOf n A0 -> (i <= s)%nat -> (s + len <= n)%nat ->
    squareOf n (fold_left (elim_col i k c) (seq s len) A0)
    /\ forall k' j',
        A_get (fold_left (elim_col i k c) (seq s len) A0) k' j'
        = if Nat.eqb k' k && Nat.leb s j' && Nat.ltb j' (s + len)
          then (if Nat.eqb j' i then 0
                else A_get A0 k j' + c * A_get A0 i j')
          else A_get A0 k' j'.
Proof.
  intros Hi Hk Hik.
  induction len as [|len IH]; intros s A0 HA0 Hs Hlen; cbn [seq fold_left].
  - split; [exact HA0|]. intros k' j'. nat_cases; reflexivity.
  - assert (Hsq : squareOf n (elim_col i k c A0 s)).
    { unfold elim_col. destruct (Nat.eqb i s); now apply A_set_square. }
    assert (Hget : forall k' j',
               A_get (elim_col i k c A0 s) k' j'
               = if Nat.eqb k' k && Nat.eqb j' s
                 then (if Nat.eqb s i then 0
                       else A_get A0 k s + c * A_get A0 i s)
                 else A_get A0 k' j').
    { intros k' j'. unfold elim_col.
      destruct (Nat.eqb_spec i s) as [->|Hne].
      - rewrite A_get_set by (try assumption; lia).
        nat_cases; try reflexivity; congruence.
      - rewrite A_get_set by (try assumption; lia).
        nat_cases; try reflexivity; congruence. }
    destruct (IH (S s) _ Hsq ltac:(lia) ltac:(lia)) as [Hsq' Hget'].
    split; [exact Hsq'|]. intros k' j'.
    rewrite Hget'. rewrite !Hget.
    nat_cases; try reflexivity; try congruence.
Qed.

Lemma eliminate_row_spec (A : list (list R)) (B : list R) (i k : nat) :
  squareOf n A -> length B = n -> (i < n)%nat -> (k < n)%nat -> i <> k ->
  A_get A i i <> 0 ->
  exists A' B',
    eliminate_row i n (A, B) k = Some (A', B')
    /\ squareOf n A' /\ length B' = n
    /\ (forall k' j',
           A_get A' k' j'
           = if Nat.eqb k' k && Nat.leb i j' && Nat.ltb j' n
             then (if Nat.eqb j' i then 0
                   else A_get A k j' + coef A i k * A_get A i j')
             else A_get A k' j')
    /\ (forall k', idx B' k'
                   = if Nat.eqb k' k then idx B k + coef A i k * idx B i
                     else idx B k').
Proof.
  intros HA HB Hi Hk Hik Hpiv.
  unfold eliminate_row. cbn [jdiv jneg Ideal].
  rewrite I_div_some by exact Hpiv. cbn [bind ret].
  fold (coef A i k).
  match goal with
  | |- context [fold_left ?f _ _] =>
      change f with (elim_col i k (coef A i k))
  end.
  destruct (elim_cols_spec i k (coef A i k) Hi Hk Hik (n - i)%nat i A HA
              ltac:(lia) ltac:(lia)) as [Hsq Hget].
  do 2 eexists. split; [reflexivity|].
  split; [exact Hsq|]. split; [now rewrite set_nth_length|]. split.
  - intros k' j'. rewrite Hget.
    replace (i + (n - i))%nat with n by lia. reflexivity.
  - intros k'. cbn [jadd jmul Ideal].
    rewrite idx_set_nth by lia. nat_cases; try reflexivity; congruence.
Qed.

Lemma eliminate_rows_spec (i : nat) :
  (i < n)%nat ->
  forall len s A B,
    squareOf n A -> length B = n -> (i < s)%nat -> (s + len <= n)%nat ->
    A_get A i i <> 0 ->
    exists A' B',
      foldM (eliminate_row i n) (seq s len) (A, B) = Some (A', B')
      /\ squareOf n A' /\ length B' = n
      /\ (forall k' j',
             A_get A' k' j'
             = if Nat.leb s k' && Nat.ltb k' (s + len)
                  && Nat.leb i j' && Nat.ltb j' n
               then (if Nat.eqb j' i then 0
                     else A_get A k' j' + coef A i k' * A_get A i j')
               else A_get A k' j')
      /\ (forall k', idx B' k'
                     = if Nat.leb s k' && Nat.ltb k' (s + len)
                       then idx B k' + coef A i k' * idx B i
                       else idx B k').
Proof.
  intros Hi.
  induction len as [|len IH]; intros s A B HA HB Hs Hlen Hpiv; cbn [seq foldM].
  - exists A, B. split; [reflexivity|]. split; [exact HA|]. split; [exact HB|].
    split; intros; nat_cases; reflexivity.
  - destruct (eliminate_row_spec A B i s HA HB Hi ltac:(lia) ltac:(lia) Hpiv)
      as (A1 & B1 & -> & HA1 & HB1 & Hget1 & HgetB1).
    cbn [bind].
    assert (Hpiv1 : A_get A1 i i <> 0).
    { rewrite Hget1. nat_cases. exact Hpiv. }
    destruct (IH (S s) A1 B1 HA1 HB1 ltac:(lia) ltac:(lia) Hpiv1)
      as (A2 & B2 & -> & HA2 & HB2 & Hget2 & HgetB2).
    exists A2, B2. split; [reflexivity|]. split; [exact HA2|].
    split; [exact HB2|]. split.
    + intros k' j'. rewrite Hget2. unfold coef. rewrite !Hget1.
      nat_cases; try reflexivity; try congruence.
    + intros k'. rewrite HgetB2. unfold coef. rewrite !HgetB1, !Hget1.
      nat_cases; try reflexivity; try congruence.
Qed.

(** *** One step of the elimination *)

Lemma tolerance_pos : 0 < @lit R Ideal 1 (-10).
Proof. cbv [lit Ideal I.lit]. cbn. lra. Qed.

Lemma eliminate_step_spec (A : list (list R)) (B : list R) (i : nat) :
  (i < n)%nat -> eliminated n i A -> length B = n ->
  I.ltb (fst (find_pivot A i n)) (lit 1 (-10)) = false ->
  exists A' B',
    foldM (eliminate_row i n) (seq (S i) (n - S i))
          (swap_rows A i (snd (find_pivot A i n)) n,
           swap_B B i (snd (find_pivot A i n)))
    = Some (A', B')
    /\ eliminated n (S i) A' /\ length B' = n
    /\ forall X, solves n A' B' X -> solves n A B X.
Proof.
  intros Hi (HA & Hzero & Hdiag) HB Htol.
  destruct (find_pivot_spec A i Hi) as (Hr1 & Hr2 & Hmax).
  set (r := snd (find_pivot A i n)) in *.
  assert (Hpiv : A_get A r i <> 0).
  { intros E. rewrite Hmax, E, Rabs_R0 in Htol.
    rewrite I_ltb_true in Htol by apply tolerance_pos. discriminate. }
  destruct (swap_rows_spec A i r HA Hi Hr2) as [HA1 Hget1].
  destruct (swap_B_spec B i r HB Hi Hr2) as [HB1 HgetB1].
  set (A1 := swap_rows A i r n) in *. set (B1 := swap_B B i r) in *.
  assert (Hpiv1 : A_get A1 i i <> 0).
  { rewrite Hget1. nat_cases. exact Hpiv. }
  destruct (eliminate_rows_spec i Hi (n - S i)%nat (S i) A1 B1 HA1 HB1
              ltac:(lia) ltac:(lia) Hpiv1)
    as (A2 & B2 & Hrun & HA2 & HB2 & Hget2 & HgetB2).
  replace (S i + (n - S i))%nat with n in * by lia.
  exists A2, B2. split; [exact Hrun|].
  (* the rows of the exchanged system, in full *)
  assert (Hrow1 : forall k j, (j < n)%nat ->
             A_get A1 k j = if Nat.eqb k i then A_get A r j
                            else if Nat.eqb k r then A_get A i j
                                 else A_get A k j).
  { intros k j Hj. rewrite Hget1.
    destruct (Nat.leb_spec i j); destruct (Nat.ltb_spec j n); cbn [andb];
      try lia; try reflexivity.
    nat_cases; try reflexivity.
    - rewrite (Hzero r j) by lia. rewrite (Hzero i j) by lia. reflexivity.
    - rewrite (Hzero r j) by lia. rewrite (Hzero i j) by lia. reflexivity. }
  split; [|split; [exact HB2|]].
  - split; [exact HA2|]. split.
    + intros k j Hj Hjk Hk. rewrite Hget2.
      destruct (Nat.eq_dec j i) as [->|Hne].
      * nat_cases. reflexivity.
      * nat_cases; rewrite Hrow1 by lia; nat_cases; apply Hzero; lia.
    + intros j Hj Hjn. rewrite Hget2.
      destruct (Nat.leb_spec (S i) j); [lia|]. cbn [andb].
      destruct (Nat.eq_dec j i) as [->|Hne]; [exact Hpiv1|].
      rewrite Hrow1 by lia. nat_cases; apply Hdiag; lia.
  - intros X HX.
    (* the system after the exchange *)
    assert (HX1 : solves n A1 B1 X).
    { assert (Hlow : forall k, (k <= i)%nat -> (k < n)%nat ->
                 sumFrom 0 n (fun j => A_get A1 k j * idx X j) = idx B1 k).
      { intros k Hk Hkn. pose proof (HX k Hkn) as Hk2.
        rewrite HgetB2 in Hk2.
        destruct (Nat.leb_spec (S i) k); [lia|]. cbn [andb] in Hk2.
        rewrite <- Hk2. apply sumFrom_ext. intros j _ Hj. rewrite Hget2.
        destruct (Nat.leb_spec (S i) k); [lia|]. reflexivity. }
      intros k Hk. destruct (Nat.le_gt_cases k i) as [Hle|Hgt];
        [now apply Hlow|].
      pose proof (HX k Hk) as Hk2. rewrite HgetB2 in Hk2.
      destruct (Nat.leb_spec (S i) k); [|lia].
      destruct (Nat.ltb_spec k n); [|lia]. cbn [andb] in Hk2.
      rewrite <- (Hlow i ltac:(lia) Hi) in Hk2.
      rewrite (sumFrom_ext 0 n
                 (fun j => A_get A2 k j * idx X j)
                 (fun j => A_get A1 k j * idx X j
                           + coef A1 i k * (A_get A1 i j * idx X j))) in Hk2.
      - rewrite sumFrom_linear in Hk2. lra.
      - intros j _ Hj. rewrite Hget2.
        destruct (Nat.leb_spec (S i) k); [|lia].
        destruct (Nat.ltb_spec k n); [|lia].
        destruct (Nat.ltb_spec j n); [|lia].
        destruct (Nat.leb_spec i j); cbn [andb].
        + destruct (Nat.eqb_spec j i) as [->|Hne].
          * unfold coef. field. exact Hpiv1.
          * ring.
        + assert (E : A_get A1 i j = 0).
          { rewrite Hrow1 by lia. nat_cases. apply Hzero; lia. }
          rewrite E. ring. }
    assert (Hrow : forall k k1, (k < n)%nat -> (k1 < n)%nat ->
               k1 = (if Nat.eqb k i then r else if Nat.eqb k r then i else k) ->
               sumFrom 0 n (fun j => A_get A k j * idx X j) = idx B k).
    { intros k k1 Hk Hk1 Ek1.
      rewrite <- (sumFrom_ext 0 n (fun j => A_get A1 k1 j * idx X j)).
      - rewrite (HX1 k1 Hk1), HgetB1.
        destruct (Nat.eqb_spec k i); destruct (Nat.eqb_spec k r); subst k1;
          nat_cases; try reflexivity; congruence.
      - intros j _ Hj. rewrite Hrow1 by lia.
        destruct (Nat.eqb_spec k i); destruct (Nat.eqb_spec k r); subst k1;
          nat_cases; try reflexivity; congruence. }
    intros k Hk.
    apply (Hrow k (if Nat.eqb k i then r else if Nat.eqb k r then i else k) Hk);
      [|reflexivity].
    nat_cases; lia.
Qed.

Lemma eliminate_spec :
  forall len i A B,
    (i + len = n)%nat -> eliminated n i A -> length B = n ->
    exists res,
      eliminate (seq i len) n A B = Some res
      /\ match res with
         | None => True
         | Some (A', B') =>
             eliminated n n A' /\ length B' = n
             /\ forall X, solves n A' B' X -> solves n A B X
         end.
Proof.
  induction len as [|len IH]; intros i A B Hlen HA HB.
  - assert (E : i = n) by lia. subst i.
    exists (Some (A, B)). split; [reflexivity|]. auto.
  - cbn [seq]. rewrite eliminate_cons.
    destruct (find_pivot A i n) as [maxEl r] eqn:Epiv.
    cbn [jlt Ideal].
    destruct (I.ltb maxEl (lit 1 (-10))) eqn:Etol.
    + exists None. split; [reflexivity | exact I].
    + pose proof (eliminate_step_spec A B i ltac:(lia) HA HB) as Hstep.
      rewrite Epiv in Hstep. cbn [fst snd] in Hstep.
      destruct (Hstep Etol) as (A' & B' & -> & HA' & HB' & Hsol).
      cbn [bind fst snd].
      destruct (IH (S i) A' B' ltac:(lia) HA' HB') as (res & -> & Hres).
      exists res. split; [reflexivity|].
      destruct res as [[A'' B'']|]; [|exact I].
      destruct Hres as (H1 & H2 & H3). split; [exact H1|]. split; [exact H2|].
      intros X HX. apply Hsol, H3, HX.
Qed.

(** *** The back-substitution *)

Lemma back_substitute_spec (A : list (list R)) (B : list R) :
  eliminated n n A ->
  exists X, back_substitute n A B = Some X /\ length X = n /\ solves n A B X.
Proof.
  intros (HA & Hzero & Hdiag). unfold back_substitute.
  match goal with |- context [foldM ?f _ _] => set (F := f) end.
  assert (Hgen : forall m X0,
             (m <= n)%nat -> length X0 = n ->
             (forall k, (m <= k)%nat -> (k < n)%nat ->
                        sumFrom k (n - k) (fun j => A_get A k j * idx X0 j)
                        = idx B k) ->
             exists X, foldM F (rev (seq 0 m)) X0 = Some X /\ length X = n
                       /\ forall k, (k < n)%nat ->
                            sumFrom k (n - k) (fun j => A_get A k j * idx X j)
                            = idx B k).
  { induction m as [|m IH]; intros X0 Hm HX0 Hrows.
    - exists X0. split; [reflexivity|]. split; [exact HX0|].
      intros k Hk. apply Hrows; lia.
    - rewrite seq_S, rev_app_distr. cbn [rev app foldM Nat.add].
      unfold F at 1. cbn [jdiv jsub jadd jmul Ideal].
      rewrite I_div_some by (apply Hdiag; lia). cbn [bind ret].
      rewrite (fold_left_sum (fun j => A_get A m j * idx X0 j)).
      rewrite int_IZR, Rplus_0_l.
      set (S0 := sumFrom (S m) (n - S m) (fun j => A_get A m j * idx X0 j)).
      set (xi := (idx B m - S0) / A_get A m m).
      apply IH; [lia | now rewrite set_nth_length |].
      intros k Hk Hkn.
      destruct (Nat.eq_dec k m) as [->|Hne].
      + replace (n - m)%nat with (S (n - S m)) by lia. cbn [sumFrom].
        rewrite idx_set_nth by lia. rewrite Nat.eqb_refl.
        rewrite (sumFrom_ext (S m) (n - S m) _
                   (fun j => A_get A m j * idx X0 j)).
        * fold S0. unfold xi. field. apply Hdiag; lia.
        * intros j Hj _. rewrite idx_set_nth by lia.
          destruct (Nat.eqb_spec m j); [lia | reflexivity].
      + rewrite <- (Hrows k) by lia. apply sumFrom_ext.
        intros j Hj _. rewrite idx_set_nth by lia.
        destruct (Nat.eqb_spec m j); [lia | reflexivity]. }
  destruct (Hgen n (repeat (int 0) n) (Nat.le_refl n) (repeat_length _ n))
    as (X & HX & Hlen & Hrows); [intros; lia|].
  exists X. split; [exact HX|]. split; [exact Hlen|].
  intros k Hk. rewrite <- (Hrows k Hk).
  replace n with (k + (n - k))%nat at 1 by lia.
  rewrite sumFrom_split. rewrite sumFrom_zero; [cbn; lra|].
  intros j _ Hj. rewrite (Hzero k j) by lia. ring.
Qed.

(** The solver in exact arithmetic: it always answers, and unless a pivot
    falls below the tolerance its answer solves the system. *)
Lemma solveLinearSystem_spec (A : list (list R)) (B : list R) :
  squareOf n A -> length B = n ->
  exists X,
    solveLinearSystem A B = Some X /\ length X = n
    /\ (eliminate (seq 0 n) n A B <> Some None -> solves n A B X).
Proof.
  intros HA HB. unfold solveLinearSystem. rewrite HB.
  assert (H0 : eliminated n 0 A).
  { split; [exact HA|]. split; intros; lia. }
  destruct (eliminate_spec n 0 A B (Nat.add_0_l n) H0 HB) as (res & -> & Hres).
  cbn [bind]. destruct res as [[A' B']|].
  - destruct Hres as (HA' & HB' & Hsol).
    destruct (back_substitute_spec A' B' HA') as (X & -> & Hlen & HX).
    exists X. split; [reflexivity|]. split; [exact Hlen|].
    intros _. apply Hsol, HX.
  - exists (repeat (int 0) n). split; [reflexivity|].
    split; [apply repeat_length|]. intros Hne. now contradiction Hne.
Qed.

End Elimination.

(** *** The homography of a quad *)

Lemma systemA_square (w h : R) (dst : Quad R) : squareOf 8 (systemA w h dst).
Proof.
  split; [reflexivity|].
  intros k Hk. do 8 (destruct k as [|k]; [reflexivity|]). lia.
Qed.

Lemma projects_of_solves (w h : R) (dst : Quad R) (X : list R) :
  length X = 8%nat ->
  solves 8 (systemA w h dst) (systemB w h dst) X ->
  projects (X ++ [1%R]) 0 0 (p1 dst)
  /\ projects (X ++ [1%R]) w 0 (p2 dst)
  /\ projects (X ++ [1%R]) w h (p3 dst)
  /\ projects (X ++ [1%R]) 0 h (p4 dst).
Proof.
  intros Hlen HX.
  destruct X as [|x0 [|x1 [|x2 [|x3 [|x4 [|x5 [|x6 [|x7 [|]]]]]]]]];
    try discriminate Hlen.
  pose proof (HX 0%nat ltac:(lia)) as E0. pose proof (HX 1%nat ltac:(lia)) as E1.
  pose proof (HX 2%nat ltac:(lia)) as E2. pose proof (HX 3%nat ltac:(lia)) as E3.
  pose proof (HX 4%nat ltac:(lia)) as E4. pose proof (HX 5%nat ltac:(lia)) as E5.
  pose proof (HX 6%nat ltac:(lia)) as E6. pose proof (HX 7%nat ltac:(lia)) as E7.
  clear HX Hlen.
  cbv [sumFrom systemA systemB systems map firstn A_get idx nth
       int lit Ideal I.lit jmul jneg Z.leb Z.compare Z.mul Z.pow Z.pow_pos
       Pos.iter Pos.mul] in E0, E1, E2, E3, E4, E5, E6, E7.
  unfold projects. cbv [idx nth app].
  repeat split; lra.
Qed.

Lemma ideal_all_finite (X : list R) :
  existsb (fun val : R => isNaN val || negb (isFinite val)) X = false.
Proof. induction X as [|x X IH]; [reflexivity | exact IH]. Qed.

(** In exact arithmetic [computeHomography] always answers, with nine
    entries of which the last is [1]. *)
Lemma computeHomography_defined (w h : R) (dst : Quad R) :
  exists m, computeHomography w h dst = Some m
            /\ length m = 9%nat /\ idx m 8 = 1%R.
Proof.
  destruct (solveLinearSystem_spec 8 (systemA w h dst) (systemB w h dst)
              (systemA_square w h dst) eq_refl) as (X & HX & Hlen & _).
  unfold computeHomography. rewrite HX. cbn [bind].
  rewrite ideal_all_finite. exists (X ++ [1%R]).
  split; [reflexivity|].
  split; [rewrite length_app, Hlen; reflexivity|].
  unfold idx. rewrite app_nth2 by lia. rewrite Hlen. reflexivity.
Qed.

Lemma computeHomography_projects (w h : R) (dst : Quad R) :
  eliminate (seq 0 8) 8 (systemA w h dst) (systemB w h dst) <> Some None ->
  exists m,
    computeHomography w h dst = Some m
    /\ length m = 9%nat /\ idx m 8 = 1%R
    /\ projects m 0 0 (p1 dst) /\ projects m w 0 (p2 dst)
    /\ projects m w h (p3 dst) /\ projects m 0 h (p4 dst).
Proof.
  intros Hne.
  destruct (solveLinearSystem_spec 8 (systemA w h dst) (systemB w h dst)
              (systemA_square w h dst) eq_refl) as (X & HX & Hlen & Hsol).
  unfold computeHomography. rewrite HX. cbn [bind].
  rewrite ideal_all_finite. exists (X ++ [1%R]).
  split; [reflexivity|].
  split; [rewrite length_app, Hlen; reflexivity|].
  split.
  - unfold idx. rewrite app_nth2 by lia. rewrite Hlen. reflexivity.
  - apply projects_of_solves; [exact Hlen | exact (Hsol Hne)].
Qed.

(** Where the denominator is divided by, the homogeneous equations give
    the point. *)
Lemma transformPoint_of_projects (m : list R) (u v : R) (p : Point R) :
  projects m u v p -> regular m u v -> transformPoint m u v = Some p.
Proof.
  intros [Hx Hy] Hreg. rewrite (transformPoint_regular m u v Hreg).
  pose proof (regular_nonzero m u v Hreg) as Hw. unfold denominator in *.
  destruct p as [x y]. cbn [px py] in *.
  apply some_point_eq; [rewrite Hx | rewrite Hy]; field; exact Hw.
Qed.

(** X1.  In exact arithmetic, whenever the elimination finds no pivot below
    the tolerance, [transformPoint] with the matrix [computeHomography]
    returns sends the corner [(0,0)] of the [w] by [h] image to [p1], and each
    of the corners [(w,0)], [(w,h)] and [(0,h)] at which the denominator of
    the matrix is at least [1e-8] in absolute value to [p2], [p3] and [p4]. *)
Theorem computeHomography_maps_corners (w h : R) (dst : Quad R) :
  eliminate (seq 0 8) 8 (systemA w h dst) (systemB w h dst) <> Some None ->
  exists m,
    computeHomography w h dst = Some m
    /\ length m = 9%nat /\ idx m 8 = 1%R
    /\ transformPoint m 0%R 0%R = Some (p1 dst)
    /\ (regular m w 0 -> transformPoint m w 0%R = Some (p2 dst))
    /\ (regular m w h -> transformPoint m w h = Some (p3 dst))
    /\ (regular m 0 h -> transformPoint m 0%R h = Some (p4 dst)).
Proof.
  intros Hne.
  destruct (computeHomography_projects w h dst Hne)
    as (m & Hm & Hlen & H8 & Q1 & Q2 & Q3 & Q4).
  exists m. split; [exact Hm|]. split; [exact Hlen|]. split; [exact H8|].
  split; [|split; [|split]].
  - apply transformPoint_of_projects; [exact Q1|].
    unfold regular, denominator. rewrite H8.
    replace (idx m 6 * 0 + idx m 7 * 0 + 1)%R with 1%R by ring.
    rewrite Rabs_R1. lra.
  - exact (transformPoint_of_projects m w 0 (p2 dst) Q2).
  - exact (transformPoint_of_projects m w h (p3 dst) Q3).
  - exact (transformPoint_of_projects m 0 h (p4 dst) Q4).
Qed.

Lemma option_map_pivotless {A B : Type} (f : A -> B) (o : option (option A)) :
  option_map (option_map f) o = Some None -> o = Some None.
Proof.
  destruct o as [[a|]|]; cbn; intros E; try discriminate E; reflexivity.
Qed.

(** The homography of the trapezoid on the 4x2 image, by the solver run on
    rational numbers. *)
Lemma trapezoid_homography :
  qPoints 4%R 2%R trapezoid = realQuad trapezoidPixels
  /\ eliminate (seq 0 8) 8 (systemA 4%R 2%R (qPoints 4%R 2%R trapezoid))
               (systemB 4%R 2%R (qPoints 4%R 2%R trapezoid)) <> Some None
  /\ computeHomography 4%R 2%R (qPoints 4%R 2%R trapezoid)
     = Some [1 / 2; 1; 1; 0; 5 / 4; 1 / 2; 0; 1 / 2; 1]%R.
Proof.
  assert (E4 : 4%R = Q2R (QArith_base.Qmake 4 1)) by (unfold Q2R; cbn; field).
  assert (E2 : 2%R = Q2R (QArith_base.Qmake 2 1)) by (unfold Q2R; cbn; field).
  assert (Eq : qPoints 4%R 2%R trapezoid = realQuad trapezoidPixels).
  { unfold qPoints, trapezoid, realQuad, realPoint, trapezoidPixels, Q2R.
    cbn [px py p1 p2 p3 p4 jmul Ideal QArith_base.Qnum QArith_base.Qden].
    apply f_equal4; apply f_equal2; field. }
  split; [exact Eq|]. rewrite Eq, E4, E2. split.
  - rewrite eliminate_homography_real. intros E.
    apply option_map_pivotless in E. vm_compute in E. discriminate E.
  - rewrite computeHomography_real.
    replace (computeHomography (QArith_base.Qmake 4 1) (QArith_base.Qmake 2 1)
                               trapezoidPixels)
      with (Some [QArith_base.Qmake 1 2; QArith_base.Qmake 1 1;
                  QArith_base.Qmake 1 1; QArith_base.Qmake 0 1;
                  QArith_base.Qmake 5 4; QArith_base.Qmake 1 2;
                  QArith_base.Qmake 0 1; QArith_base.Qmake 1 2;
                  QArith_base.Qmake 1 1])
      by (vm_compute; reflexivity).
    cbn [option_map map]. unfold Q2R.
    cbn [QArith_base.Qnum QArith_base.Qden].
    apply f_equal. repeat (apply (f_equal2 (@cons R)); [field|]).
    exact eq_refl.
Qed.

Lemma computeHomography_maps_corners_witness :
  exists m,
    computeHomography 4%R 2%R (qPoints 4%R 2%R trapezoid) = Some m
    /\ length m = 9%nat /\ idx m 8 = 1%R
    /\ transformPoint m 0%R 0%R = Some (mkPoint 1 (1 / 2))%R
    /\ transformPoint m 4%R 0%R = Some (mkPoint 3 (1 / 2))%R
    /\ transformPoint m 4%R 2%R = Some (mkPoint (5 / 2) (3 / 2))%R
    /\ transformPoint m 0%R 2%R = Some (mkPoint (3 / 2) (3 / 2))%R.
Proof.
  destruct trapezoid_homography as (_ & Hne & Hval).
  destruct (computeHomography_maps_corners 4%R 2%R
              (qPoints 4%R 2%R trapezoid) Hne)
    as (m & Hm & Hlen & H8 & T1 & T2 & T3 & T4).
  exists m. split; [exact Hm|]. split; [exact Hlen|]. split; [exact H8|].
  rewrite Hval in Hm. injection Hm as <-.
  assert (Hreg : forall u v : R,
             (1 / 100000000 <= Rabs (0 * u + 1 / 2 * v + 1))%R ->
             regular [1 / 2; 1; 1; 0; 5 / 4; 1 / 2; 0; 1 / 2; 1]%R u v).
  { intros u v Huv. exact Huv. }
  split; [rewrite T1|split; [rewrite T2|split; [rewrite T3|rewrite T4]]];
    try (apply Hreg; rewrite Rabs_pos_eq; lra);
    unfold qPoints, trapezoid; cbn [px py p1 p2 p3 p4 jmul Ideal];
    apply some_point_eq; field.
Defined.

(** Without that condition a corner can go astray.  For the quad with three
    corners on a line the elimination meets no small pivot, but the
    denominator of the returned matrix is [0] at the corner [(0,1)], and
    [transformPoint] sends that corner to [(0,0)], not to [p4 = (0,1)]. *)
Lemma computeHomography_flat_quad :
  computeHomography 1%R 1%R (realQuad flatQuad)
  = Some [2; 0; 0; 0; 0; 0; 1; -1; 1]%R
  /\ p4 (realQuad flatQuad) = mkPoint 0%R 1%R
  /\ denominator [2; 0; 0; 0; 0; 0; 1; -1; 1]%R 0 1 = 0%R
  /\ transformPoint [2; 0; 0; 0; 0; 0; 1; -1; 1]%R 0%R 1%R = Some (mkPoint 0 0)%R.
Proof.
  assert (E1 : 1%R = Q2R (QArith_base.Qmake 1 1)) by (unfold Q2R; cbn; field).
  split; [|split; [|split]].
  - rewrite E1 at 1 2. rewrite computeHomography_real.
    replace (computeHomography (QArith_base.Qmake 1 1) (QArith_base.Qmake 1 1)
                               flatQuad)
      with (Some [QArith_base.Qmake 2 1; QArith_base.Qmake 0 1;
                  QArith_base.Qmake 0 1; QArith_base.Qmake 0 1;
                  QArith_base.Qmake 0 1; QArith_base.Qmake 0 1;
                  QArith_base.Qmake 1 1; QArith_base.Qmake (-1) 1;
                  QArith_base.Qmake 1 1])
      by (vm_compute; reflexivity).
    cbn [option_map map]. unfold Q2R.
    cbn [QArith_base.Qnum QArith_base.Qden].
    apply f_equal. repeat (apply (f_equal2 (@cons R)); [field|]).
    exact eq_refl.
  - unfold realQuad, realPoint, flatQuad, Q2R.
    cbn [px py p1 p2 p3 p4 QArith_base.Qnum QArith_base.Qden].
    apply f_equal2; field.
  - unfold denominator. cbn [idx nth]. ring.
  - rewrite transformPoint_guarded.
    + cbn [idx nth]. apply some_point_eq; ring.
    + unfold denominator. cbn [idx nth].
      replace (1 * 0 + -1 * 1 + 1)%R with 0%R by ring. rewrite Rabs_R0. lra.
Qed.

(** ** The homography in binary64: always nine finite entries *)

Section Binary64Solver.

Lemma eliminate_rows_ieee (i n : nat) (rows : list nat)
      (st : list (list float) * list float) :
  exists st', foldM (eliminate_row i n) rows st = Some st'.
Proof.
  revert st. induction rows as [|k rows IH]; intros [A B]; cbn [foldM].
  - eexists; reflexivity.
  - unfold eliminate_row at 1. cbn [jdiv IEEE bind ret]. apply IH.
Qed.

Lemma eliminate_ieee (steps : list nat) (n : nat) (A : list (list float))
      (B : list float) :
  exists res, eliminate steps n A B = Some res.
Proof.
  revert A B. induction steps as [|i steps IH]; intros A B.
  - eexists; reflexivity.
  - rewrite eliminate_cons. destruct (find_pivot A i n) as [maxEl maxRow].
    destruct (jlt maxEl (lit 1 (-10))); [eexists; reflexivity|].
    destruct (eliminate_rows_ieee i n (seq (S i) (n - S i))
                (swap_rows A i maxRow n, swap_B B i maxRow)) as [st' ->].
    cbn [bind]. apply IH.
Qed.

Lemma back_substitute_ieee (n : nat) (A : list (list float)) (B : list float) :
  exists X, back_substitute n A B = Some X /\ length X = n.
Proof.
  unfold back_substitute.
  match goal with |- context [foldM ?f _ _] => set (F := f) end.
  assert (Hgen : forall l X0, length X0 = n ->
                              exists X, foldM F l X0 = Some X /\ length X = n).
  { induction l as [|i l IH]; intros X0 HX0; cbn [foldM].
    - exists X0. auto.
    - unfold F at 1. cbn [jdiv IEEE bind ret]. apply IH.
      now rewrite set_nth_length. }
  apply Hgen, repeat_length.
Qed.

Lemma solveLinearSystem_ieee (A : list (list float)) (B : list float) :
  exists X, solveLinearSystem A B = Some X /\ length X = length B.
Proof.
  unfold solveLinearSystem.
  destruct (eliminate_ieee (seq 0 (length B)) (length B) A B) as [res ->].
  cbn [bind]. destruct res as [[A' B']|].
  - apply back_substitute_ieee.
  - eexists. split; [reflexivity | apply repeat_length].
Qed.

End Binary64Solver.

(** X2.  In binary64 [computeHomography] answers for every size and every
    quad, NaN and infinite coordinates included, with nine entries that are
    all finite numbers and of which the last is [1]: a solution with a NaN or
    an infinite entry is replaced by the identity. *)
Theorem computeHomography_finite (w h : float) (dst : Quad float) :
  exists m,
    computeHomography w h dst = Some m
    /\ length m = 9%nat
    /\ nth 8 m 0%float = 1%float
    /\ forall v, In v m ->
                 PrimFloat.is_nan v = false /\ PrimFloat.is_finite v = true.
Proof.
  destruct (solveLinearSystem_ieee (systemA w h dst) (systemB w h dst))
    as (X & HX & Hlen).
  change (length (systemB w h dst)) with 8%nat in Hlen.
  unfold computeHomography. rewrite HX. cbn [bind].
  destruct (existsb (fun val : float => isNaN val || negb (isFinite val)) X)
    eqn:Hbad.
  - exists identity. split; [reflexivity|]. split; [reflexivity|].
    split; [reflexivity|].
    intros v Hv. cbn in Hv.
    repeat (destruct Hv as [<-|Hv]; [split; reflexivity|]). contradiction.
  - exists (X ++ [1%float]). split; [reflexivity|].
    split; [rewrite length_app, Hlen; reflexivity|].
    split; [rewrite app_nth2 by lia; rewrite Hlen; reflexivity|].
    intros v Hv. apply in_app_or in Hv. destruct Hv as [Hv|[<-|[]]].
    + assert (Hv' : (isNaN v || negb (isFinite v)) = false).
      { destruct (isNaN v || negb (isFinite v)) eqn:E; [|reflexivity].
        rewrite <- Hbad. symmetry. apply existsb_exists. exists v. auto. }
      cbn [isNaN isFinite IEEE] in Hv'.
      apply orb_false_elim in Hv'. destruct Hv' as [H1 H2].
      split; [exact H1|]. now apply negb_false_iff in H2.
    + split; reflexivity.
Qed.

(** ** Products of 3x3 matrices *)

Section MatrixAlgebra.

Local Open Scope R_scope.

Ltac entries :=
  repeat (apply (f_equal2 (@cons R)); [first [ring | field]|]); reflexivity.

Lemma multiplyMatrix_length (a b : list R) : length (multiplyMatrix a b) = 9%nat.
Proof. reflexivity. Qed.

(** The product reads the first nine entries of its arguments and nothing
    else. *)
Lemma multiplyMatrix_assoc_any (a b c : list R) :
  multiplyMatrix (multiplyMatrix a b) c = multiplyMatrix a (multiplyMatrix b c).
Proof.
  unfold multiplyMatrix.
  cbn [flat_map map fold_left app Nat.mul Nat.add idx nth jadd jmul Ideal].
  cbn [int lit Ideal I.lit Z.leb Z.compare Z.mul Z.pow Z.pow_pos Pos.iter Pos.mul].
  entries.
Qed.

Lemma multiplyMatrix_identity_l (a b : list R) :
  multiplyMatrix identity (multiplyMatrix a b) = multiplyMatrix a b.
Proof.
  unfold multiplyMatrix, identity.
  cbn [flat_map map fold_left app Nat.mul Nat.add idx nth jadd jmul Ideal].
  cbn [int lit Ideal I.lit Z.leb Z.compare Z.mul Z.pow Z.pow_pos Pos.iter Pos.mul].
  entries.
Qed.

Lemma multiplyMatrix_identity_r (a b : list R) :
  multiplyMatrix (multiplyMatrix a b) identity = multiplyMatrix a b.
Proof.
  unfold multiplyMatrix, identity.
  cbn [flat_map map fold_left app Nat.mul Nat.add idx nth jadd jmul Ideal].
  cbn [int lit Ideal I.lit Z.leb Z.compare Z.mul Z.pow Z.pow_pos Pos.iter Pos.mul].
  entries.
Qed.

Lemma multiplyMatrix_identity_nine (m : list R) :
  length m = 9%nat ->
  multiplyMatrix identity m = m /\ multiplyMatrix m identity = m.
Proof.
  intros Hlen.
  destruct m as [|m0 [|m1 [|m2 [|m3 [|m4 [|m5 [|m6 [|m7 [|m8 [|]]]]]]]]]];
    try discriminate Hlen.
  unfold multiplyMatrix, identity.
  cbn [flat_map map fold_left app Nat.mul Nat.add idx nth jadd jmul Ideal].
  cbn [int lit Ideal I.lit Z.leb Z.compare Z.mul Z.pow Z.pow_pos Pos.iter Pos.mul].
  split; entries.
Qed.

End MatrixAlgebra.

(** X3.  In exact arithmetic the product of 3x3 matrices (arrays of nine
    entries) is associative, and the identity matrix is neutral on both
    sides. *)
Theorem multiplyMatrix_monoid (a b c : list R) :
  length a = 9%nat -> length b = 9%nat -> length c = 9%nat ->
  multiplyMatrix (multiplyMatrix a b) c = multiplyMatrix a (multiplyMatrix b c)
  /\ multiplyMatrix identity a = a
  /\ multiplyMatrix a identity = a.
Proof.
  intros Ha _ _. split; [apply multiplyMatrix_assoc_any|].
  apply multiplyMatrix_identity_nine, Ha.
Qed.

Lemma multiplyMatrix_monoid_witness :
  multiplyMatrix (multiplyMatrix [2; 0; 1; 0; 4; 0; 1; 0; 1]%R
                                 [1; 2; 0; 0; 1; 0; 0; 3; 1]%R)
                 [1; 0; 5; 0; 1; 7; 0; 0; 1]%R
  = multiplyMatrix [2; 0; 1; 0; 4; 0; 1; 0; 1]%R
                   (multiplyMatrix [1; 2; 0; 0; 1; 0; 0; 3; 1]%R
                                   [1; 0; 5; 0; 1; 7; 0; 0; 1]%R)
  /\ multiplyMatrix identity [2; 0; 1; 0; 4; 0; 1; 0; 1]%R
     = [2; 0; 1; 0; 4; 0; 1; 0; 1]%R
  /\ multiplyMatrix [2; 0; 1; 0; 4; 0; 1; 0; 1]%R identity
     = [2; 0; 1; 0; 4; 0; 1; 0; 1]%R.
Proof.
  apply (multiplyMatrix_monoid [2; 0; 1; 0; 4; 0; 1; 0; 1]%R
           [1; 2; 0; 0; 1; 0; 0; 3; 1]%R [1; 0; 5; 0; 1; 7; 0; 0; 1]%R);
    reflexivity.
Defined.

(** X4.  In exact arithmetic the determinant [invertMatrix] tests is
    multiplicative: that of a product is the product of the determinants, so
    that a product of invertible matrices is invertible. *)
Theorem det3_multiplyMatrix (a b : list R) :
  length a = 9%nat -> length b = 9%nat ->
  det3 (multiplyMatrix a b) = (det3 a * det3 b)%R.
Proof.
  intros _ _. unfold det3, multiplyMatrix.
  cbn [flat_map map fold_left app Nat.mul Nat.add idx nth jadd jmul jsub jneg
       Ideal].
  cbn [int lit Ideal I.lit Z.leb Z.compare Z.mul Z.pow Z.pow_pos Pos.iter Pos.mul].
  ring.
Qed.

Lemma det3_multiplyMatrix_witness :
  det3 (multiplyMatrix [2; 0; 1; 0; 4; 0; 1; 0; 1]%R
                       [1; 2; 0; 0; 1; 0; 0; 3; 1]%R)
  = (det3 [2; 0; 1; 0; 4; 0; 1; 0; 1] * det3 [1; 2; 0; 0; 1; 0; 0; 3; 1])%R.
Proof.
  apply (det3_multiplyMatrix [2; 0; 1; 0; 4; 0; 1; 0; 1]%R
           [1; 2; 0; 0; 1; 0; 0; 3; 1]%R); reflexivity.
Defined.

Section InverseMore.

Local Open Scope R_scope.

Variables m00 m01 m02 m10 m11 m12 m20 m21 m22 : R.

Let m : list R := [m00; m01; m02; m10; m11; m12; m20; m21; m22].

Lemma invertMatrix_entries :
  det3 m <> 0 ->
  invertMatrix m
  = Some [ (m22 * m11 - m12 * m21) / det3 m;
           (- m22 * m01 + m02 * m21) / det3 m;
           (m12 * m01 - m02 * m11) / det3 m;
           (- m22 * m10 + m12 * m20) / det3 m;
           (m22 * m00 - m02 * m20) / det3 m;
           (- m12 * m00 + m02 * m10) / det3 m;
           (m21 * m10 - m11 * m20) / det3 m;
           (- m21 * m00 + m01 * m20) / det3 m;
           (m11 * m00 - m01 * m10) / det3 m ].
Proof.
  intros Hdet. unfold invertMatrix. fold (det3 m).
  cbn [truthy Ideal]. rewrite I_truthy_true by exact Hdet. cbn [negb].
  cbn [jdiv Ideal]. rewrite !I_div_some by exact Hdet. reflexivity.
Qed.

Lemma invertMatrix_two_sided :
  det3 m <> 0 ->
  exists inv,
    invertMatrix m = Some inv
    /\ multiplyMatrix m inv = identity
    /\ multiplyMatrix inv m = identity
    /\ det3 inv = 1 / det3 m
    /\ invertMatrix inv = Some m.
Proof.
  intros Hdet. rewrite (invertMatrix_entries Hdet).
  eexists. split; [reflexivity|].
  set (D := det3 m) in *.
  assert (HD : D = m00 * (m22 * m11 - m12 * m21)
                   + m01 * (- m22 * m10 + m12 * m20)
                   + m02 * (m21 * m10 - m11 * m20)) by reflexivity.
  assert (Hinvdet :
            det3 [ (m22 * m11 - m12 * m21) / D; (- m22 * m01 + m02 * m21) / D;
                   (m12 * m01 - m02 * m11) / D; (- m22 * m10 + m12 * m20) / D;
                   (m22 * m00 - m02 * m20) / D; (- m12 * m00 + m02 * m10) / D;
                   (m21 * m10 - m11 * m20) / D; (- m21 * m00 + m01 * m20) / D;
                   (m11 * m00 - m01 * m10) / D ] = 1 / D).
  { unfold det3. cbn [idx nth jadd jsub jmul jneg Ideal].
    apply (Rmult_eq_reg_r (D * D * D)); [|repeat apply Rmult_integral_contrapositive_currified; exact Hdet].
    field_simplify; [|exact Hdet|exact Hdet]. rewrite HD. ring. }
  split; [|split; [|split; [exact Hinvdet|]]].
  - unfold multiplyMatrix, identity, m.
    cbn [flat_map map fold_left app Nat.mul Nat.add idx nth jadd jmul Ideal].
    cbn [int lit Ideal I.lit Z.leb Z.compare Z.mul Z.pow Z.pow_pos Pos.iter Pos.mul].
    repeat (apply (f_equal2 (@cons R)); [rewrite HD; field; rewrite <- HD; exact Hdet|]).
    reflexivity.
  - unfold multiplyMatrix, identity, m.
    cbn [flat_map map fold_left app Nat.mul Nat.add idx nth jadd jmul Ideal].
    cbn [int lit Ideal I.lit Z.leb Z.compare Z.mul Z.pow Z.pow_pos Pos.iter Pos.mul].
    repeat (apply (f_equal2 (@cons R)); [rewrite HD; field; rewrite <- HD; exact Hdet|]).
    reflexivity.
  - unfold invertMatrix.
    match goal with
    | |- context [truthy ?d] =>
        change d with (det3 [ (m22 * m11 - m12 * m21) / D; (- m22 * m01 + m02 * m21) / D;
                   (m12 * m01 - m02 * m11) / D; (- m22 * m10 + m12 * m20) / D;
                   (m22 * m00 - m02 * m20) / D; (- m12 * m00 + m02 * m10) / D;
                   (m21 * m10 - m11 * m20) / D; (- m21 * m00 + m01 * m20) / D;
                   (m11 * m00 - m01 * m10) / D ])
    end.
    rewrite Hinvdet.
    assert (HiD : 1 / D <> 0).
    { unfold Rdiv. rewrite Rmult_1_l. apply Rinv_neq_0_compat, Hdet. }
    cbn [truthy Ideal]. rewrite I_truthy_true by exact HiD. cbn [negb].
    cbn [jdiv Ideal]. rewrite !I_div_some by exact HiD. cbn [bind ret].
    unfold m. apply f_equal.
    cbn [idx nth jadd jsub jmul jneg Ideal].
    repeat (apply (f_equal2 (@cons R)); [rewrite HD; field; rewrite <- HD; exact Hdet|]).
    reflexivity.
Qed.

End InverseMore.

(** X5.  In exact arithmetic, for a matrix [m] with a nonzero determinant
    [invertMatrix] returns a matrix [inv] with [m * inv] the identity and with
    the determinant [1 / det m], and [invertMatrix] of [inv] is [m] again. *)
Theorem invertMatrix_involutive :
  forall m00 m01 m02 m10 m11 m12 m20 m21 m22 : R,
    let m := [m00; m01; m02; m10; m11; m12; m20; m21; m22] in
    det3 m <> 0%R ->
    exists inv,
      invertMatrix m = Some inv
      /\ multiplyMatrix m inv = identity
      /\ det3 inv = (1 / det3 m)%R
      /\ invertMatrix inv = Some m.
Proof.
  intros m00 m01 m02 m10 m11 m12 m20 m21 m22 m Hdet.
  destruct (invertMatrix_two_sided m00 m01 m02 m10 m11 m12 m20 m21 m22 Hdet)
    as (inv & H1 & H2 & _ & H3 & H4).
  exists inv. auto.
Qed.

Lemma invertMatrix_involutive_witness :
  exists inv,
    invertMatrix [2; 0; 0; 0; 4; 0; 1; 0; 1]%R = Some inv
    /\ multiplyMatrix [2; 0; 0; 0; 4; 0; 1; 0; 1]%R inv = identity
    /\ det3 inv = (1 / det3 [2; 0; 0; 0; 4; 0; 1; 0; 1])%R
    /\ invertMatrix inv = Some [2; 0; 0; 0; 4; 0; 1; 0; 1]%R.
Proof.
  apply (invertMatrix_involutive 2 0 0 0 4 0 1 0 1)%R. cbn. lra.
Defined.

(** ** The chain of layer matrices *)

Section LayerChainProps.

Local Open Scope R_scope.

Lemma fold_left_const (X : Type) (f : X -> X) (s k : nat) (x : X) :
  fold_left (fun cur (_ : nat) => f cur) (seq s k) x
  = fold_left (fun cur (_ : nat) => f cur) (seq 0 k) x.
Proof.
  revert s x. induction k as [|k IH]; intros s x; [reflexivity|].
  cbn [seq fold_left]. rewrite (IH (S s)), (IH 1%nat). reflexivity.
Qed.

Lemma chainAfter_S (m c : list R) (k : nat) :
  chainAfter m c (S k) = chainAfter m (multiplyMatrix c m) k.
Proof.
  unfold chainAfter. cbn [seq fold_left].
  apply (fold_left_const _ (fun cur => multiplyMatrix cur m)).
Qed.

Lemma chainAfter_add (m c : list R) (a b : nat) :
  chainAfter m c (a + b) = chainAfter m (chainAfter m c a) b.
Proof.
  revert c. induction a as [|a IH]; intros c; [reflexivity|].
  cbn [Nat.add]. rewrite !chainAfter_S. apply IH.
Qed.

Lemma layer_chain_cancel (Hm HInv : list R) :
  multiplyMatrix HInv Hm = identity ->
  chainAfter Hm (startChain HInv) (Z.abs_nat START_LAYER) = identity.
Proof.
  intros Hinv. unfold startChain.
  change (Z.abs_nat START_LAYER) with 2%nat.
  rewrite !chainAfter_S. unfold chainAfter. cbn [seq fold_left].
  (* (((I Hi) Hi) H) H *)
  rewrite (multiplyMatrix_assoc_any (multiplyMatrix identity HInv) HInv Hm).
  rewrite Hinv, multiplyMatrix_identity_r.
  rewrite (multiplyMatrix_assoc_any identity HInv Hm), Hinv.
  unfold multiplyMatrix, identity.
  cbn [flat_map map fold_left app Nat.mul Nat.add idx nth jadd jmul Ideal].
  cbn [int lit Ideal I.lit Z.leb Z.compare Z.mul Z.pow Z.pow_pos Pos.iter Pos.mul].
  repeat (apply (f_equal2 (@cons R)); [ring|]). reflexivity.
Qed.

End LayerChainProps.

(** X6.  In exact arithmetic and for an invertible [H], the two rounds with
    the inverse of [H] before the layer loop are undone by its first two
    rounds: the layer [j = 0] is drawn with the view matrix [K] itself, and
    the layer [j = k] with [K] times the [k]-th power of [H]. *)
Theorem layer_chain_returns :
  forall (h00 h01 h02 h10 h11 h12 h20 h21 h22 : R) (K : list R) (k : nat),
    let Hm := [h00; h01; h02; h10; h11; h12; h20; h21; h22] in
    length K = 9%nat -> det3 Hm <> 0%R ->
    exists HInv,
      invertMatrix Hm = Some HInv
      /\ layerMatrixOf K Hm HInv (Z.abs_nat START_LAYER + k)
         = multiplyMatrix K (chainAfter Hm identity k).
Proof.
  intros h00 h01 h02 h10 h11 h12 h20 h21 h22 K k Hm _ Hdet.
  destruct (invertMatrix_two_sided h00 h01 h02 h10 h11 h12 h20 h21 h22 Hdet)
    as (inv & H1 & _ & H2 & _).
  exists inv. split; [exact H1|].
  subst Hm. unfold layerMatrixOf. rewrite chainAfter_add.
  rewrite (layer_chain_cancel _ _ H2). reflexivity.
Qed.

Lemma layer_chain_returns_witness :
  exists HInv,
    invertMatrix [2; 0; 0; 0; 4; 0; 1; 0; 1]%R = Some HInv
    /\ layerMatrixOf identity [2; 0; 0; 0; 4; 0; 1; 0; 1]%R HInv
         (Z.abs_nat START_LAYER + 0)
       = multiplyMatrix identity (chainAfter [2; 0; 0; 0; 4; 0; 1; 0; 1]%R identity 0).
Proof.
  apply (layer_chain_returns 2 0 0 0 4 0 1 0 1 identity 0)%R;
    [reflexivity | cbn; lra].
Defined.

(** ** Homographies composed and inverted *)

Lemma transformPoint_compose_any (a b : list R) (x y : R) (q : Point R) :
  regular b x y -> transformPoint b x y = Some q ->
  regular a (px q) (py q) ->
  regular (multiplyMatrix a b) x y ->
  transformPoint (multiplyMatrix a b) x y = transformPoint a (px q) (py q).
Proof.
  intros Hb Hq Ha Hab.
  rewrite (transformPoint_regular b x y Hb) in Hq. injection Hq as <-.
  cbn [px py] in *.
  rewrite (transformPoint_regular _ _ _ Hab), (transformPoint_regular _ _ _ Ha).
  pose proof (regular_nonzero _ _ _ Hb) as Hwb.
  pose proof (regular_nonzero _ _ _ Ha) as Hwa.
  rewrite (denominator_product a b x y Hwb).
  set (wa := denominator a _ _) in *.
  unfold multiplyMatrix.
  cbn [flat_map map fold_left app Nat.mul Nat.add idx nth jadd jmul Ideal].
  cbn [int lit Ideal I.lit Z.leb Z.compare Z.mul Z.pow Z.pow_pos Pos.iter Pos.mul].
  unfold denominator. unfold denominator in Hwb.
  f_equal. f_equal; field; split; assumption.
Qed.

(** X7.  In exact arithmetic the product of two homographies acts as their
    composition: [transformPoint] with [a * b] gives what [transformPoint]
    with [a] gives at the image under [b], wherever none of the three
    denominators is below the threshold [1e-8] in absolute value. *)
Theorem transformPoint_compose (a b : list R) (x y : R) (q : Point R) :
  length a = 9%nat -> length b = 9%nat ->
  regular b x y -> transformPoint b x y = Some q ->
  regular a (px q) (py q) ->
  regular (multiplyMatrix a b) x y ->
  transformPoint (multiplyMatrix a b) x y = transformPoint a (px q) (py q).
Proof. intros _ _. apply transformPoint_compose_any. Qed.

Lemma transformPoint_compose_witness :
  transformPoint (multiplyMatrix [2; 0; 0; 0; 4; 0; 1; 0; 1]%R
                                 [1; 0; 3; 0; 1; 5; 0; 0; 1]%R) 1%R 1%R
  = transformPoint [2; 0; 0; 0; 4; 0; 1; 0; 1]%R
                   (px (mkPoint 4 6)%R) (py (mkPoint 4 6)%R).
Proof.
  apply (transformPoint_compose [2; 0; 0; 0; 4; 0; 1; 0; 1]%R
           [1; 0; 3; 0; 1; 5; 0; 0; 1]%R 1%R 1%R (mkPoint 4 6)%R).
  - reflexivity.
  - reflexivity.
  - unfold regular, denominator. cbn. rewrite Rabs_pos_eq; lra.
  - rewrite transformPoint_regular.
    + unfold denominator. cbn. f_equal. f_equal; field.
    + unfold regular, denominator. cbn. rewrite Rabs_pos_eq; lra.
  - unfold regular, denominator. cbn. rewrite Rabs_pos_eq; lra.
  - unfold regular, denominator. cbn. rewrite Rabs_pos_eq; lra.
Defined.

(** X8.  In exact arithmetic a homography followed by its inverse gives the
    point back: for an invertible [h] and a point at which the denominator of
    [h] is between [1e-8] and [1e8] in absolute value, [transformPoint] with
    [invertMatrix h] sends the image of the point to the point. *)
Theorem transformPoint_round_trip :
  forall (h00 h01 h02 h10 h11 h12 h20 h21 h22 x y : R),
    let h := [h00; h01; h02; h10; h11; h12; h20; h21; h22] in
    det3 h <> 0%R ->
    (1 / 100000000 <= Rabs (denominator h x y) <= 100000000)%R ->
    exists inv q,
      invertMatrix h = Some inv
      /\ transformPoint h x y = Some q
      /\ transformPoint inv (px q) (py q) = Some (mkPoint x y).
Proof.
  intros h00 h01 h02 h10 h11 h12 h20 h21 h22 x y h Hdet [Hreg Hup].
  change (regular h x y) in Hreg.
  pose proof (regular_nonzero _ _ _ Hreg) as Hw.
  pose proof (transformPoint_regular h x y Hreg) as Hq.
  set (q := mkPoint _ _) in Hq.
  subst h.
  destruct (invertMatrix_two_sided h00 h01 h02 h10 h11 h12 h20 h21 h22 Hdet)
    as (inv & Hinv & _ & Hleft & _).
  exists inv, q. split; [exact Hinv|]. split; [exact Hq|].
  assert (Hid : regular identity x y).
  { unfold regular, denominator, identity.
    cbn [idx nth int lit Ideal I.lit Z.leb Z.compare Z.mul Z.pow Z.pow_pos
         Pos.iter Pos.mul].
    rewrite Rabs_pos_eq; lra. }
  assert (Hregq : regular inv (px q) (py q)).
  { pose proof (denominator_product inv _ x y Hw) as Hp.
    rewrite Hleft in Hp. fold q in Hp. cbn [px py] in Hp.
    assert (H1 : denominator identity x y = 1%R).
    { unfold denominator, identity.
      cbn [idx nth int lit Ideal I.lit Z.leb Z.compare Z.mul Z.pow Z.pow_pos
           Pos.iter Pos.mul]. ring. }
    rewrite H1 in Hp. unfold regular.
    set (wq := denominator inv _ _) in *.
    set (w := denominator [h00; h01; h02; h10; h11; h12; h20; h21; h22] x y) in *.
    assert (Habs : (Rabs wq * Rabs w = 1)%R).
    { rewrite <- Rabs_mult, <- Hp. apply Rabs_R1. }
    pose proof (Rabs_pos wq) as Hq0.
    assert (Hw0 : (0 < Rabs w)%R) by (apply Rabs_pos_lt; exact Hw).
    nra. }
  rewrite <- (transformPoint_compose_any inv _ x y q Hreg Hq Hregq);
    rewrite Hleft; [|exact Hid].
  rewrite (transformPoint_regular identity x y Hid).
  unfold denominator, identity.
  cbn [idx nth int lit Ideal I.lit Z.leb Z.compare Z.mul Z.pow Z.pow_pos
       Pos.iter Pos.mul].
  f_equal. f_equal; field.
Qed.

Lemma transformPoint_round_trip_witness :
  exists inv q,
    invertMatrix [2; 0; 0; 0; 4; 0; 1; 0; 1]%R = Some inv
    /\ transformPoint [2; 0; 0; 0; 4; 0; 1; 0; 1]%R 1%R 1%R = Some q
    /\ transformPoint inv (px q) (py q) = Some (mkPoint 1 1)%R.
Proof.
  apply (transformPoint_round_trip 2 0 0 0 4 0 1 0 1 1 1)%R.
  - cbn. lra.
  - unfold denominator. cbn. rewrite Rabs_pos_eq; lra.
Defined.

(** ** The fixed point of a homography *)

Section FixedPoint.

Local Open Scope R_scope.

Lemma transformPoint_scaling (s fx fy x y : R) :
  transformPoint (scalingAbout s fx fy) x y
  = Some (mkPoint (fx + s * (x - fx)) (fy + s * (y - fy))).
Proof.
  rewrite transformPoint_regular.
  - unfold denominator, scalingAbout. cbn [idx nth].
    f_equal. f_equal; field.
  - unfold regular, denominator, scalingAbout. cbn [idx nth].
    rewrite Rabs_pos_eq; lra.
Qed.

Lemma iterateFixedPoint_scaling (s fx fy w hg : R) (i : nat) (cx cy : R) :
  iterateFixedPoint i (scalingAbout s fx fy) w hg cx cy
  = Some (mkPoint (fx + s ^ i * (cx - fx)) (fy + s ^ i * (cy - fy))).
Proof.
  revert cx cy. induction i as [|i IH]; intros cx cy.
  - cbn [iterateFixedPoint pow]. unfold ret. apply some_point_eq; ring.
  - cbn [iterateFixedPoint]. rewrite transformPoint_scaling.
    cbn [bind isNaN Ideal orb px py]. rewrite IH.
    apply some_point_eq; cbn [pow]; ring.
Qed.

End FixedPoint.

(** X9.  In exact arithmetic, for the uniform scaling by [s] about the point
    [f] the twenty iterations of [findFixedPoint] from the centre [c] of the
    image end at [f + s^20 (c - f)]: they close in on the fixed point [f] for
    [|s| < 1], and move away from it for [|s| > 1]. *)
Theorem findFixedPoint_scaling (s fx fy w hg : R) :
  findFixedPoint (scalingAbout s fx fy) w hg
  = Some (mkPoint (fx + s ^ 20 * (w / 2 - fx)) (fy + s ^ 20 * (hg / 2 - fy)))%R.
Proof.
  unfold findFixedPoint. cbn [jdiv Ideal].
  assert (H2 : @int R Ideal 2 <> 0%R).
  { cbn [int lit Ideal I.lit Z.leb Z.compare Z.mul Z.pow Z.pow_pos Pos.iter
         Pos.mul]. lra. }
  rewrite !I_div_some by exact H2. cbn [bind].
  rewrite iterateFixedPoint_scaling.
  cbn [int lit Ideal I.lit Z.leb Z.compare Z.mul Z.pow Z.pow_pos Pos.iter
       Pos.mul]. reflexivity.
Qed.

Lemma transformPoint_ieee (h : list float) (x y : float) :
  exists q, transformPoint h x y = Some q.
Proof.
  unfold transformPoint. cbn [jdiv IEEE bind].
  match goal with |- context [if ?c then _ else _] => destruct c end;
    eexists; reflexivity.
Qed.

(** X10.  In binary64 [findFixedPoint] answers for every matrix and every
    size, and it answers a point with a NaN coordinate only when that point is
    the centre [(w/2, hg/2)] itself: an iteration that runs into NaN falls
    back to the centre. *)
Theorem findFixedPoint_nan_guard (h : list float) (w hg : float) :
  length h = 9%nat ->
  exists p,
    findFixedPoint h w hg = Some p
    /\ (p = mkPoint (w / 2)%float (hg / 2)%float
        \/ (PrimFloat.is_nan (px p) = false /\ PrimFloat.is_nan (py p) = false)).
Proof.
  intros _.
  assert (Hgen : forall i cx cy,
             exists p,
               iterateFixedPoint i h w hg cx cy = Some p
               /\ (p = mkPoint (w / 2)%float (hg / 2)%float
                   \/ p = mkPoint cx cy
                   \/ (PrimFloat.is_nan (px p) = false
                       /\ PrimFloat.is_nan (py p) = false))).
  { induction i as [|i IH]; intros cx cy.
    - eexists. split; [reflexivity|]. auto.
    - cbn [iterateFixedPoint].
      destruct (transformPoint_ieee h cx cy) as [next ->].
      cbn [bind isNaN IEEE].
      destruct (PrimFloat.is_nan (px next)) eqn:Ex; cbn [orb].
      + eexists. split; [reflexivity|]. left. reflexivity.
      + destruct (PrimFloat.is_nan (py next)) eqn:Ey.
        * eexists. split; [reflexivity|]. left. reflexivity.
        * destruct (IH (px next) (py next)) as (p & Hp & Hcases).
          exists p. split; [exact Hp|].
          destruct Hcases as [Hc|[Hc|Hc]]; [left; exact Hc | | right; right; exact Hc].
          right. right. subst p. cbn [px py]. auto. }
  unfold findFixedPoint. cbn [jdiv IEEE bind].
  destruct (Hgen 20%nat (w / int 2)%float (hg / int 2)%float) as (p & Hp & Hcases).
  exists p. split; [exact Hp|].
  destruct Hcases as [Hc|[Hc|Hc]]; [left; exact Hc | left; exact Hc | right; exact Hc].
Qed.

Lemma findFixedPoint_nan_guard_witness :
  exists p,
    findFixedPoint [0; 0; 0; 0; 0; 0; 0; 0; 0]%float 800%float 600%float = Some p
    /\ (p = mkPoint (800 / 2)%float (600 / 2)%float
        \/ (PrimFloat.is_nan (px p) = false /\ PrimFloat.is_nan (py p) = false)).
Proof.
  apply (findFixedPoint_nan_guard [0; 0; 0; 0; 0; 0; 0; 0; 0]%float
           800%float 600%float).
  reflexivity.
Defined.

(** ** Affine triangles *)

(** X11.  In exact arithmetic, for a source triangle that passes the guard on
    its determinant, [applyAffineTriangle] clips to the destination triangle
    and draws the image under a transform that sends each source vertex to its
    destination vertex. *)
Theorem applyAffineTriangle_maps_vertices (s0 s1 s2 d0 d1 d2 : Point R) :
  (1 / 1000000 <= Rabs (triangleDet s0 s1 s2))%R ->
  exists a b c d e f,
    applyAffineTriangle [s0; s1; s2] [d0; d1; d2]
    = Some [Save; BeginPath; MoveTo (px d0) (py d0); LineTo (px d1) (py d1);
            LineTo (px d2) (py d2); ClosePath; Clip; Transform a b c d e f;
            DrawImage 0%R 0%R; Restore]
    /\ canvasApply a b c d e f s0 = d0
    /\ canvasApply a b c d e f s1 = d1
    /\ canvasApply a b c d e f s2 = d2.
Proof.
  intros Hdet.
  assert (Hnz : triangleDet s0 s1 s2 <> 0%R).
  { intros E. rewrite E, Rabs_R0 in Hdet. lra. }
  unfold applyAffineTriangle.
  cbn [jlt jadd jsub jmul jdiv Math_abs Ideal].
  fold (triangleDet s0 s1 s2). rewrite lit_1em6.
  rewrite I_ltb_false by exact Hdet.
  rewrite !I_div_some by exact Hnz. cbn [bind ret].
  do 6 eexists. split; [reflexivity|].
  unfold canvasApply, triangleDet in *.
  destruct s0 as [x0 y0], s1 as [x1 y1], s2 as [x2 y2],
           d0 as [u0 v0], d1 as [u1 v1], d2 as [u2 v2].
  cbn [px py] in *.
  repeat split; f_equal; field; exact Hnz.
Qed.

Lemma applyAffineTriangle_maps_vertices_witness :
  exists a b c d e f,
    applyAffineTriangle [mkPoint 0 0; mkPoint 1 0; mkPoint 0 1]%R
                        [mkPoint 5 5; mkPoint 7 5; mkPoint 5 8]%R
    = Some [Save; BeginPath; MoveTo 5%R 5%R; LineTo 7%R 5%R;
            LineTo 5%R 8%R; ClosePath; Clip; Transform a b c d e f;
            DrawImage 0%R 0%R; Restore]
    /\ canvasApply a b c d e f (mkPoint 0 0)%R = (mkPoint 5 5)%R
    /\ canvasApply a b c d e f (mkPoint 1 0)%R = (mkPoint 7 5)%R
    /\ canvasApply a b c d e f (mkPoint 0 1)%R = (mkPoint 5 8)%R.
Proof.
  apply (applyAffineTriangle_maps_vertices
           (mkPoint 0 0) (mkPoint 1 0) (mkPoint 0 1)
           (mkPoint 5 5) (mkPoint 7 5) (mkPoint 5 8))%R.
  unfold triangleDet. cbn. rewrite Rabs_pos_eq; lra.
Defined.

(** X12.  In exact arithmetic and with a positive padding, the clip path of
    [drawPaddedTriangle] is the screen triangle expanded by 3% about its
    centroid, which stays where it is, and the transform handed to the canvas
    sends each image vertex to its vertex of the expanded triangle. *)
Theorem drawPaddedTriangle_maps_vertices
        (q0 q1 q2 i0 i1 i2 : Point R) (padding : R) :
  (0 < padding)%R ->
  (1 / 1000000 <= Rabs (triangleDet i0 i1 i2))%R ->
  let g := centroid3 q0 q1 q2 in
  let s0 := expandAbout g (103 / 100) q0 in
  let s1 := expandAbout g (103 / 100) q1 in
  let s2 := expandAbout g (103 / 100) q2 in
  exists a b c d e f,
    drawPaddedTriangle [q0; q1; q2] [i0; i1; i2] padding
    = Some [Save; BeginPath; MoveTo (px s0) (py s0); LineTo (px s1) (py s1);
            LineTo (px s2) (py s2); ClosePath; Clip; Transform a b c d e f;
            DrawImage 0%R 0%R; Restore]
    /\ canvasApply a b c d e f i0 = s0
    /\ canvasApply a b c d e f i1 = s1
    /\ canvasApply a b c d e f i2 = s2
    /\ centroid3 s0 s1 s2 = g.
Proof.
  intros Hpad Hdet g s0 s1 s2.
  assert (Hnz : triangleDet i0 i1 i2 <> 0%R).
  { intros E. rewrite E, Rabs_R0 in Hdet. lra. }
  unfold drawPaddedTriangle.
  cbn [jlt jle jadd jsub jmul jdiv Math_abs Ideal].
  ideal_lits.
  rewrite !I_div_some by lra. cbn [bind].
  rewrite I_leb_false by exact Hpad.
  cbn [px py].
  fold (triangleDet i0 i1 i2).
  rewrite I_ltb_false by exact Hdet.
  rewrite I_div_some by exact Hnz. cbn [bind ret].
  do 6 eexists. split; [reflexivity|].
  subst s0 s1 s2 g.
  unfold canvasApply, expandAbout, centroid3, triangleDet in *.
  destruct q0 as [a0 b0], q1 as [a1 b1], q2 as [a2 b2],
           i0 as [u0 v0], i1 as [u1 v1], i2 as [u2 v2].
  cbn [px py] in *.
  repeat split; f_equal; field; exact Hnz.
Qed.

Lemma drawPaddedTriangle_maps_vertices_witness :
  let g := (centroid3 (mkPoint 0 0) (mkPoint 3 0) (mkPoint 0 3))%R in
  let s0 := expandAbout g (103 / 100) (mkPoint 0 0)%R in
  let s1 := expandAbout g (103 / 100) (mkPoint 3 0)%R in
  let s2 := expandAbout g (103 / 100) (mkPoint 0 3)%R in
  exists a b c d e f,
    drawPaddedTriangle [mkPoint 0 0; mkPoint 3 0; mkPoint 0 3]%R
                       [mkPoint 0 0; mkPoint 1 0; mkPoint 0 1]%R 1%R
    = Some [Save; BeginPath; MoveTo (px s0) (py s0); LineTo (px s1) (py s1);
            LineTo (px s2) (py s2); ClosePath; Clip; Transform a b c d e f;
            DrawImage 0%R 0%R; Restore]
    /\ canvasApply a b c d e f (mkPoint 0 0)%R = s0
    /\ canvasApply a b c d e f (mkPoint 1 0)%R = s1
    /\ canvasApply a b c d e f (mkPoint 0 1)%R = s2
    /\ centroid3 s0 s1 s2 = g.
Proof.
  apply (drawPaddedTriangle_maps_vertices
           (mkPoint 0 0) (mkPoint 3 0) (mkPoint 0 3)
           (mkPoint 0 0) (mkPoint 1 0) (mkPoint 0 1) 1)%R.
  - lra.
  - unfold triangleDet. cbn. rewrite Rabs_pos_eq; lra.
Defined.

(** ** The zoom loop, run backwards *)

Section ZoomReverse.

Local Open Scope R_scope.

Lemma zoomStep_reverse_additive (speed dt limit z : R) :
  1 <= z < limit ->
  (exists z', zoomStep true IN speed dt limit z = Some z'
              /\ zoomStep true OUT speed dt limit z' = Some z)
  /\ (exists z', zoomStep true OUT speed dt limit z = Some z'
                 /\ zoomStep true IN speed dt limit z' = Some z).
Proof.
  intros Hz. split; cbn; unfold ret.
  - set (d := speed * dt * (5 / 10) * (limit - 1)). clearbody d.
    destruct (Rle_dec limit (z + d)) as [Hw|Hw].
    + rewrite I_leb_true by exact Hw. eexists. split; [reflexivity|].
      rewrite I_ltb_true by lra. f_equal. lra.
    + rewrite I_leb_false by lra. eexists. split; [reflexivity|].
      rewrite I_ltb_false by lra. f_equal. lra.
  - set (d := speed * dt * (5 / 10) * (limit - 1)). clearbody d.
    destruct (Rlt_dec (z - d) 1) as [Hw|Hw].
    + rewrite I_ltb_true by exact Hw. eexists. split; [reflexivity|].
      rewrite I_leb_true by lra. f_equal. lra.
    + rewrite I_ltb_false by lra. eexists. split; [reflexivity|].
      rewrite I_leb_false by lra. f_equal. lra.
Qed.

Lemma zoomStep_reverse_multiplicative (speed dt limit z : R) :
  0 < 1 + speed * dt -> 1 <= z < limit ->
  (exists z', zoomStep false IN speed dt limit z = Some z'
              /\ zoomStep false OUT speed dt limit z' = Some z)
  /\ (exists z', zoomStep false OUT speed dt limit z = Some z'
                 /\ zoomStep false IN speed dt limit z' = Some z).
Proof.
  intros Hs Hz. split; cbn; unfold ret.
  - set (s := 1 + speed * dt) in *. clearbody s.
    destruct (Rle_dec limit (z * s)) as [Hw|Hw].
    + rewrite I_leb_true by exact Hw. rewrite I_div_some by lra.
      eexists. split; [reflexivity|].
      rewrite I_div_some by lra. cbn [bind].
      replace (z * s / limit / s) with (z / limit) by (field; lra).
      assert (Hq : z / limit < 1).
      { apply Rmult_lt_reg_r with limit; [lra|].
        unfold Rdiv. rewrite Rmult_assoc, Rinv_l by lra. lra. }
      rewrite I_ltb_true by exact Hq. f_equal. field. lra.
    + rewrite I_leb_false by lra. eexists. split; [reflexivity|].
      rewrite I_div_some by lra. cbn [bind].
      replace (z * s / s) with z by (field; lra).
      rewrite I_ltb_false by lra. reflexivity.
  - set (s := 1 + speed * dt) in *. clearbody s.
    rewrite I_div_some by lra. cbn [bind].
    destruct (Rlt_dec (z / s) 1) as [Hw|Hw].
    + rewrite I_ltb_true by exact Hw. eexists. split; [reflexivity|].
      replace (z / s * limit * s) with (z * limit) by (field; lra).
      rewrite I_leb_true by nra. rewrite I_div_some by lra.
      f_equal. field. lra.
    + rewrite I_ltb_false by lra. eexists. split; [reflexivity|].
      replace (z / s * s) with z by (field; lra).
      rewrite I_leb_false by lra. reflexivity.
Qed.

End ZoomReverse.

(** X13.  In exact arithmetic a tick of the animation in one direction is
    undone by the same tick in the other direction, wraps included and
    whatever the length of the tick, for a zoom level in [[1, limit)] and a
    positive factor [1 + speed * dt]. *)
Theorem zoomStep_reverse (constantSpeed : bool) (speed dt limit z : R) :
  (0 < 1 + speed * dt)%R -> (1 <= z < limit)%R ->
  (exists z', zoomStep constantSpeed IN speed dt limit z = Some z'
              /\ zoomStep constantSpeed OUT speed dt limit z' = Some z)
  /\ (exists z', zoomStep constantSpeed OUT speed dt limit z = Some z'
                 /\ zoomStep constantSpeed IN speed dt limit z' = Some z).
Proof.
  intros Hs Hz. destruct constantSpeed.
  - now apply zoomStep_reverse_additive.
  - now apply zoomStep_reverse_multiplicative.
Qed.

Lemma zoomStep_reverse_witness :
  (exists z', zoomStep false IN 1%R 4%R 2%R 1%R = Some z'
              /\ zoomStep false OUT 1%R 4%R 2%R z' = Some 1%R)
  /\ (exists z', zoomStep false OUT 1%R 4%R 2%R 1%R = Some z'
                 /\ zoomStep false IN 1%R 4%R 2%R z' = Some 1%R).
Proof.
  apply (zoomStep_reverse false 1%R 4%R 2%R 1%R); lra.
Defined.

(** ** The export schedule *)

Section ExportBounds.

Local Open Scope R_scope.

Lemma floor_bounds (x : R) : I.floor x <= x < I.floor x + 1.
Proof.
  unfold I.floor. destruct (base_Int_part x) as [H1 H2]. lra.
Qed.

Lemma floor_le_int (x : R) (z : Z) : x <= IZR z -> I.floor x <= IZR z.
Proof.
  intros Hx. unfold I.floor. apply IZR_le.
  destruct (base_Int_part x) as [H1 H2].
  assert (H : IZR (Int_part x) < IZR (z + 1)) by (rewrite plus_IZR; lra).
  apply lt_IZR in H. lia.
Qed.

Lemma exportDuration_defined (scale zoomSpeed : R) (constantSpeed : bool) :
  exists d, exportDuration scale zoomSpeed constantSpeed = Some d
            /\ 2 / 10 <= d <= 10.
Proof.
  unfold exportDuration. cbn [truthy Ideal].
  set (speed := if I.truthy zoomSpeed then zoomSpeed else int 1).
  assert (Hspeed : speed <> 0).
  { unfold speed, I.truthy. destruct (Req_dec_T zoomSpeed 0).
    - rewrite int_IZR. lra.
    - assumption. }
  assert (Hclamp : forall x, 2 / 10 <= Rmax (2 / 10) (Rmin x 10) <= 10).
  { intros x. split; [apply Rmax_l|]. apply Rmax_lub; [lra | apply Rmin_r]. }
  destruct constantSpeed; cbn [jdiv Math_log Math_max Math_min Ideal].
  - rewrite I_div_some by exact Hspeed. cbn [bind ret].
    eexists. split; [reflexivity|]. ideal_lits. apply Hclamp.
  - ideal_lits.
    assert (Hm : 11 / 10 <= Rmax (11 / 10) scale) by apply Rmax_l.
    rewrite I_log_some by lra. cbn [bind].
    rewrite I_div_some by exact Hspeed. cbn [bind ret].
    eexists. split; [reflexivity|]. apply Hclamp.
Qed.

End ExportBounds.

(** X14.  In exact arithmetic, whatever the loop scale and the speed setting
    (zero and negative speeds included), an export lasts between 0.2 and 10
    seconds and has a whole number of frames between 10 and 300. *)
Theorem export_frames_bounded (scale zoomSpeed : R) (constantSpeed : bool) :
  exists d n,
    exportDuration scale zoomSpeed constantSpeed = Some d
    /\ (2 / 10 <= d <= 10)%R
    /\ totalFrames d = IZR n /\ (10 <= n <= 300)%Z.
Proof.
  destruct (exportDuration_defined scale zoomSpeed constantSpeed)
    as (d & Hd & Hlo & Hhi).
  exists d. unfold totalFrames, targetFPS.
  cbn [Math_max Math_floor jmul Ideal]. rewrite !int_IZR.
  destruct (Rle_dec 10 (I.floor (d * 30))) as [Hf|Hf].
  - exists (Int_part (d * 30)). split; [exact Hd|]. split; [lra|].
    rewrite Rmax_right by exact Hf. split; [reflexivity|].
    split.
    + apply le_IZR. exact Hf.
    + apply le_IZR. apply (floor_le_int (d * 30) 300). lra.
  - exists 10%Z. split; [exact Hd|]. split; [lra|].
    rewrite Rmax_left by lra. split; [reflexivity | lia].
Qed.

Section FramePhase.

Local Open Scope R_scope.

Lemma framePhase_out (scale total i p : R) :
  framePhase scale true IN total i = Some p ->
  framePhase scale true OUT total i = Some (1 - p).
Proof.
  unfold framePhase. cbn [jdiv Ideal].
  destruct (I.div i total) as [t|]; [|discriminate]. cbn [bind].
  match goal with
  | |- bind ?m _ = _ -> _ => destruct m as [q|]; [|discriminate]
  end.
  cbn [bind ret]. intros [= ->]. rewrite int_IZR. reflexivity.
Qed.

End FramePhase.

(** X15.  In exact arithmetic and for a loop scale above [1], the phases of a
    constant-speed export start at [0], stay below [1] and increase strictly
    from frame to frame; zooming out runs through the same phases
    backwards. *)
Theorem framePhase_increasing (scale total i i' : R) :
  (1 < scale)%R -> (0 <= i < i')%R -> (i' < total)%R ->
  exists p p',
    framePhase scale true IN total i = Some p
    /\ framePhase scale true IN total i' = Some p'
    /\ (0 <= p < p')%R /\ (p' < 1)%R
    /\ framePhase scale true IN total 0%R = Some 0%R
    /\ framePhase scale true OUT total i = Some (1 - p)%R.
Proof.
  intros Hs Hi Hi'.
  assert (Ht : (0 < total)%R) by lra.
  pose proof (ln_pos scale Hs) as Hln.
  rewrite (framePhase_constant_in scale total i) by lra.
  rewrite (framePhase_constant_in scale total i') by lra.
  rewrite (framePhase_constant_in scale total 0) by lra.
  assert (Hq : (0 <= i / total)%R) by (apply Rle_mult_inv_pos; lra).
  assert (Hqq : (i / total < i' / total)%R).
  { unfold Rdiv. apply Rmult_lt_compat_r; [apply Rinv_0_lt_compat|]; lra. }
  assert (Hq1 : (i' / total < 1)%R).
  { apply Rmult_lt_reg_r with total; [lra|].
    unfold Rdiv. rewrite Rmult_assoc, Rinv_l by lra. lra. }
  set (Z := (1 + (scale - 1) * (i / total))%R).
  set (Z' := (1 + (scale - 1) * (i' / total))%R).
  assert (HZ : (1 <= Z)%R) by (unfold Z; nra).
  assert (HZZ : (Z < Z')%R) by (unfold Z, Z'; nra).
  assert (HZ1 : (Z' < scale)%R) by (unfold Z'; nra).
  assert (Hl0 : (0 <= ln Z)%R).
  { rewrite <- ln_1. destruct (Req_dec Z 1) as [->|Hne]; [lra|].
    left. apply ln_increasing; lra. }
  assert (Hl1 : (ln Z < ln Z')%R) by (apply ln_increasing; lra).
  assert (Hl2 : (ln Z' < ln scale)%R) by (apply ln_increasing; lra).
  do 2 eexists. split; [reflexivity|]. split; [reflexivity|].
  split; [split|split; [|split]].
  - apply Rle_mult_inv_pos; lra.
  - unfold Rdiv. apply Rmult_lt_compat_r; [apply Rinv_0_lt_compat|]; lra.
  - apply Rmult_lt_reg_r with (ln scale); [lra|].
    unfold Rdiv. rewrite Rmult_assoc, Rinv_l by lra. lra.
  - f_equal. unfold Rdiv at 2. rewrite Rmult_0_l, Rmult_0_r, Rplus_0_r, ln_1.
    unfold Rdiv. ring.
  - apply framePhase_out. apply framePhase_constant_in; lra.
Qed.

Lemma framePhase_increasing_witness :
  exists p p',
    framePhase 2%R true IN 60%R 30%R = Some p
    /\ framePhase 2%R true IN 60%R 31%R = Some p'
    /\ (0 <= p < p')%R /\ (p' < 1)%R
    /\ framePhase 2%R true IN 60%R 0%R = Some 0%R
    /\ framePhase 2%R true OUT 60%R 30%R = Some (1 - p)%R.
Proof.
  apply (framePhase_increasing 2%R 60%R 30%R 31%R); lra.
Defined.

(** ** The phase of a frame *)

(** X16.  In exact arithmetic and for a positive loop scale, the phase
    [renderCanvas] works with lies in [[0, 1)], whether it comes from an
    export or from the live zoom level; inside the loop range it is
    [log zoomLevel / log scale]. *)
Theorem phase_in_unit_interval (scale zoomLevel : R) (phaseOverride : option R) :
  (0 < scale)%R ->
  exists p,
    phase scale zoomLevel phaseOverride = Some p
    /\ (0 <= p < 1)%R
    /\ (phaseOverride = None -> (1 / 10000 < ln scale)%R ->
        (1 <= zoomLevel < scale)%R -> p = (ln zoomLevel / ln scale)%R).
Proof.
  intros Hs.
  assert (Hfrac : forall x : R, (0 <= x - I.floor x < 1)%R).
  { intros x. pose proof (floor_bounds x). lra. }
  unfold phase. destruct phaseOverride as [p0|].
  - cbn [bind ret jsub Math_floor Ideal].
    eexists. split; [reflexivity|]. split; [apply Hfrac|]. discriminate.
  - cbn [Math_log Math_max jlt jdiv jsub Math_floor Ideal].
    rewrite I_log_some by exact Hs. cbn [bind]. ideal_lits.
    destruct (Rlt_dec (1 / 10000) (ln scale)) as [Hl|Hl].
    + rewrite I_ltb_true by exact Hl.
      assert (Hm : (1 <= Rmax 1 zoomLevel)%R) by apply Rmax_l.
      rewrite I_log_some by lra. cbn [bind].
      rewrite I_div_some by lra. cbn [bind ret].
      eexists. split; [reflexivity|]. split; [apply Hfrac|].
      intros _ _ Hz. rewrite Rmax_right by lra.
      set (q := (ln zoomLevel / ln scale)%R).
      assert (Hq : (0 <= q < 1)%R).
      { unfold q. split.
        - apply Rle_mult_inv_pos; [|lra]. rewrite <- ln_1.
          destruct (Req_dec zoomLevel 1) as [->|Hne]; [lra|].
          left. apply ln_increasing; lra.
        - apply Rmult_lt_reg_r with (ln scale); [lra|].
          unfold Rdiv. rewrite Rmult_assoc, Rinv_l by lra.
          rewrite Rmult_1_r, Rmult_1_l. apply ln_increasing; lra. }
      assert (Hf : I.floor q = 0%R).
      { unfold I.floor. pose proof (floor_bounds q) as Hb. unfold I.floor in Hb.
        assert (H1 : (IZR (Int_part q) < IZR 1)%R) by lra.
        assert (H2 : (IZR (-1) < IZR (Int_part q))%R) by lra.
        apply lt_IZR in H1, H2. f_equal. lia. }
      rewrite Hf. lra.
    + rewrite I_ltb_false by lra. cbn [bind ret].
      eexists. split; [reflexivity|]. split; [apply Hfrac|].
      intros _ Hl'. lra.
Qed.

Lemma phase_in_unit_interval_witness :
  exists p,
    phase 2%R (3 / 2)%R None = Some p
    /\ (0 <= p < 1)%R /\ p = (ln (3 / 2) / ln 2)%R.
Proof.
  destruct (phase_in_unit_interval 2%R (3 / 2)%R None ltac:(lra))
    as (p & Hp & Hr & Heq).
  exists p. split; [exact Hp|]. split; [exact Hr|].
  apply Heq; [reflexivity | pose proof ln_lt_2; lra | lra].
Defined.

(** ** The loop scale and the size of the image *)

Section LoopScaleSize.

Local Open Scope R_scope.

Lemma areaQuadOf_scales (iw ih : R) (quad : Quad R) :
  0 <= iw -> 0 <= ih ->
  areaQuadOf iw ih quad
  = iw * ih * getQuadArea (p1 quad) (p2 quad) (p3 quad) (p4 quad).
Proof.
  intros Hw Hh. unfold areaQuadOf, qPoints, getQuadArea.
  cbn [px py p1 p2 p3 p4 jadd jsub jmul Math_abs Ideal]. ideal_lits.
  destruct quad as [[x1 y1] [x2 y2] [x3 y3] [x4 y4]]. cbn [px py p1 p2 p3 p4].
  match goal with
  | |- _ * Rabs ?e = _ * (_ * Rabs ?f) =>
      replace e with ((iw * ih) * f) by ring
  end.
  rewrite Rabs_mult, (Rabs_pos_eq (iw * ih)) by nra. ring.
Qed.

End LoopScaleSize.

(** X17.  In exact arithmetic, where the computed area of the quad is at least
    one square pixel, the loop scale does not depend on the size of the image:
    it is [sqrt (1 / a)] for the area [a] computed for the normalized quad. *)
Theorem loopScale_size_independent (iw ih : R) (quad : Quad R) :
  (0 < iw)%R -> (0 < ih)%R -> (1 <= areaQuadOf iw ih quad)%R ->
  loopScale iw ih quad
  = Some (sqrt (1 / getQuadArea (p1 quad) (p2 quad) (p3 quad) (p4 quad))).
Proof.
  intros Hw Hh Harea. unfold loopScale. cbn [jmul Ideal].
  rewrite scaleOf_some by nra. rewrite Rmax_right by exact Harea.
  rewrite areaQuadOf_scales in * by lra.
  set (a := getQuadArea _ _ _ _) in *.
  assert (Ha : (a <> 0)%R) by (intros E; rewrite E in Harea; lra).
  do 2 f_equal. field. repeat split; lra.
Qed.

Lemma loopScale_size_independent_witness :
  loopScale 800%R 600%R (centeredSquare (1 / 4) (3 / 4))%R
  = Some (sqrt (1 / getQuadArea (p1 (centeredSquare (1 / 4) (3 / 4))%R)
                                (p2 (centeredSquare (1 / 4) (3 / 4))%R)
                                (p3 (centeredSquare (1 / 4) (3 / 4))%R)
                                (p4 (centeredSquare (1 / 4) (3 / 4))%R))).
Proof.
  apply (loopScale_size_independent 800%R 600%R); try lra.
  rewrite export_scenario_area. lra.
Defined.

(** ** Clamped coordinates *)

Section Binary64Order.

Lemma SFcompare_antisym (x y : spec_float) :
  SFcompare y x = option_map CompOpp (SFcompare x y).
Proof.
  destruct x as [sx|sx| |sx mx ex], y as [sy|sy| |sy my ey];
    try reflexivity;
    try (destruct sx; reflexivity);
    try (destruct sy; reflexivity);
    try (destruct sx, sy; reflexivity).
  unfold SFcompare.
  destruct sx, sy; try reflexivity; cbn [option_map]; f_equal;
    rewrite (Z.compare_antisym ex ey);
    destruct (ex ?= ey)%Z; cbn [CompOpp]; try reflexivity;
    rewrite (Pos.compare_cont_antisym mx my Eq); cbn [CompOpp];
    destruct (Pos.compare_cont Eq mx my); reflexivity.
Qed.

Lemma is_nan_spec (x : float) :
  PrimFloat.is_nan x = false -> Prim2SF x <> S754_nan.
Proof.
  unfold PrimFloat.is_nan. rewrite FloatAxioms.eqb_spec. intros H E.
  rewrite E in H. discriminate H.
Qed.

Lemma SFcompare_defined (x y : spec_float) :
  x <> S754_nan -> y <> S754_nan -> SFcompare x y <> None.
Proof.
  intros Hx Hy.
  destruct x as [sx|sx| |sx mx ex], y as [sy|sy| |sy my ey];
    try congruence; cbn; discriminate.
Qed.

Lemma ltb_leb (x y : float) :
  PrimFloat.ltb x y = true -> PrimFloat.leb x y = true.
Proof.
  rewrite FloatAxioms.ltb_spec, FloatAxioms.leb_spec. unfold SFltb, SFleb.
  destruct (SFcompare (Prim2SF x) (Prim2SF y)) as [[| |]|];
    try discriminate; reflexivity.
Qed.

Lemma not_ltb_leb (x y : float) :
  PrimFloat.is_nan x = false -> PrimFloat.is_nan y = false ->
  PrimFloat.ltb x y = false -> PrimFloat.leb y x = true.
Proof.
  intros Hx Hy. apply is_nan_spec in Hx, Hy.
  rewrite FloatAxioms.ltb_spec, FloatAxioms.leb_spec. unfold SFltb, SFleb.
  rewrite (SFcompare_antisym (Prim2SF x) (Prim2SF y)).
  pose proof (SFcompare_defined _ _ Hx Hy) as Hd.
  destruct (SFcompare (Prim2SF x) (Prim2SF y)) as [[| |]|];
    try discriminate; try reflexivity. congruence.
Qed.

(** [Math.max(lo, Math.min(hi, v))] lies between [lo] and [hi] when [v] is
    a number, and is NaN when [v] is. *)
Lemma clamp_defined (lo hi v : float) :
  PrimFloat.is_nan lo = false -> PrimFloat.is_nan hi = false ->
  PrimFloat.leb lo hi = true ->
  PrimFloat.leb lo lo = true -> PrimFloat.leb hi hi = true ->
  PrimFloat.is_nan v = false ->
  let r := F.max lo (F.min hi v) in
  PrimFloat.leb lo r = true /\ PrimFloat.leb r hi = true.
Proof.
  intros Hlo Hhi Hle Hlolo Hhihi Hv r. subst r.
  assert (Hm : PrimFloat.is_nan (F.min hi v) = false
               /\ PrimFloat.leb (F.min hi v) hi = true).
  { unfold F.min. rewrite Hhi, Hv. cbn [orb].
    destruct (PrimFloat.ltb hi v) eqn:E1; [auto|].
    destruct (PrimFloat.ltb v hi) eqn:E2; [split; [exact Hv | now apply ltb_leb]|].
    destruct (PrimFloat.get_sign hi); [auto|].
    split; [exact Hv | now apply not_ltb_leb]. }
  destruct Hm as [Hmn Hmle]. set (m := F.min hi v) in *.
  unfold F.max. rewrite Hlo, Hmn. cbn [orb].
  destruct (PrimFloat.ltb lo m) eqn:E1; [split; [now apply ltb_leb | exact Hmle]|].
  destruct (PrimFloat.ltb m lo) eqn:E2; [auto|].
  destruct (PrimFloat.get_sign lo).
  - split; [now apply not_ltb_leb | exact Hmle].
  - auto.
Qed.

Lemma clamp_ieee (lo hi v : float) :
  PrimFloat.is_nan lo = false -> PrimFloat.is_nan hi = false ->
  PrimFloat.leb lo hi = true ->
  PrimFloat.leb lo lo = true -> PrimFloat.leb hi hi = true ->
  let r := F.max lo (F.min hi v) in
  PrimFloat.is_nan r = true
  \/ (PrimFloat.leb lo r = true /\ PrimFloat.leb r hi = true).
Proof.
  intros Hlo Hhi Hle Hlolo Hhihi r. subst r.
  destruct (PrimFloat.is_nan v) eqn:Hv.
  - left. unfold F.min. rewrite Hv, orb_true_r.
    unfold F.max. change (PrimFloat.is_nan PrimFloat.nan) with true.
    rewrite orb_true_r. reflexivity.
  - right. now apply clamp_defined.
Qed.

(** What [transformPointSafe] answers in binary64. *)
Lemma transformPointSafe_ieee (h : list float) (x y : float) :
  exists r, transformPointSafe h x y = Some r
            /\ match r with
               | None => True
               | Some p =>
                   (PrimFloat.is_nan (px p) = true
                    \/ (PrimFloat.leb (-50000) (px p) = true
                        /\ PrimFloat.leb (px p) 50000 = true))
                   /\ (PrimFloat.is_nan (py p) = true
                       \/ (PrimFloat.leb (-50000) (py p) = true
                           /\ PrimFloat.leb (py p) 50000 = true))
               end.
Proof.
  unfold transformPointSafe.
  cbn [jdiv IEEE bind ret].
  match goal with |- context [if ?c then _ else _] => destruct c end.
  - exists None. auto.
  - eexists. split; [reflexivity|]. cbn [px py].
    cbn [Math_max Math_min jneg IEEE].
    change (PrimFloat.opp SAFE_COORDINATE_LIMIT) with (-50000)%float.
    change (@SAFE_COORDINATE_LIMIT float IEEE) with 50000%float.
    split; apply clamp_ieee; reflexivity.
Qed.

End Binary64Order.

(** X18.  [transformPointSafe] answers [null] or a point whose coordinates are
    clamped: in binary64 each coordinate is NaN or lies in [[-50000, 50000]],
    so never an infinity; in exact arithmetic [null] is answered exactly when
    the denominator is below [1e-4], and otherwise both coordinates lie in
    [[-50000, 50000]]. *)
Theorem transformPointSafe_clamped (hf : list float) (xf yf : float)
        (hr : list R) (x y : R) :
  length hf = 9%nat -> length hr = 9%nat ->
  (exists r, transformPointSafe hf xf yf = Some r
             /\ match r with
                | None => True
                | Some p =>
                    (PrimFloat.is_nan (px p) = true
                     \/ (PrimFloat.leb (-50000) (px p) = true
                         /\ PrimFloat.leb (px p) 50000 = true))
                    /\ (PrimFloat.is_nan (py p) = true
                        \/ (PrimFloat.leb (-50000) (py p) = true
                            /\ PrimFloat.leb (py p) 50000 = true))
                end)
  /\ (exists r, transformPointSafe hr x y = Some r
                /\ match r with
                   | None => (denominator hr x y < 1 / 10000)%R
                   | Some p =>
                       (1 / 10000 <= denominator hr x y)%R
                       /\ (-50000 <= px p <= 50000)%R
                       /\ (-50000 <= py p <= 50000)%R
                   end).
Proof.
  intros _ _. split.
  - apply transformPointSafe_ieee.
  - unfold transformPointSafe.
    cbn [jlt jadd jmul jdiv jneg Math_max Math_min Ideal].
    fold (denominator hr x y). unfold SAFE_COORDINATE_LIMIT. ideal_lits.
    destruct (Rlt_dec (denominator hr x y) (1 / 10000)) as [Hw|Hw].
    + rewrite I_ltb_true by exact Hw. exists None. split; [reflexivity | exact Hw].
    + rewrite I_ltb_false by lra. rewrite !I_div_some by lra.
      cbn [bind ret]. eexists. split; [reflexivity|]. cbn [px py].
      assert (Hclamp : forall v, (-50000 <= Rmax (- 50000) (Rmin 50000 v) <= 50000)%R).
      { intros v. split; [apply Rmax_l|].
        apply Rmax_lub; [lra | apply Rmin_l]. }
      split; [lra|]. split; apply Hclamp.
Qed.

Lemma transformPointSafe_clamped_witness :
  (exists r, transformPointSafe [1; 0; 0; 0; 1; 0; 0; 0; 1]%float
                                infinity 600%float = Some r
             /\ match r with
                | None => True
                | Some p =>
                    (PrimFloat.is_nan (px p) = true
                     \/ (PrimFloat.leb (-50000) (px p) = true
                         /\ PrimFloat.leb (px p) 50000 = true))
                    /\ (PrimFloat.is_nan (py p) = true
                        \/ (PrimFloat.leb (-50000) (py p) = true
                            /\ PrimFloat.leb (py p) 50000 = true))
                end)
  /\ (exists r, transformPointSafe [1; 0; 0; 0; 1; 0; 0; 0; 1]%R
                                   800000%R 600%R = Some r
                /\ match r with
                   | None =>
                       (denominator [1; 0; 0; 0; 1; 0; 0; 0; 1] 800000 600
                        < 1 / 10000)%R
                   | Some p =>
                       (1 / 10000
                        <= denominator [1; 0; 0; 0; 1; 0; 0; 0; 1] 800000 600)%R
                       /\ (-50000 <= px p <= 50000)%R
                       /\ (-50000 <= py p <= 50000)%R
                   end).
Proof.
  apply (transformPointSafe_clamped [1; 0; 0; 0; 1; 0; 0; 0; 1]%float
           infinity 600%float [1; 0; 0; 0; 1; 0; 0; 0; 1]%R 800000%R 600%R);
    reflexivity.
Defined.

(** ** The seam of the loop *)

Section Seam.

Local Open Scope R_scope.

Lemma viewport_start (iw ih : R) (q : Quad R) :
  viewport iw ih q 0 = rectQuad iw ih.
Proof.
  unfold viewport, screenRect, rectQuad, lerp.
  cbn [px py p1 p2 p3 p4 jadd jsub jmul Ideal].
  f_equal; f_equal; ring.
Qed.

Lemma viewport_end (iw ih : R) (q : Quad R) :
  viewport iw ih q 1 = q.
Proof.
  unfold viewport, screenRect, lerp.
  cbn [px py p1 p2 p3 p4 jadd jsub jmul Ideal].
  destruct q as [[x1 y1] [x2 y2] [x3 y3] [x4 y4]]. cbn [px py p1 p2 p3 p4].
  f_equal; f_equal; ring.
Qed.

Lemma invertMatrix_identity : invertMatrix (@identity R Ideal) = Some identity.
Proof.
  unfold identity. rewrite !int_IZR.
  rewrite (invertMatrix_entries 1 0 0 0 1 0 0 0 1)
    by (unfold det3; cbn [idx nth jadd jsub jmul jneg Ideal]; lra).
  unfold det3. cbn [idx nth jadd jsub jmul jneg Ideal].
  f_equal. repeat (apply (f_equal2 (@cons R)); [field|]). reflexivity.
Qed.

Lemma invertMatrix_left (m : list R) :
  length m = 9%nat -> det3 m <> 0 ->
  exists inv, invertMatrix m = Some inv /\ multiplyMatrix inv m = identity.
Proof.
  intros Hlen Hdet.
  destruct m as [|m0 [|m1 [|m2 [|m3 [|m4 [|m5 [|m6 [|m7 [|m8 [|]]]]]]]]]];
    try discriminate Hlen.
  destruct (invertMatrix_two_sided m0 m1 m2 m3 m4 m5 m6 m7 m8 Hdet)
    as (inv & H1 & _ & H2 & _).
  exists inv. auto.
Qed.

Lemma multiplyMatrix_identity_comm (a : list R) :
  multiplyMatrix a identity = multiplyMatrix identity a.
Proof.
  unfold multiplyMatrix, identity.
  cbn [flat_map map fold_left app Nat.mul Nat.add idx nth jadd jmul Ideal].
  rewrite !int_IZR.
  repeat (apply (f_equal2 (@cons R)); [ring|]). reflexivity.
Qed.

Lemma chainAfter_last (m c : list R) (k : nat) :
  chainAfter m c (S k) = multiplyMatrix (chainAfter m c k) m.
Proof.
  replace (S k) with (k + 1)%nat by lia. rewrite chainAfter_add. reflexivity.
Qed.

Lemma seam_layers (Hm HInv : list R) :
  multiplyMatrix HInv Hm = identity ->
  forall k, layerMatrixOf HInv Hm HInv (S k) = layerMatrixOf identity Hm HInv k.
Proof.
  intros Hinv k. unfold layerMatrixOf.
  induction k as [|k IH].
  - rewrite chainAfter_last. unfold startChain.
    change (Z.abs_nat START_LAYER) with 2%nat.
    unfold chainAfter. cbn [seq fold_left].
    rewrite (multiplyMatrix_assoc_any (multiplyMatrix identity HInv) HInv Hm).
    rewrite Hinv, multiplyMatrix_identity_r.
    rewrite <- (multiplyMatrix_assoc_any HInv identity HInv).
    rewrite multiplyMatrix_identity_comm.
    rewrite multiplyMatrix_identity_l. reflexivity.
  - rewrite chainAfter_last.
    rewrite <- (multiplyMatrix_assoc_any HInv _ Hm). rewrite IH.
    rewrite multiplyMatrix_assoc_any. rewrite <- chainAfter_last. reflexivity.
Qed.

End Seam.

(** X19.  In exact arithmetic the loop closes without a seam. At phase [0] the
    viewport is the whole image and the view matrix [K] is the identity; with
    the viewport on the inner quad (phase [1]) [K] is the inverse of [H], and
    every layer [j + 1] is then drawn with the matrix layer [j] has at phase
    [0]. *)
Theorem loop_seam (iw ih : R) (quad : Quad R) (Hm : list R) :
  (1 / 10000000000 <= iw)%R -> (1 / 10000000000 <= ih)%R ->
  (1 / 10000000000 <= iw * ih)%R ->
  computeHomography iw ih (qPoints iw ih quad) = Some Hm ->
  det3 Hm <> 0%R ->
  exists HInv,
    frameMatrices iw ih quad 0%R = Some (identity, Hm, startChain HInv)
    /\ frameMatrices iw ih quad 1%R = Some (HInv, Hm, startChain HInv)
    /\ forall k,
        layerMatrixOf HInv Hm HInv (S k) = layerMatrixOf identity Hm HInv k.
Proof.
  intros Hw Hh Hwh HH Hdet.
  destruct (computeHomography_defined iw ih (qPoints iw ih quad))
    as (m & Hm' & Hlen & _).
  rewrite HH in Hm'. injection Hm' as <-.
  destruct (invertMatrix_left Hm Hlen Hdet) as (HInv & Hinv & Hleft).
  exists HInv. split; [|split].
  - unfold frameMatrices. rewrite viewport_start.
    unfold computeHomography at 1.
    destruct (rect_systems iw ih) as [-> ->].
    rewrite (rect_solution iw ih) by lra.
    cbn [bind]. rewrite ideal_all_finite.
    change (ret ([1; 0; 0; 0; 1; 0; 0; 0]%R ++ [int 1])) with (Some (@identity R Ideal)).
    cbn [bind]. rewrite invertMatrix_identity. cbn [bind].
    rewrite HH. cbn [bind]. rewrite Hinv. reflexivity.
  - unfold frameMatrices. rewrite viewport_end.
    rewrite HH. cbn [bind]. rewrite Hinv. cbn [bind]. reflexivity.
  - apply seam_layers, Hleft.
Qed.

Lemma loop_seam_witness :
  exists HInv,
    frameMatrices 4%R 2%R trapezoid 0%R
    = Some (identity, [1 / 2; 1; 1; 0; 5 / 4; 1 / 2; 0; 1 / 2; 1]%R,
            startChain HInv)
    /\ frameMatrices 4%R 2%R trapezoid 1%R
       = Some (HInv, [1 / 2; 1; 1; 0; 5 / 4; 1 / 2; 0; 1 / 2; 1]%R,
               startChain HInv)
    /\ forall k,
        layerMatrixOf HInv [1 / 2; 1; 1; 0; 5 / 4; 1 / 2; 0; 1 / 2; 1]%R
                      HInv (S k)
        = layerMatrixOf identity [1 / 2; 1; 1; 0; 5 / 4; 1 / 2; 0; 1 / 2; 1]%R
                        HInv k.
Proof.
  apply (loop_seam 4%R 2%R trapezoid
                   [1 / 2; 1; 1; 0; 5 / 4; 1 / 2; 0; 1 / 2; 1]%R); try lra.
  - exact (proj2 (proj2 trapezoid_homography)).
  - unfold det3. cbn [idx nth jadd jsub jmul jneg Ideal]. lra.
Defined.

(** ** The size of an export *)

Section ExportSize.

Local Open Scope R_scope.

Lemma round_bounds (x : R) : x - 1 / 2 < IMath.round x <= x + 1 / 2.
Proof.
  unfold IMath.round. destruct (base_Int_part (x + 1 / 2)) as [H1 H2]. lra.
Qed.

Lemma round_le_int (x : R) (z : Z) : x <= IZR z -> IMath.round x <= IZR z.
Proof.
  intros Hx. pose proof (round_bounds x) as [_ Hb]. unfold IMath.round in *.
  apply IZR_le.
  assert (H : IZR (Int_part (x + 1 / 2)) < IZR (z + 1)) by (rewrite plus_IZR; lra).
  apply lt_IZR in H. lia.
Qed.

Lemma round_ge_int (x : R) (z : Z) : IZR z <= x -> IZR z <= IMath.round x.
Proof.
  intros Hx. pose proof (round_bounds x) as [Hb _]. unfold IMath.round in *.
  apply IZR_le.
  assert (H : IZR (z - 1) < IZR (Int_part (x + 1 / 2))) by (rewrite minus_IZR; lra).
  apply lt_IZR in H. lia.
Qed.

Lemma round_small (x : R) : 0 <= x < 1 / 2 -> IMath.round x = 0.
Proof.
  intros Hx. pose proof (round_bounds x) as [H1 H2]. unfold IMath.round in *.
  assert (Ha : IZR (Int_part (x + 1 / 2)) < IZR 1) by lra.
  assert (Hb : IZR (-1) < IZR (Int_part (x + 1 / 2))) by lra.
  apply lt_IZR in Ha, Hb. f_equal. lia.
Qed.

Lemma exportSize_fits (iw ih : R) :
  iw <= 500 -> ih <= 500 ->
  exportSize (mkElement iw ih) = Some (iw, ih).
Proof.
  intros Hw Hh. unfold exportSize, MAX_EXPORT_DIMENSION.
  cbn [width height jlt Ideal]. rewrite int_IZR.
  rewrite !I_ltb_false by lra. reflexivity.
Qed.

Lemma exportSize_wide (iw ih : R) :
  0 < ih < iw -> 500 < iw ->
  exportSize (mkElement iw ih) = Some (500, IMath.round (500 * ih / iw)).
Proof.
  intros Hh Hw. unfold exportSize, MAX_EXPORT_DIMENSION.
  cbn [width height jlt jdiv jmul Math_round Ideal IdealMath]. rewrite int_IZR.
  rewrite (I_ltb_true 500 iw) by lra. cbn [orb].
  rewrite I_div_some by lra. cbn [bind].
  rewrite I_ltb_true by lra.
  assert (Hq : iw / ih <> 0).
  { unfold Rdiv. apply Rmult_integral_contrapositive_currified; [lra|].
    apply Rinv_neq_0_compat. lra. }
  rewrite I_div_some by exact Hq. cbn [bind ret].
  replace (500 / (iw / ih)) with (500 * ih / iw) by (field; lra).
  reflexivity.
Qed.

Lemma exportSize_tall (iw ih : R) :
  0 < iw <= ih -> 500 < ih ->
  exportSize (mkElement iw ih) = Some (IMath.round (500 * iw / ih), 500).
Proof.
  intros Hw Hh. unfold exportSize, MAX_EXPORT_DIMENSION.
  cbn [width height jlt jdiv jmul Math_round Ideal IdealMath]. rewrite int_IZR.
  rewrite (I_ltb_true 500 ih) by lra. rewrite orb_true_r.
  rewrite I_div_some by lra. cbn [bind].
  rewrite I_ltb_false by lra. unfold ret.
  replace (500 * (iw / ih)) with (500 * iw / ih) by (field; lra).
  reflexivity.
Qed.

End ExportSize.

(** X20.  In exact arithmetic and for an image of positive width and height,
    the size of the exported GIF never exceeds 500 in either direction; an
    image that fits is exported at its own size, a larger one is scaled so
    that its longer side is 500 and the other side is the nearest integer to
    the proportional length, which is [0] for an image more than a thousand
    times wider than high. *)
Theorem exportSize_bounded (iw ih : R) :
  (0 < iw)%R -> (0 < ih)%R ->
  exists W H,
    exportSize (mkElement iw ih) = Some (W, H)
    /\ (0 <= W <= 500)%R /\ (0 <= H <= 500)%R
    /\ ((iw <= 500)%R -> (ih <= 500)%R -> W = iw /\ H = ih)
    /\ ((500 < iw)%R \/ (500 < ih)%R ->
        (W = 500%R /\ (Rabs (H - 500 * ih / iw) <= 1 / 2)%R)
        \/ (H = 500%R /\ (Rabs (W - 500 * iw / ih) <= 1 / 2)%R))
    /\ ((500 < iw)%R -> (1000 * ih < iw)%R -> H = 0%R).
Proof.
  intros Hw Hh.
  assert (Hquot : forall a b : R, (0 < a <= b)%R -> (0 <= 500 * a / b <= 500)%R).
  { intros a b Hab. split.
    - apply Rle_mult_inv_pos; lra.
    - apply Rmult_le_reg_r with b; [lra|].
      unfold Rdiv. rewrite Rmult_assoc, Rinv_l by lra. nra. }
  assert (Hround : forall q : R, (0 <= q <= 500)%R ->
                                 (0 <= IMath.round q <= 500)%R
                                 /\ (Rabs (IMath.round q - q) <= 1 / 2)%R).
  { intros q Hq. split; [split|].
    - apply (round_ge_int q 0). lra.
    - apply (round_le_int q 500). lra.
    - pose proof (round_bounds q). apply Rabs_le. lra. }
  destruct (Rle_dec iw 500) as [Hw5|Hw5]; [destruct (Rle_dec ih 500) as [Hh5|Hh5]|].
  - exists iw, ih. rewrite exportSize_fits by assumption.
    split; [reflexivity|]. repeat split; try lra.
    all: intros; lra.
  - exists (IMath.round (500 * iw / ih)), 500%R.
    rewrite exportSize_tall by lra. split; [reflexivity|].
    destruct (Hround (500 * iw / ih)%R (Hquot iw ih ltac:(lra))) as [Hb Ha].
    split; [exact Hb|]. split; [lra|]. split; [intros; lra|].
    split; [intros _; right; split; [reflexivity | exact Ha]|]. intros; lra.
  - destruct (Rlt_dec ih iw) as [Hlt|Hge].
    + exists 500%R, (IMath.round (500 * ih / iw)).
      rewrite exportSize_wide by lra. split; [reflexivity|].
      destruct (Hround (500 * ih / iw)%R (Hquot ih iw ltac:(lra))) as [Hb Ha].
      split; [lra|]. split; [exact Hb|]. split; [intros; lra|].
      split; [intros _; left; split; [reflexivity | exact Ha]|].
      intros _ Hthin. apply round_small. split.
      * apply Rle_mult_inv_pos; lra.
      * apply Rmult_lt_reg_r with iw; [lra|].
        unfold Rdiv. rewrite Rmult_assoc, Rinv_l by lra. lra.
    + exists (IMath.round (500 * iw / ih)), 500%R.
      rewrite exportSize_tall by lra. split; [reflexivity|].
      destruct (Hround (500 * iw / ih)%R (Hquot iw ih ltac:(lra))) as [Hb Ha].
      split; [exact Hb|]. split; [lra|]. split; [intros; lra|].
      split; [intros _; right; split; [reflexivity | exact Ha]|]. intros; lra.
Qed.

Lemma exportSize_bounded_witness :
  exists W H,
    exportSize (mkElement 2000 1)%R = Some (W, H)
    /\ (0 <= W <= 500)%R /\ (0 <= H <= 500)%R
    /\ ((2000 <= 500)%R -> (1 <= 500)%R -> W = 2000%R /\ H = 1%R)
    /\ ((500 < 2000)%R \/ (500 < 1)%R ->
        (W = 500%R /\ (Rabs (H - 500 * 1 / 2000) <= 1 / 2)%R)
        \/ (H = 500%R /\ (Rabs (W - 500 * 2000 / 1) <= 1 / 2)%R))
    /\ ((500 < 2000)%R -> (1000 * 1 < 2000)%R -> H = 0%R).
Proof.
  apply (exportSize_bounded 2000 1)%R; lra.
Defined.

(** ** The image on the canvas, and the pointer *)

Section CanvasFit.

Local Open Scope R_scope.

Variables W H iw ih : R.
Hypothesis HW : 0 < W.
Hypothesis HH : 0 < H.
Hypothesis Hiw : 0 < iw.
Hypothesis Hih : 0 < ih.

Let s : R := Rmin (W / iw) (H / ih) * (9 / 10).
Let ox : R := (W - iw * s) / 2.
Let oy : R := (H - ih * s) / 2.

Lemma fit_scale_pos : 0 < s.
Proof.
  unfold s. apply Rmult_lt_0_compat; [|lra].
  apply Rmin_glb_lt; apply Rdiv_lt_0_compat; assumption.
Qed.

Lemma fit_scale_bounds :
  s * iw <= 9 / 10 * W /\ s * ih <= 9 / 10 * H
  /\ (s * iw = 9 / 10 * W \/ s * ih = 9 / 10 * H).
Proof.
  unfold s.
  assert (Ha : W / iw * iw = W) by (field; lra).
  assert (Hb : H / ih * ih = H) by (field; lra).
  destruct (Rle_dec (W / iw) (H / ih)) as [Hle|Hgt].
  - rewrite Rmin_left by exact Hle.
    split; [lra|]. split; [|left; lra].
    assert (W / iw * ih <= H / ih * ih) by (apply Rmult_le_compat_r; lra). lra.
  - rewrite Rmin_right by lra.
    split; [|split; [lra | right; lra]].
    assert (H / ih * iw <= W / iw * iw) by (apply Rmult_le_compat_r; lra). lra.
Qed.

Lemma fitTransform_value :
  fitTransform (mkElement W H) (mkElement iw ih) = Some (s, ox, oy).
Proof.
  unfold fitTransform. cbn [width height jdiv jsub jmul Math_min Ideal].
  rewrite !(I_div_some _ iw), !(I_div_some _ ih) by lra. cbn [bind].
  ideal_lits. rewrite !I_div_some by lra. reflexivity.
Qed.

Lemma cullRectOf_value :
  cullRectOf W H iw ih
  = Some (mkRect (- ox / s) (- oy / s) (W / s) (H / s)).
Proof.
  pose proof fit_scale_pos as Hs.
  unfold cullRectOf. cbn [jdiv jsub jmul jneg Math_min Ideal].
  rewrite !(I_div_some _ iw), !(I_div_some _ ih) by lra. cbn [bind].
  ideal_lits. fold s.
  rewrite !(I_div_some _ 2) by lra. cbn [bind]. fold ox oy.
  rewrite !(I_div_some _ s) by lra. reflexivity.
Qed.

Lemma getMousePos_value (rectLeft rectTop clientX clientY : R) :
  getMousePos (Some (mkElement W H)) rectLeft rectTop (Some (mkElement iw ih))
              clientX clientY
  = Some (Some (mkMousePos ((clientX - rectLeft - ox) / s / iw)
                           ((clientY - rectTop - oy) / s / ih)
                           (clientX - rectLeft) (clientY - rectTop) s)).
Proof.
  pose proof fit_scale_pos as Hs.
  unfold getMousePos. rewrite fitTransform_value. cbn [bind].
  cbn [width height jdiv jsub Ideal].
  rewrite !(I_div_some _ s) by lra. cbn [bind].
  rewrite !(I_div_some _ iw), !(I_div_some _ ih) by lra. reflexivity.
Qed.

End CanvasFit.

(** X21.  In exact arithmetic and for a canvas and an image of positive width
    and height, the image is drawn centred on the canvas, inside nine tenths
    of its width and of its height and filling one of the two; the culling
    rectangle is the canvas itself in the coordinates of the image. *)
Theorem canvas_fit (W H iw ih : R) :
  (0 < W)%R -> (0 < H)%R -> (0 < iw)%R -> (0 < ih)%R ->
  exists s ox oy r,
    fitTransform (mkElement W H) (mkElement iw ih) = Some (s, ox, oy)
    /\ cullRectOf W H iw ih = Some r
    /\ (0 < s)%R
    /\ (s * iw <= 9 / 10 * W)%R /\ (s * ih <= 9 / 10 * H)%R
    /\ ((s * iw = 9 / 10 * W)%R \/ (s * ih = 9 / 10 * H)%R)
    /\ toCanvas s ox oy (mkPoint 0 0)%R
       = mkPoint ((W - s * iw) / 2)%R ((H - s * ih) / 2)%R
    /\ toCanvas s ox oy (mkPoint iw ih)
       = mkPoint (W - (W - s * iw) / 2)%R (H - (H - s * ih) / 2)%R
    /\ toCanvas s ox oy (mkPoint (rx r) (ry r)) = mkPoint 0%R 0%R
    /\ toCanvas s ox oy (mkPoint (rx r + rw r) (ry r + rh r))%R = mkPoint W H.
Proof.
  intros HW HH Hiw Hih.
  pose proof (fit_scale_pos W H iw ih HW HH Hiw Hih) as Hs.
  destruct (fit_scale_bounds W H iw ih Hiw Hih) as (Hb1 & Hb2 & Hb3).
  do 4 eexists.
  split; [apply fitTransform_value; assumption|].
  split; [apply cullRectOf_value; assumption|].
  set (s := (Rmin (W / iw) (H / ih) * (9 / 10))%R) in *.
  split; [exact Hs|]. split; [exact Hb1|]. split; [exact Hb2|].
  split; [exact Hb3|].
  unfold toCanvas. cbn [px py rx ry rw rh].
  repeat split; f_equal; field; lra.
Qed.

Lemma canvas_fit_witness :
  exists s ox oy r,
    fitTransform (mkElement 1000 500)%R (mkElement 800 600)%R = Some (s, ox, oy)
    /\ cullRectOf 1000%R 500%R 800%R 600%R = Some r
    /\ (0 < s)%R
    /\ (s * 800 <= 9 / 10 * 1000)%R /\ (s * 600 <= 9 / 10 * 500)%R
    /\ ((s * 800 = 9 / 10 * 1000)%R \/ (s * 600 = 9 / 10 * 500)%R)
    /\ toCanvas s ox oy (mkPoint 0 0)%R
       = mkPoint ((1000 - s * 800) / 2)%R ((500 - s * 600) / 2)%R
    /\ toCanvas s ox oy (mkPoint 800 600)%R
       = mkPoint (1000 - (1000 - s * 800) / 2)%R (500 - (500 - s * 600) / 2)%R
    /\ toCanvas s ox oy (mkPoint (rx r) (ry r)) = mkPoint 0%R 0%R
    /\ toCanvas s ox oy (mkPoint (rx r + rw r) (ry r + rh r))%R
       = mkPoint 1000%R 500%R.
Proof.
  apply (canvas_fit 1000 500 800 600)%R; lra.
Defined.

(** X22.  In exact arithmetic, [getMousePos] undoes the transform under which
    the image is drawn: over the canvas position of the image point
    [(u iw, v ih)] it answers the normalized coordinates [(u, v)]. *)
Theorem getMousePos_inverts (W H iw ih rectLeft rectTop u v : R) :
  (0 < W)%R -> (0 < H)%R -> (0 < iw)%R -> (0 < ih)%R ->
  exists s ox oy,
    fitTransform (mkElement W H) (mkElement iw ih) = Some (s, ox, oy)
    /\ let c := toCanvas s ox oy (mkPoint (u * iw) (v * ih))%R in
       getMousePos (Some (mkElement W H)) rectLeft rectTop
                   (Some (mkElement iw ih))
                   (rectLeft + px c)%R (rectTop + py c)%R
       = Some (Some (mkMousePos u v (px c) (py c) s)).
Proof.
  intros HW HH Hiw Hih.
  pose proof (fit_scale_pos W H iw ih HW HH Hiw Hih) as Hs.
  do 3 eexists. split; [apply fitTransform_value; assumption|].
  intros c. rewrite getMousePos_value by assumption.
  set (s := (Rmin (W / iw) (H / ih) * (9 / 10))%R) in *.
  subst c. unfold toCanvas. cbn [px py].
  do 2 f_equal. f_equal; field; lra.
Qed.

Lemma getMousePos_inverts_witness :
  exists s ox oy,
    fitTransform (mkElement 1000 500)%R (mkElement 800 600)%R = Some (s, ox, oy)
    /\ let c := toCanvas s ox oy (mkPoint (1 / 4 * 800) (3 / 4 * 600))%R in
       getMousePos (Some (mkElement 1000 500)%R) 10%R 20%R
                   (Some (mkElement 800 600)%R)
                   (10 + px c)%R (20 + py c)%R
       = Some (Some (mkMousePos (1 / 4) (3 / 4) (px c) (py c) s)%R).
Proof.
  apply (getMousePos_inverts 1000 500 800 600 10 20 (1 / 4) (3 / 4))%R; lra.
Defined.

(** ** Dragging the quad *)

Section HeapFacts.

Local Open Scope R_scope.

Let heap : Type := list (Point R).

Lemma deref_app (h l : heap) (r : nat) (p : Point R) :
  deref h r = Some p -> deref (h ++ l) r = Some p.
Proof.
  unfold deref. intros Hr.
  rewrite nth_error_app1; [exact Hr|].
  apply nth_error_Some. congruence.
Qed.

Lemma deref_new (h l : heap) (i : nat) :
  deref (h ++ l) (length h + i) = nth_error l i.
Proof.
  unfold deref. rewrite nth_error_app2 by lia. f_equal. lia.
Qed.

Lemma readQuad_app (h l : heap) (q : QuadObj) (Q : Quad R) :
  readQuad h q = Some Q -> readQuad (h ++ l) q = Some Q.
Proof.
  unfold readQuad. intros Hq.
  destruct (deref h (o1 q)) as [a|] eqn:Ea; [|discriminate].
  destruct (deref h (o2 q)) as [b|] eqn:Eb; [|discriminate].
  destruct (deref h (o3 q)) as [c|] eqn:Ec; [|discriminate].
  destruct (deref h (o4 q)) as [d|] eqn:Ed; [|discriminate].
  rewrite (deref_app h l _ a Ea), (deref_app h l _ b Eb),
    (deref_app h l _ c Ec), (deref_app h l _ d Ed). exact Hq.
Qed.

Lemma readQuad_corners (h : heap) (q : QuadObj) (Q : Quad R) :
  readQuad h q = Some Q ->
  deref h (o1 q) = Some (p1 Q) /\ deref h (o2 q) = Some (p2 Q)
  /\ deref h (o3 q) = Some (p3 Q) /\ deref h (o4 q) = Some (p4 Q).
Proof.
  unfold readQuad. intros Hq.
  destruct (deref h (o1 q)) as [a|] eqn:Ea; [|discriminate].
  destruct (deref h (o2 q)) as [b|] eqn:Eb; [|discriminate].
  destruct (deref h (o3 q)) as [c|] eqn:Ec; [|discriminate].
  destruct (deref h (o4 q)) as [d|] eqn:Ed; [|discriminate].
  cbn [bind ret] in Hq. injection Hq as <-. cbn [p1 p2 p3 p4]. auto.
Qed.

(** [replaceAll] leaves the old objects alone and makes four new ones. *)
Lemma replaceAll_spec (h : heap) (q : QuadObj) (Q : Quad R)
      (f : Point R -> option (Point R)) (a b c d : Point R) :
  readQuad h q = Some Q ->
  f (p1 Q) = Some a -> f (p2 Q) = Some b ->
  f (p3 Q) = Some c -> f (p4 Q) = Some d ->
  exists h' q',
    replaceAll h q f = Some (h', q')
    /\ readQuad h' q' = Some (mkQuad a b c d)
    /\ readQuad h' q = Some Q.
Proof.
  intros Hq Ha Hb Hc Hd.
  destruct (readQuad_corners h q Q Hq) as (E1 & E2 & E3 & E4).
  unfold replaceAll, alloc.
  rewrite E1. cbn [bind]. rewrite Ha. cbn [bind].
  rewrite (deref_app _ [a] _ _ E2). cbn [bind]. rewrite Hb. cbn [bind].
  rewrite (deref_app _ [b] _ _ (deref_app _ [a] _ _ E3)). cbn [bind].
  rewrite Hc. cbn [bind].
  rewrite (deref_app _ [c] _ _ (deref_app _ [b] _ _ (deref_app _ [a] _ _ E4))).
  cbn [bind]. rewrite Hd. cbn [bind ret].
  do 2 eexists. split; [reflexivity|].
  rewrite <- !app_assoc. cbn [app]. split.
  - unfold readQuad. cbn [o1 o2 o3 o4].
    rewrite !length_app. cbn [length].
    rewrite <- (Nat.add_0_r (length h)) at 1.
    rewrite !deref_new. reflexivity.
  - apply readQuad_app, Hq.
Qed.

Lemma deref_set_nth_eq (h : heap) (r : nat) (p v : Point R) :
  deref h r = Some p -> deref (set_nth h r v) r = Some v.
Proof.
  unfold deref. revert r. induction h as [|x h IH]; intros [|r] Hr; cbn in *;
    try discriminate; [reflexivity | now apply IH].
Qed.

Lemma deref_set_nth_neq (h : heap) (r r' : nat) (v : Point R) :
  r <> r' -> deref (set_nth h r v) r' = deref h r'.
Proof.
  unfold deref. revert r r'.
  induction h as [|x h IH]; intros [|r] [|r'] Hne; cbn; try reflexivity;
    try congruence.
  apply IH. congruence.
Qed.

Lemma addTo_spec (h : heap) (r : nat) (p : Point R) (dx dy : R) :
  deref h r = Some p ->
  exists h',
    addTo h r dx dy = Some h'
    /\ deref h' r = Some (mkPoint (px p + dx) (py p + dy))
    /\ forall r', r <> r' -> deref h' r' = deref h r'.
Proof.
  intros Hr. unfold addTo. rewrite Hr. cbn [bind ret jadd Ideal].
  eexists. split; [reflexivity|]. split.
  - now apply deref_set_nth_eq with p.
  - intros r' Hne. now apply deref_set_nth_neq.
Qed.

(** The four [+=] of a move in the corner mode. *)
Lemma addTo_all (h : heap) (q : QuadObj) (Q : Quad R) (dx dy : R) :
  readQuad h q = Some Q -> distinctCorners q ->
  exists h1 h2 h3 h4,
    addTo h (o1 q) dx dy = Some h1 /\ addTo h1 (o2 q) dx dy = Some h2
    /\ addTo h2 (o3 q) dx dy = Some h3 /\ addTo h3 (o4 q) dx dy = Some h4
    /\ readQuad h4 q = Some (translateQuad dx dy Q).
Proof.
  intros Hq Hnd.
  destruct (readQuad_corners h q Q Hq) as (E1 & E2 & E3 & E4).
  unfold distinctCorners in Hnd.
  assert (Hne : o1 q <> o2 q /\ o1 q <> o3 q /\ o1 q <> o4 q
                /\ o2 q <> o3 q /\ o2 q <> o4 q /\ o3 q <> o4 q).
  { inversion Hnd as [|? ? Hn1 Hnd1]; subst.
    inversion Hnd1 as [|? ? Hn2 Hnd2]; subst.
    inversion Hnd2 as [|? ? Hn3 Hnd3]; subst.
    cbn [In] in *. repeat split; intros E; rewrite E in *; tauto. }
  destruct Hne as (N12 & N13 & N14 & N23 & N24 & N34).
  destruct (addTo_spec h (o1 q) _ dx dy E1) as (h1 & R1 & V1 & K1).
  assert (E2' : deref h1 (o2 q) = Some (p2 Q)) by (rewrite K1; assumption).
  destruct (addTo_spec h1 (o2 q) _ dx dy E2') as (h2 & R2 & V2 & K2).
  assert (E3' : deref h2 (o3 q) = Some (p3 Q)) by (rewrite K2, K1; assumption).
  destruct (addTo_spec h2 (o3 q) _ dx dy E3') as (h3 & R3 & V3 & K3).
  assert (E4' : deref h3 (o4 q) = Some (p4 Q))
    by (rewrite K3, K2, K1; assumption).
  destruct (addTo_spec h3 (o4 q) _ dx dy E4') as (h4 & R4 & V4 & K4).
  exists h1, h2, h3, h4. repeat (split; [assumption|]).
  unfold readQuad, translateQuad.
  rewrite (K4 (o1 q)), (K3 (o1 q)), (K2 (o1 q)), V1 by congruence.
  rewrite (K4 (o2 q)), (K3 (o2 q)), V2 by congruence.
  rewrite (K4 (o3 q)), V3 by congruence.
  rewrite V4. reflexivity.
Qed.

End HeapFacts.

Lemma initialHeap_value :
  readQuad (@initialHeap R Ideal) INITIAL_QUAD
  = Some (centeredSquare (1 / 4) (3 / 4))%R
  /\ distinctCorners INITIAL_QUAD.
Proof.
  split.
  - unfold readQuad, initialHeap, INITIAL_QUAD, centeredSquare, deref.
    cbn [o1 o2 o3 o4 nth_error bind ret].
    assert (E25 : @lit R Ideal 25 (-2) = (1 / 4)%R)
      by (cbv [lit Ideal I.lit]; cbn; field).
    assert (E75 : @lit R Ideal 75 (-2) = (3 / 4)%R)
      by (cbv [lit Ideal I.lit]; cbn; field).
    rewrite E25, E75. reflexivity.
  - unfold distinctCorners, INITIAL_QUAD. cbn [o1 o2 o3 o4].
    repeat constructor; cbn; lia.
Qed.

Lemma drag_move_corner (h : list (Point R)) (q : QuadObj) (Q : Quad R)
      (pos : MousePos R) :
  readQuad h q = Some Q -> distinctCorners q ->
  exists h',
    handlePointerMove h q CORNER (Some DragMove) true (Some pos)
    = Some (h', Some q)
    /\ readQuad h' q
       = Some (translateQuad (nx pos - px (centroid4 Q))%R
                             (ny pos - py (centroid4 Q))%R Q).
Proof.
  intros Hq Hnd.
  unfold handlePointerMove. rewrite Hq. cbn [bind jdiv jadd jsub Ideal].
  rewrite int_IZR, !I_div_some by lra. cbn [bind].
  destruct (addTo_all h q Q (nx pos - px (centroid4 Q))%R
              (ny pos - py (centroid4 Q))%R Hq Hnd)
    as (h1 & h2 & h3 & h4 & R1 & R2 & R3 & R4 & Hread).
  unfold centroid4 in *. cbn [px py] in *.
  rewrite R1. cbn [bind]. rewrite R2. cbn [bind]. rewrite R3. cbn [bind].
  rewrite R4. cbn [bind ret].
  exists h4. split; [reflexivity | exact Hread].
Qed.

(** X23.  In exact arithmetic, dragging the whole quad translates it. In the
    corner mode the centroid of the four corners goes under the pointer and
    the four [Point] objects of the state are written in place; in the
    transform mode the middle of the diagonal [p1 p3] goes under the pointer
    and the moved corners are new objects. *)
Theorem drag_move (h : list (Point R)) (q : QuadObj) (Q : Quad R)
        (pos : MousePos R) :
  readQuad h q = Some Q -> distinctCorners q ->
  (exists h',
      handlePointerMove h q CORNER (Some DragMove) true (Some pos)
      = Some (h', Some q)
      /\ let Q' := translateQuad (nx pos - px (centroid4 Q))%R
                                 (ny pos - py (centroid4 Q))%R Q in
         readQuad h' q = Some Q'
         /\ centroid4 Q' = mkPoint (nx pos) (ny pos))
  /\ (exists h' q',
         handlePointerMove h q TRANSFORM (Some DragMove) true (Some pos)
         = Some (h', Some q')
         /\ let Q' := translateQuad (nx pos - px (diagonalMid Q))%R
                                    (ny pos - py (diagonalMid Q))%R Q in
            readQuad h' q' = Some Q'
            /\ readQuad h' q = Some Q
            /\ diagonalMid Q' = mkPoint (nx pos) (ny pos)).
Proof.
  intros Hq Hnd. split.
  - destruct (drag_move_corner h q Q pos Hq Hnd) as (h' & Hrun & Hread).
    exists h'. split; [exact Hrun|]. split; [exact Hread|].
    unfold centroid4, translateQuad. cbn [px py p1 p2 p3 p4]. f_equal; field.
  - unfold handlePointerMove. rewrite Hq. cbn [bind jdiv jadd jsub Ideal].
    rewrite int_IZR, !I_div_some by lra. cbn [bind].
    match goal with
    | |- context [replaceAll h q ?f] =>
        destruct (replaceAll_spec h q Q f _ _ _ _ Hq eq_refl eq_refl eq_refl
                    eq_refl) as (h' & q' & -> & Hnew & Hold)
    end.
    cbn [bind ret fst snd]. exists h', q'. split; [reflexivity|].
    unfold diagonalMid, translateQuad in *. cbn [px py p1 p2 p3 p4] in *.
    split; [exact Hnew|]. split; [exact Hold|].
    f_equal; field.
Qed.

Lemma drag_move_witness :
  (exists h',
      handlePointerMove (@initialHeap R Ideal) INITIAL_QUAD CORNER
                        (Some DragMove) true
                        (Some (mkMousePos 1 1 0 0 1)%R)
      = Some (h', Some INITIAL_QUAD)
      /\ let Q' := translateQuad
                     (nx (mkMousePos 1 1 0 0 1)%R
                      - px (centroid4 (centeredSquare (1 / 4) (3 / 4))%R))%R
                     (ny (mkMousePos 1 1 0 0 1)%R
                      - py (centroid4 (centeredSquare (1 / 4) (3 / 4))%R))%R
                     (centeredSquare (1 / 4) (3 / 4))%R in
         readQuad h' INITIAL_QUAD = Some Q'
         /\ centroid4 Q' = mkPoint (nx (mkMousePos 1 1 0 0 1)%R)
                                   (ny (mkMousePos 1 1 0 0 1)%R))
  /\ (exists h' q',
         handlePointerMove (@initialHeap R Ideal) INITIAL_QUAD TRANSFORM
                           (Some DragMove) true
                           (Some (mkMousePos 1 1 0 0 1)%R)
         = Some (h', Some q')
         /\ let Q' := translateQuad
                        (nx (mkMousePos 1 1 0 0 1)%R
                         - px (diagonalMid (centeredSquare (1 / 4) (3 / 4))%R))%R
                        (ny (mkMousePos 1 1 0 0 1)%R
                         - py (diagonalMid (centeredSquare (1 / 4) (3 / 4))%R))%R
                        (centeredSquare (1 / 4) (3 / 4))%R in
            readQuad h' q' = Some Q'
            /\ readQuad h' INITIAL_QUAD = Some (centeredSquare (1 / 4) (3 / 4))%R
            /\ diagonalMid Q' = mkPoint (nx (mkMousePos 1 1 0 0 1)%R)
                                        (ny (mkMousePos 1 1 0 0 1)%R)).
Proof.
  apply (drag_move initialHeap INITIAL_QUAD (centeredSquare (1 / 4) (3 / 4))%R
                   (mkMousePos 1 1 0 0 1)%R).
  - exact (proj1 initialHeap_value).
  - exact (proj2 initialHeap_value).
Defined.

(** X24.  In exact arithmetic, [loadImage] puts [INITIAL_QUAD] back, but a
    move in the corner mode has written into the [Point] objects of
    [INITIAL_QUAD] itself: after such a move from the initial state, the quad
    of a newly loaded image is the moved quad, not the centered half. *)
Theorem loadImage_after_corner_move (pos : MousePos R) (src : String.string)
        (img : Element R) (s : @AppState R) :
  readQuad initialHeap (quad (loadImage src img s))
  = Some (centeredSquare (1 / 4) (3 / 4))%R
  /\ exists h',
      handlePointerMove initialHeap (quad initialState) CORNER (Some DragMove)
                        true (Some pos)
      = Some (h', Some INITIAL_QUAD)
      /\ readQuad h' (quad (loadImage src img s))
         = Some (translateQuad (nx pos - 1 / 2)%R (ny pos - 1 / 2)%R
                               (centeredSquare (1 / 4) (3 / 4))%R).
Proof.
  destruct initialHeap_value as [Hinit Hnd].
  split; [exact Hinit|].
  destruct (drag_move_corner initialHeap INITIAL_QUAD _ pos Hinit Hnd)
    as (h' & Hrun & Hread).
  exists h'. split; [exact Hrun|].
  cbn [loadImage quad]. rewrite Hread.
  unfold centroid4, centeredSquare. cbn [px py p1 p2 p3 p4].
  do 2 f_equal; field.
Qed.

Section Rotation.

Local Open Scope R_scope.




End Rotation.



Section Scaling.

Local Open Scope R_scope.

Lemma dist2_nonneg (a b : Point R) : 0 <= dist2 a b.
Proof.
  unfold dist2.
  apply Rplus_le_le_0_compat;
    [exact (Rle_0_sqr (px a - px b)) | exact (Rle_0_sqr (py a - py b))].
Qed.

Lemma orOne_pos (d : R) : 0 < d -> @orOne R Ideal d = d.
Proof.
  intros Hd. unfold orOne. cbn [truthy Ideal].
  rewrite I_truthy_true by lra. reflexivity.
Qed.

Lemma orOne_zero : @orOne R Ideal 0 = 1.
Proof.
  unfold orOne. cbn [truthy Ideal]. rewrite I_truthy_zero. apply int_IZR.
Qed.

Lemma readQuad_target (h : list (Point R)) (q : QuadObj) (Q : Quad R)
      (target : DragTarget) (corner : Point R) :
  readQuad h q = Some Q -> cornerValue Q target = Some corner ->
  match cornerOf q target with
  | Some r => deref h r
  | None => None
  end = Some corner.
Proof.
  intros Hq Hc. destruct (readQuad_corners h q Q Hq) as (E1 & E2 & E3 & E4).
  destruct target; cbn in *; try discriminate; congruence.
Qed.

End Scaling.

(** X26.  In exact arithmetic, dragging a corner in the transform mode, from a
    corner that is not the middle of the diagonal, scales the quad about the
    middle of its diagonal [p1 p3], by the ratio of the distances of the
    pointer and of the dragged corner to that point: the middle stays where it
    is and the dragged corner ends as far from it as the pointer is. *)
Theorem drag_scale (h : list (Point R)) (q : QuadObj) (Q : Quad R)
        (pos : MousePos R) (target : DragTarget) (corner : Point R) :
  readQuad h q = Some Q ->
  cornerValue Q target = Some corner ->
  (0 < dist2 corner (diagonalMid Q))%R ->
  let g := diagonalMid Q in
  let k := (sqrt (dist2 (mkPoint (nx pos) (ny pos)) g) / sqrt (dist2 corner g))%R in
  exists h' q',
    handlePointerMove h q TRANSFORM (Some target) true (Some pos)
    = Some (h', Some q')
    /\ readQuad h' q' = Some (expandQuad g k Q)
    /\ readQuad h' q = Some Q
    /\ diagonalMid (expandQuad g k Q) = g
    /\ dist2 (expandAbout g k corner) g = dist2 (mkPoint (nx pos) (ny pos)) g.
Proof.
  intros Hq Hc Hpos g k.
  assert (Hs : (0 < sqrt (dist2 corner g))%R) by (apply sqrt_lt_R0; exact Hpos).
  unfold handlePointerMove. rewrite Hq.
  cbn [bind jdiv jadd jsub jmul Math_hypot Ideal IdealMath].
  rewrite int_IZR, !(I_div_some _ 2) by lra. cbn [bind].
  assert (Hbranch : forall (X : Type) (a b c : X),
             match target with
             | DragRotate => a | DragMove => b | _ => c
             end = c).
  { intros X a b c. destruct target; cbn in Hc; try discriminate; reflexivity. }
  rewrite Hbranch.
  rewrite (readQuad_target h q Q target corner Hq Hc). cbn [bind].
  unfold IMath.hypot. cbn [bind].
  change ((px corner - (px (p1 Q) + px (p3 Q)) / 2)
          * (px corner - (px (p1 Q) + px (p3 Q)) / 2)
          + (py corner - (py (p1 Q) + py (p3 Q)) / 2)
            * (py corner - (py (p1 Q) + py (p3 Q)) / 2))%R
    with (dist2 corner g).
  change ((nx pos - (px (p1 Q) + px (p3 Q)) / 2)
          * (nx pos - (px (p1 Q) + px (p3 Q)) / 2)
          + (ny pos - (py (p1 Q) + py (p3 Q)) / 2)
            * (ny pos - (py (p1 Q) + py (p3 Q)) / 2))%R
    with (dist2 (mkPoint (nx pos) (ny pos)) g).
  rewrite orOne_pos by exact Hs.
  rewrite I_div_some by lra. cbn [bind]. fold k.
  match goal with
  | |- context [replaceAll h q ?f] =>
      destruct (replaceAll_spec h q Q f _ _ _ _ Hq eq_refl eq_refl eq_refl
                  eq_refl) as (h' & q' & -> & Hnew & Hold)
  end.
  cbn [bind ret fst snd]. exists h', q'.
  split; [reflexivity|]. split; [exact Hnew|]. split; [exact Hold|].
  split.
  - unfold diagonalMid, expandQuad, expandAbout, g. cbn [px py p1 p2 p3 p4].
    unfold diagonalMid. cbn [px py]. f_equal; field.
  - assert (Hk : (k * k * dist2 corner g
                  = dist2 (mkPoint (nx pos) (ny pos)) g)%R).
    { unfold k.
      pose proof (sqrt_sqrt _ (dist2_nonneg (mkPoint (nx pos) (ny pos)) g)) as HA.
      pose proof (sqrt_sqrt (dist2 corner g) (Rlt_le _ _ Hpos)) as HB.
      set (A := sqrt (dist2 (mkPoint (nx pos) (ny pos)) g)) in *.
      set (B := sqrt (dist2 corner g)) in *.
      rewrite <- HA, <- HB. field. lra. }
    rewrite <- Hk. unfold dist2, expandAbout. cbn [px py]. ring.
Qed.

Lemma drag_scale_witness :
  let Q := (centeredSquare (1 / 4) (3 / 4))%R in
  let pos := (mkMousePos 1 1 0 0 1)%R in
  let g := diagonalMid Q in
  let k := (sqrt (dist2 (mkPoint (nx pos) (ny pos)) g) / sqrt (dist2 (p3 Q) g))%R in
  exists h' q',
    handlePointerMove (@initialHeap R Ideal) INITIAL_QUAD TRANSFORM
                      (Some DragP3) true (Some pos)
    = Some (h', Some q')
    /\ readQuad h' q' = Some (expandQuad g k Q)
    /\ readQuad h' INITIAL_QUAD = Some Q
    /\ diagonalMid (expandQuad g k Q) = g
    /\ dist2 (expandAbout g k (p3 Q)) g = dist2 (mkPoint (nx pos) (ny pos)) g.
Proof.
  apply (drag_scale initialHeap INITIAL_QUAD (centeredSquare (1 / 4) (3 / 4))%R
                    (mkMousePos 1 1 0 0 1)%R DragP3).
  - exact (proj1 initialHeap_value).
  - reflexivity.
  - unfold dist2, diagonalMid, centeredSquare. cbn [px py p1 p2 p3 p4]. lra.
Defined.

(** ** Dragging one corner in the corner mode *)

(** X27.  In exact arithmetic and in the corner mode, dragging a corner gives
    a quad with that corner at the pointer and the three others as they were,
    and the quad of the state still has its old value: the new corner is a new
    object. *)
Theorem drag_corner (h : list (Point R)) (q : QuadObj) (Q : Quad R)
        (pos : MousePos R) (target : DragTarget) (corner : Point R) :
  readQuad h q = Some Q ->
  cornerValue Q target = Some corner ->
  exists h' q',
    handlePointerMove h q CORNER (Some target) true (Some pos)
    = Some (h', Some q')
    /\ readQuad h' q' = Some (withCorner Q target (mkPoint (nx pos) (ny pos)))
    /\ readQuad h' q = Some Q.
Proof.
  intros Hq Hc.
  destruct (readQuad_corners h q Q Hq) as (E1 & E2 & E3 & E4).
  pose proof (deref_new h [mkPoint (nx pos) (ny pos)] 0) as Hnew.
  rewrite Nat.add_0_r in Hnew. cbn [nth_error] in Hnew.
  pose proof (fun r p => deref_app h [mkPoint (nx pos) (ny pos)] r p) as Hold.
  destruct target; cbn in Hc; try discriminate;
    unfold handlePointerMove, alloc; cbn [ret];
    do 2 eexists; (split; [reflexivity|]);
    (split; [|apply readQuad_app; exact Hq]);
    unfold readQuad; cbn [o1 o2 o3 o4 withCorner];
    rewrite Hnew;
    rewrite ?(Hold _ _ E1), ?(Hold _ _ E2), ?(Hold _ _ E3), ?(Hold _ _ E4);
    reflexivity.
Qed.

Lemma drag_corner_witness :
  exists h' q',
    handlePointerMove (@initialHeap R Ideal) INITIAL_QUAD CORNER (Some DragP2)
                      true (Some (mkMousePos 1 0 0 0 1)%R)
    = Some (h', Some q')
    /\ readQuad h' q'
       = Some (withCorner (centeredSquare (1 / 4) (3 / 4))%R DragP2
                          (mkPoint 1 0)%R)
    /\ readQuad h' INITIAL_QUAD = Some (centeredSquare (1 / 4) (3 / 4))%R.
Proof.
  apply (drag_corner initialHeap INITIAL_QUAD (centeredSquare (1 / 4) (3 / 4))%R
           (mkMousePos 1 0 0 0 1)%R DragP2
           (mkPoint (3 / 4) (1 / 4))%R).
  - exact (proj1 initialHeap_value).
  - reflexivity.
Defined.

(** ** Play, pause and the direction preference *)

Section Directions.

Context {T : Type} `{JSNumber T}.

Lemma togglePlay_agree (s : @AppState T) :
  directionsAgree s -> directionsAgree (togglePlay s).
Proof.
  unfold directionsAgree, togglePlay, setDirection.
  cbn [direction desiredDirection]. intros [Hd Ha]. split; [exact Hd|].
  destruct (direction s); auto.
Qed.

Lemma toggleDirectionPreference_agree (s : @AppState T) :
  directionsAgree s -> directionsAgree (toggleDirectionPreference s).
Proof.
  unfold directionsAgree, toggleDirectionPreference, setDirection.
  cbn [direction desiredDirection]. intros [Hd Ha]. split.
  - destruct (desiredDirection s); discriminate.
  - destruct (direction s); auto.
Qed.

Lemma loadImage_agree (src : String.string) (img : Element T) (s : @AppState T) :
  directionsAgree s -> directionsAgree (loadImage src img s).
Proof.
  unfold directionsAgree, loadImage. cbn [direction desiredDirection].
  intros [Hd _]. auto.
Qed.

Lemma togglePlay_twice (s : @AppState T) :
  directionsAgree s -> togglePlay (togglePlay s) = s.
Proof.
  intros [Hd Ha]. destruct s as [a b c d e f dir des g i j k l].
  unfold togglePlay, setDirection in *. cbn in *.
  destruct dir, des; try reflexivity; try congruence;
    destruct Ha; congruence.
Qed.

Lemma toggleDirectionPreference_twice (s : @AppState T) :
  directionsAgree s ->
  toggleDirectionPreference (toggleDirectionPreference s) = s.
Proof.
  intros [Hd Ha]. destruct s as [a b c d e f dir des g i j k l].
  unfold toggleDirectionPreference, setDirection in *. cbn in *.
  destruct dir, des; try reflexivity; try congruence;
    destruct Ha; congruence.
Qed.

End Directions.

(** X28.  In a state where the preferred direction is not [STOP] and the
    animation either stands or runs in the preferred direction (as in the
    initial state), play/pause, switching the direction and loading an image
    keep it so, and play/pause as well as the direction switch, done twice,
    give back the state they started from. *)
Theorem direction_toggles {T : Type} `{JSNumber T} (s : @AppState T)
        (src : String.string) (img : Element T) :
  directionsAgree s ->
  directionsAgree (togglePlay s)
  /\ directionsAgree (toggleDirectionPreference s)
  /\ directionsAgree (loadImage src img s)
  /\ togglePlay (togglePlay s) = s
  /\ toggleDirectionPreference (toggleDirectionPreference s) = s.
Proof.
  intros Hs.
  split; [exact (togglePlay_agree s Hs)|].
  split; [exact (toggleDirectionPreference_agree s Hs)|].
  split; [exact (loadImage_agree src img s Hs)|].
  split; [exact (togglePlay_twice s Hs)|].
  exact (toggleDirectionPreference_twice s Hs).
Qed.

Lemma direction_toggles_witness :
  directionsAgree (@initialState float IEEE)
  /\ directionsAgree (togglePlay (@initialState float IEEE))
  /\ directionsAgree (toggleDirectionPreference (@initialState float IEEE))
  /\ directionsAgree
       (loadImage String.EmptyString (mkElement 800 600)%float initialState)
  /\ togglePlay (togglePlay (@initialState float IEEE)) = initialState
  /\ toggleDirectionPreference (toggleDirectionPreference (@initialState float IEEE))
     = initialState.
Proof.
  assert (Hs : directionsAgree (@initialState float IEEE)).
  { split; [discriminate | left; reflexivity]. }
  split; [exact Hs|].
  exact (direction_toggles initialState String.EmptyString
           (mkElement 800 600)%float Hs).
Defined.

(** ** Pressing on the rotation handle *)

Section RotationHandle.

Local Open Scope R_scope.

Variables (iw ih s : R) (Q : Quad R).

(** The unit vector from the centroid to the middle of the top edge, in
    image pixels, as both functions compute it. *)
Let dx : R :=
  ((px (p1 Q) + px (p2 Q)) / 2
   - (px (p1 Q) + px (p2 Q) + px (p3 Q) + px (p4 Q)) / 4) * iw.
Let dy : R :=
  ((py (p1 Q) + py (p2 Q)) / 2
   - (py (p1 Q) + py (p2 Q) + py (p3 Q) + py (p4 Q)) / 4) * ih.
Let len : R := @orOne R Ideal (sqrt (dx * dx + dy * dy)).

Lemma handle_len_pos : 0 < len.
Proof.
  unfold len.
  assert (Hn : 0 <= dx * dx + dy * dy).
  { apply Rplus_le_le_0_compat; apply Rle_0_sqr. }
  destruct (Rle_lt_or_eq_dec _ _ (sqrt_pos (dx * dx + dy * dy))) as [Hp | Hz].
  - rewrite orOne_pos by exact Hp. exact Hp.
  - rewrite <- Hz, orOne_zero. lra.
Qed.

Lemma rotationHandle_value :
  0 < s ->
  rotationHandle (qPoints iw ih Q) s
  = Some (mkPoint ((px (p1 Q) + px (p2 Q)) / 2 * iw + dx / len * (30 / s))
                  ((py (p1 Q) + py (p2 Q)) / 2 * ih + dy / len * (30 / s))).
Proof.
  intros Hs. pose proof handle_len_pos as Hl.
  unfold rotationHandle, qPoints, ROTATION_HANDLE_OFFSET.
  cbn [px py p1 p2 p3 p4 jadd jsub jmul jdiv Math_sqrt Ideal].
  rewrite !int_IZR.
  rewrite !(I_div_some _ 2), !(I_div_some _ 4) by lra. cbn [bind].
  match goal with
  | |- context [I.sqrt ?a] =>
      replace a with (dx * dx + dy * dy) by (unfold dx, dy; field)
  end.
  rewrite I_sqrt_some
    by (apply Rplus_le_le_0_compat; apply Rle_0_sqr).
  cbn [bind]. fold len.
  rewrite !(I_div_some _ len), !(I_div_some _ s) by lra.
  cbn [bind ret]. apply f_equal. unfold dx, dy. f_equal; field; lra.
Qed.

End RotationHandle.

(** X29.  In exact arithmetic, in the transform mode and with the animation
    stopped, pressing on the middle of the rotation handle as [renderCanvas]
    draws it starts a rotation, when no corner is within the grab distance of
    the pointer. *)
Theorem pointer_down_on_rotation_handle (iw ih s : R) (Q : Quad R)
        (P : Point R) (pos : MousePos R) :
  (0 < iw)%R -> (0 < ih)%R -> (0 < s)%R ->
  rotationHandle (qPoints iw ih Q) s = Some P ->
  nx pos = (px P / iw)%R -> ny pos = (py P / ih)%R -> scale pos = s ->
  (forall c, In c [p1 Q; p2 Q; p3 Q; p4 Q] ->
             (16 / s / iw <= sqrt (dist2 c (mkPoint (nx pos) (ny pos))))%R) ->
  handlePointerDown STOP TRANSFORM Q (Some pos) (Some (mkElement iw ih))
  = Some (Some DragRotate).
Proof.
  intros Hiw Hih Hs HP Hnx Hny Hsc Hfar.
  rewrite (rotationHandle_value iw ih s Q Hs) in HP.
  injection HP as HP. subst P. cbn [px py] in Hnx, Hny.
  pose proof (handle_len_pos iw ih Q) as Hl. cbv zeta in Hl.
  assert (Hth : (0 < 16 / s / iw)%R).
  { apply Rdiv_lt_0_compat; [apply Rdiv_lt_0_compat|]; lra. }
  assert (Hno : forall c, In c [p1 Q; p2 Q; p3 Q; p4 Q] ->
             I.ltb (sqrt ((px c - nx pos) * (px c - nx pos)
                          + (py c - ny pos) * (py c - ny pos)))
                   (16 / s / iw) = false).
  { intros c Hc. apply I_ltb_false. exact (Hfar c Hc). }
  unfold handlePointerDown, HANDLE_RADIUS, ROTATION_HANDLE_OFFSET.
  cbn [width height jadd jsub jmul jdiv jlt Math_sqrt Math_hypot Ideal
       IdealMath].
  rewrite Hsc. rewrite !int_IZR.
  replace (8 * 2)%R with 16%R by ring.
  rewrite (I_div_some 16 s) by lra. cbn [bind].
  rewrite (I_div_some _ iw) by lra. cbn [bind].
  unfold IMath.hypot at 1. cbn [bind].
  rewrite (Hno (p1 Q)) by (cbn; auto).
  unfold IMath.hypot at 1. cbn [bind].
  rewrite (Hno (p2 Q)) by (cbn; auto).
  unfold IMath.hypot at 1. cbn [bind].
  rewrite (Hno (p3 Q)) by (cbn; auto).
  unfold IMath.hypot at 1. cbn [bind].
  rewrite (Hno (p4 Q)) by (cbn; auto).
  rewrite !(I_div_some _ 2), !(I_div_some _ 4) by lra. cbn [bind].
  rewrite I_sqrt_some
    by (apply Rplus_le_le_0_compat; apply Rle_0_sqr).
  cbn [bind].
  rewrite !(I_div_some _ (orOne _)) by lra.
  rewrite !(I_div_some 30 s) by lra. cbn [bind].
  rewrite (I_div_some _ iw), (I_div_some _ ih) by lra. cbn [bind].
  unfold IMath.hypot. cbn [bind ret].
  match goal with
  | |- context [sqrt (?a * ?a + ?b * ?b)] =>
      replace a with 0%R by (rewrite Hnx; field; lra);
      replace b with 0%R by (rewrite Hny; field; lra)
  end.
  replace (0 * 0 + 0 * 0)%R with 0%R by ring. rewrite sqrt_0.
  rewrite I_ltb_true by exact Hth. reflexivity.
Qed.

Lemma pointer_down_on_rotation_handle_witness :
  handlePointerDown STOP TRANSFORM (centeredSquare (1 / 4) (3 / 4))%R
    (Some (mkMousePos (1 / 2) (1 / 10) 0 0 1)%R)
    (Some (mkElement 200 200)%R)
  = Some (Some DragRotate).
Proof.
  apply (pointer_down_on_rotation_handle 200 200 1
           (centeredSquare (1 / 4) (3 / 4))
           (mkPoint 100 20) (mkMousePos (1 / 2) (1 / 10) 0 0 1))%R.
  - lra.
  - lra.
  - lra.
  - rewrite rotationHandle_value by lra.
    unfold centeredSquare. cbn [px py p1 p2 p3 p4].
    replace ((1 / 4 + 3 / 4) / 2 - (1 / 4 + 3 / 4 + 3 / 4 + 1 / 4) / 4)%R
      with 0%R by field.
    replace ((1 / 4 + 1 / 4) / 2 - (1 / 4 + 1 / 4 + 3 / 4 + 3 / 4) / 4)%R
      with (- (1 / 4))%R by field.
    replace (0 * 200 * (0 * 200) + - (1 / 4) * 200 * (- (1 / 4) * 200))%R
      with (50 * 50)%R by field.
    rewrite sqrt_square by lra. rewrite orOne_pos by lra.
    apply f_equal. f_equal; field.
  - cbn. field.
  - cbn. field.
  - reflexivity.
  - intros c Hc. cbn [nx ny].
    assert (Hd : (16 * 16 <= dist2 c (mkPoint (1 / 2) (1 / 10)) * (1 * 200 * (1 * 200)))%R).
    { cbn in Hc. unfold dist2.
      destruct Hc as [<- | [<- | [<- | [<- | []]]]]; cbn; lra. }
    replace (16 / 1 / 200)%R with (sqrt ((16 / 200) * (16 / 200)))%R
      by (rewrite sqrt_square by lra; field).
    apply sqrt_le_1_alt. lra.
Defined.

(** ** The grid of a layer in binary64 *)

Section Binary64Rounding.

Variables prec emax : Z.

Lemma shr_1_nonneg (mrs : shr_record) :
  (0 <= shr_m mrs)%Z -> (0 <= shr_m (shr_1 mrs))%Z.
Proof.
  destruct mrs as [m r s]. cbn [shr_m]. intros Hm.
  destruct m as [|p|p]; [cbn; lia | | lia].
  destruct p; cbn; lia.
Qed.

Lemma iter_shr_1_nonneg (p : positive) (mrs : shr_record) :
  (0 <= shr_m mrs)%Z -> (0 <= shr_m (SpecFloat.iter_pos shr_1 p mrs))%Z.
Proof.
  revert mrs. induction p as [p IH|p IH|]; intros mrs Hm; cbn [iter_pos].
  - apply IH, IH, shr_1_nonneg, Hm.
  - apply IH, IH, Hm.
  - apply shr_1_nonneg, Hm.
Qed.

Lemma shr_fexp_nonneg (m e : Z) (l : location) :
  (0 <= m)%Z -> (0 <= shr_m (fst (shr_fexp prec emax m e l)))%Z.
Proof.
  intros Hm. unfold shr_fexp, shr.
  assert (H0 : (0 <= shr_m (shr_record_of_loc m l))%Z).
  { destruct l as [|[| |]]; exact Hm. }
  destruct (fexp prec emax (Zdigits2 m + e) - e)%Z; cbn [fst]; try exact H0.
  apply iter_shr_1_nonneg, H0.
Qed.

Lemma round_nearest_even_nonneg (m : Z) (l : location) :
  (0 <= m)%Z -> (0 <= round_nearest_even m l)%Z.
Proof.
  intros Hm. destruct l as [|[| |]]; cbn; try lia.
  destruct (Z.even m); lia.
Qed.

Lemma binary_round_aux_not_nan (sx : bool) (mx ex : Z) (lx : location) :
  (0 <= mx)%Z -> binary_round_aux prec emax sx mx ex lx <> S754_nan.
Proof.
  intros Hm. unfold binary_round_aux.
  pose proof (shr_fexp_nonneg mx ex lx Hm) as H1.
  destruct (shr_fexp prec emax mx ex lx) as [mrs' e'] eqn:E1. cbn [fst] in H1.
  pose proof (shr_fexp_nonneg _ e' loc_Exact
                (round_nearest_even_nonneg _ (loc_of_shr_record mrs') H1)) as H2.
  destruct (shr_fexp prec emax _ e' loc_Exact) as [mrs'' e''] eqn:E2.
  cbn [fst] in H2.
  destruct (shr_m mrs'') as [|p|p]; [discriminate | | lia].
  destruct (e'' <=? emax - prec)%Z; discriminate.
Qed.

Lemma binary_normalize_not_nan (m e : Z) (szero : bool) :
  binary_normalize prec emax m e szero <> S754_nan.
Proof.
  unfold binary_normalize, binary_round.
  destruct m as [|p|p]; [discriminate | |];
    match goal with
    | |- context [shl_align ?a ?b ?c] => destruct (shl_align a b c) as [mz ez]
    end;
    apply binary_round_aux_not_nan; lia.
Qed.

End Binary64Rounding.

Section Binary64Numbers.

Lemma SFcompare_refl (x : spec_float) :
  x <> S754_nan -> SFcompare x x = Some Eq.
Proof.
  intros Hx. destruct x as [s|s| |s m e]; try congruence; cbn.
  - reflexivity.
  - destruct s; reflexivity.
  - rewrite Z.compare_refl, Pos.compare_cont_refl. destruct s; reflexivity.
Qed.

Lemma not_nan_is_nan (x : float) :
  Prim2SF x <> S754_nan -> PrimFloat.is_nan x = false.
Proof.
  intros Hx. unfold PrimFloat.is_nan. rewrite FloatAxioms.eqb_spec.
  unfold SFeqb. rewrite (SFcompare_refl _ Hx). reflexivity.
Qed.

Lemma finite64_not_nan (x : float) : finite64 x -> PrimFloat.is_nan x = false.
Proof.
  unfold finite64. intros Hx. apply not_nan_is_nan.
  destruct (Prim2SF x); try contradiction; discriminate.
Qed.

(** A double between [-50000] and [50000] is finite. *)
Lemma in_range_finite64 (v : float) :
  PrimFloat.leb (-50000) v = true -> PrimFloat.leb v 50000 = true ->
  finite64 v.
Proof.
  rewrite !FloatAxioms.leb_spec. unfold finite64.
  destruct (Prim2SF v) as [s|s| |s m e]; intros Hlo Hhi; try exact I.
  - destruct s; [vm_compute in Hlo | vm_compute in Hhi]; discriminate.
  - vm_compute in Hlo. discriminate.
Qed.

Lemma ltb_nan_l (x y : float) :
  PrimFloat.is_nan x = true -> PrimFloat.ltb x y = false.
Proof.
  intros Hx. rewrite FloatAxioms.ltb_spec. unfold SFltb.
  destruct (Prim2SF x) as [s|s| |s m e] eqn:E;
    try (rewrite not_nan_is_nan in Hx by (rewrite E; discriminate);
         discriminate).
  reflexivity.
Qed.

Lemma ltb_nan_r (x y : float) :
  PrimFloat.is_nan y = true -> PrimFloat.ltb x y = false.
Proof.
  intros Hy. rewrite FloatAxioms.ltb_spec. unfold SFltb.
  destruct (Prim2SF y) as [s|s| |s m e] eqn:E;
    try (rewrite not_nan_is_nan in Hy by (rewrite E; discriminate);
         discriminate).
  destruct (Prim2SF x); reflexivity.
Qed.

Lemma finite64_below_infinity (x : float) :
  finite64 x ->
  PrimFloat.ltb x PrimFloat.infinity = true
  /\ PrimFloat.ltb PrimFloat.neg_infinity x = true.
Proof.
  unfold finite64. rewrite !FloatAxioms.ltb_spec. unfold SFltb.
  change (Prim2SF PrimFloat.infinity) with (S754_infinity false).
  change (Prim2SF PrimFloat.neg_infinity) with (S754_infinity true).
  destruct (Prim2SF x) as [s|s| |s m e]; try contradiction; intros _;
    split; reflexivity.
Qed.

(** The difference of two finite doubles is a number (it may be an
    infinity). *)
Lemma sub_not_nan (x y : float) :
  finite64 x -> finite64 y -> PrimFloat.is_nan (x - y) = false.
Proof.
  unfold finite64. intros Hx Hy. apply not_nan_is_nan.
  rewrite FloatAxioms.sub_spec. unfold FloatAxioms.SF64sub, SFsub.
  destruct (Prim2SF x) as [sx|sx| |sx mx ex]; try contradiction;
    destruct (Prim2SF y) as [sy|sy| |sy my ey]; try contradiction;
    try discriminate.
  - destruct sx, sy; discriminate.
  - apply binary_normalize_not_nan.
Qed.

Lemma boundsPair_width (lo hi : float) :
  boundsPair lo hi -> PrimFloat.is_nan (hi - lo) = false.
Proof.
  intros [[-> ->] | [Hlo Hhi]]; [reflexivity | now apply sub_not_nan].
Qed.

(** The quotient of a number by [150] is a number. *)
Lemma div_150_not_nan (x : float) :
  PrimFloat.is_nan x = false -> PrimFloat.is_nan (x / 150) = false.
Proof.
  intros Hx. apply is_nan_spec in Hx. apply not_nan_is_nan.
  rewrite FloatAxioms.div_spec. unfold FloatAxioms.SF64div.
  destruct (Prim2SF 150) as [sy|sy| |sy my ey] eqn:E150;
    try (vm_compute in E150; discriminate).
  unfold SFdiv.
  destruct (Prim2SF x) as [sx|sx| |sx mx ex]; try congruence; try discriminate.
  unfold SFdiv_core_binary.
  match goal with
  | |- context [Z.div_eucl ?a ?b] =>
      assert (Hq : (0 <= fst (Z.div_eucl a b))%Z);
      [ change (fst (Z.div_eucl a b)) with (a / b)%Z;
        apply Z.div_pos; [|lia]
      | destruct (Z.div_eucl a b) as [q r]; cbn [fst] in Hq;
        apply binary_round_aux_not_nan; exact Hq ]
  end.
  match goal with
  | |- (0 <= match ?s with _ => _ end)%Z => destruct s
  end; try lia.
  apply Z.shiftl_nonneg. lia.
Qed.

Lemma of_Z_not_nan (z : Z) : PrimFloat.is_nan (F.of_Z z) = false.
Proof.
  apply not_nan_is_nan. unfold F.of_Z. destruct z as [|p|p].
  - discriminate.
  - rewrite FloatAxioms.of_uint63_spec. apply binary_normalize_not_nan.
  - rewrite FloatAxioms.opp_spec, FloatAxioms.of_uint63_spec.
    pose proof (binary_normalize_not_nan FloatOps.prec FloatOps.emax
                  (Uint63Axioms.to_Z (Uint63.of_Z (Z.pos p))) 0 false) as Hn.
    destruct (binary_normalize _ _ _ _ _); try congruence; discriminate.
Qed.

Lemma floor_not_nan (x : float) :
  PrimFloat.is_nan x = false -> PrimFloat.is_nan (F.floor x) = false.
Proof.
  intros Hx. unfold F.floor.
  destruct (Prim2SF x) as [s|s| |s m e]; try exact Hx.
  destruct (0 <=? e)%Z; [exact Hx|].
  destruct s; [destruct (_ =? 0)%Z|]; apply of_Z_not_nan.
Qed.

Lemma max_not_nan (x y : float) :
  PrimFloat.is_nan x = false -> PrimFloat.is_nan y = false ->
  PrimFloat.is_nan (F.max x y) = false.
Proof.
  intros Hx Hy. unfold F.max. rewrite Hx, Hy. cbn [orb].
  destruct (PrimFloat.ltb x y); [exact Hy|].
  destruct (PrimFloat.ltb y x); [exact Hx|].
  destruct (PrimFloat.get_sign x); assumption.
Qed.

End Binary64Numbers.

Section LayerBounds.

(** A corner as [transformPointSafe] answers it. *)
Let clamped (c : option (Point float)) : Prop :=
  match c with
  | None => True
  | Some p =>
      (PrimFloat.is_nan (px p) = true
       \/ (PrimFloat.leb (-50000) (px p) = true
           /\ PrimFloat.leb (px p) 50000 = true))
      /\ (PrimFloat.is_nan (py p) = true
          \/ (PrimFloat.leb (-50000) (py p) = true
              /\ PrimFloat.leb (py p) 50000 = true))
  end.

Lemma boundsPair_step (lo hi v : float) :
  boundsPair lo hi ->
  PrimFloat.is_nan v = true
  \/ (PrimFloat.leb (-50000) v = true /\ PrimFloat.leb v 50000 = true) ->
  boundsPair (if PrimFloat.ltb v lo then v else lo)
             (if PrimFloat.ltb hi v then v else hi).
Proof.
  intros Hb [Hn | [H1 H2]].
  - rewrite (ltb_nan_l v lo Hn), (ltb_nan_r hi v Hn). exact Hb.
  - pose proof (in_range_finite64 v H1 H2) as Hv.
    destruct Hb as [[-> ->] | [Hlo Hhi]].
    + destruct (finite64_below_infinity v Hv) as [-> ->]. right. auto.
    + right. split.
      * destruct (PrimFloat.ltb v lo); assumption.
      * destruct (PrimFloat.ltb hi v); assumption.
Qed.

Lemma boundsOf_pairs (corners : list (option (Point float))) :
  Forall clamped corners ->
  exists minX maxX minY maxY n,
    boundsOf corners = Some (minX, maxX, minY, maxY, n)
    /\ boundsPair minX maxX /\ boundsPair minY maxY.
Proof.
  intros Hc. unfold boundsOf. cbn [Infinity IEEE bind ret jneg jlt].
  match goal with
  | |- context [fold_left ?f0 corners ?st0] =>
      assert (Hgen : forall l st,
                 Forall clamped l ->
                 (let '(a, b, c, d, _) := st in
                  boundsPair a b /\ boundsPair c d) ->
                 let '(a, b, c, d, _) := fold_left f0 l st in
                 boundsPair a b /\ boundsPair c d)
  end.
  { induction l as [|pt l IH]; intros st Hl Hst; [exact Hst|].
    cbn [fold_left]. inversion Hl as [|? ? Hpt Hl']; subst.
    apply IH; [exact Hl'|].
    destruct st as [[[[a b] c] d] n]. destruct Hst as [Hx Hy].
    destruct pt as [pt|]; [|auto].
    destruct Hpt as [Hpx Hpy].
    split; apply boundsPair_step; assumption. }
  match goal with
  | |- context [fold_left ?f0 corners ?st0] =>
      specialize (Hgen corners st0 Hc);
      destruct (fold_left f0 corners st0) as [[[[a b] c] d] n]
  end.
  exists a, b, c, d, n. split; [reflexivity|].
  apply Hgen. split; left; split; reflexivity.
Qed.

End LayerBounds.

(** X30.  In binary64, for every matrix and every size of the image (NaN and
    infinities included), a layer of [renderCanvas] either ends the layer loop
    or gets a grid size that is a number between [2] and the base grid size,
    [10] on the screen and [20] in an export; the grid size is never NaN. *)
Theorem layerGrid_bounded (layerMatrix : list float) (iw ih : float)
        (isExportMode : bool) :
  length layerMatrix = 9%nat ->
  exists r,
    layerGrid layerMatrix iw ih isExportMode = Some r
    /\ match r with
       | None => True
       | Some gridSize =>
           PrimFloat.leb 2 gridSize = true
           /\ PrimFloat.leb gridSize (if isExportMode then 20 else 10) = true
       end.
Proof.
  intros _. unfold layerGrid.
  destruct (transformPointSafe_ieee layerMatrix (int 0) (int 0)) as (c0 & -> & H0).
  destruct (transformPointSafe_ieee layerMatrix iw (int 0)) as (c1 & -> & H1).
  destruct (transformPointSafe_ieee layerMatrix iw ih) as (c2 & -> & H2).
  destruct (transformPointSafe_ieee layerMatrix (int 0) ih) as (c3 & -> & H3).
  cbn [bind].
  destruct (boundsOf_pairs [c0; c1; c2; c3]) as (minX & maxX & minY & maxY & n & -> & Hx & Hy).
  { repeat constructor; assumption. }
  cbn [bind jsub jlt jdiv IEEE Math_max Math_min Math_floor].
  pose proof (boundsPair_width _ _ Hx) as Hw.
  pose proof (boundsPair_width _ _ Hy) as Hh.
  destruct (Nat.ltb 0 n && _); [exists None; auto|].
  destruct (Nat.ltb n 4).
  - eexists. split; [reflexivity|]. destruct isExportMode; split; reflexivity.
  - cbn [bind ret]. eexists. split; [reflexivity|].
    assert (Hc : PrimFloat.is_nan
                   (F.floor (F.max (maxX - minX) (maxY - minY) / int 150)) = false).
    { apply floor_not_nan, div_150_not_nan, max_not_nan; assumption. }
    destruct isExportMode.
    + exact (clamp_defined 2 20 _ eq_refl eq_refl eq_refl eq_refl eq_refl Hc).
    + exact (clamp_defined 2 10 _ eq_refl eq_refl eq_refl eq_refl eq_refl Hc).
Qed.

Lemma layerGrid_bounded_witness :
  exists r,
    layerGrid [1; 0; 0; 0; 1; 0; 0; 0; 1]%float 800%float 600%float false = Some r
    /\ match r with
       | None => True
       | Some gridSize =>
           PrimFloat.leb 2 gridSize = true
           /\ PrimFloat.leb gridSize 10 = true
       end.
Proof.
  apply (layerGrid_bounded [1; 0; 0; 0; 1; 0; 0; 0; 1]%float 800%float
           600%float false).
  reflexivity.
Defined.
